(** * Pixel Office: room server, transport client and room synchroniser

    A shallow embedding of the multiplayer core of pixel-agents:
    - [server/src/roomManager.ts]  (Room, RoomManager, generateRoomId),
    - [webview-ui/src/network/wsClient.ts]  (WsClient),
    - [webview-ui/src/hooks/useWebSocket.ts] in its three revisions
      (the WebSocket relay hook and the two Supabase Realtime hooks),
    - the protocol types of [network/protocol.ts].
    Beside these: the lobby form and the room link ([LobbyPage.tsx],
    [App.tsx]), the status button and the name tags ([BottomToolbar.tsx],
    [ToolOverlay.tsx]), the asset loader ([network/assetLoader.ts]), and of
    the extension host the timers ([src/timerManager.ts]) and the transcript
    reader ([src/fileWatcher.ts]).

    JavaScript numbers that hold integers are [Z]; a [Map] keyed by numbers or
    strings is a [gmap]; a [Map] whose iteration order is observable (the
    players of a room, in broadcast order) is an association list; every
    handler is a function from the state before to the state after, together
    with the messages it puts on the wire. *)

From Stdlib Require Import ZArith String Ascii List Lia.
From stdpp Require Import gmap strings list fin_maps.

Local Open Scope Z_scope.

(** ** Protocol types ([network/protocol.ts], [server/src/types.ts]) *)

Inductive PlayerStatus := coding | reading | idle | afk.

#[global] Instance PlayerStatus_eq_dec : EqDecision PlayerStatus.
Proof. solve_decision. Defined.

Record PlayerInfo := mkPlayerInfo {
  p_id : Z;
  p_name : string;
  p_characterIndex : Z;
  p_status : PlayerStatus;
  p_seatId : option string
}.

#[global] Instance PlayerInfo_eq_dec : EqDecision PlayerInfo.
Proof. solve_decision. Defined.

Inductive ClientMessage :=
| C2S_CreateRoom (playerName : string) (characterIndex : Z)
| C2S_JoinRoom (roomId playerName : string) (characterIndex : Z)
| C2S_SetStatus (status : PlayerStatus)
| C2S_ReassignSeat (seatId : string)
| C2S_Ping.

Inductive ServerMessage :=
| S2C_RoomJoined (roomId : string) (playerId : Z) (players : list PlayerInfo)
| S2C_PlayerJoined (player : PlayerInfo)
| S2C_PlayerLeft (playerId : Z)
| S2C_PlayerStatusChanged (playerId : Z) (status : PlayerStatus)
| S2C_PlayerSeatChanged (playerId : Z) (seatId : string)
| S2C_Pong
| S2C_Error (message : string).

(** [WebSocket.OPEN], the only [readyState] in which a socket transmits. *)
Definition OPEN : Z := 1.

(** ** Random room codes *)

(** A value of [Math.random()]: a double [r] with [0 <= r < 1], kept as the
    exact fraction [rnd_num / (rnd_num + rnd_gap)].  Every double in that
    interval is such a fraction, and the type admits nothing outside it. *)
Record Random := mkRandom { rnd_num : N; rnd_gap : positive }.

(** [Math.floor(r * n)] for a power of two [n] (the product is then exact
    in binary floating point). *)
Definition floor_scaled (r : Random) (n : Z) : Z :=
  (Z.of_N (rnd_num r) * n) / (Z.of_N (rnd_num r) + Z.pos (rnd_gap r)).

(** The runtime's generator: the sequence of values [Math.random()] returns,
    and how many of them were consumed. *)
Definition Rng := nat -> Random.

Definition chars : string := "ABCDEFGHJKLMNPQRSTUVWXYZ23456789"%string.

(** [chars[i]] appended to a string: indexing out of range yields
    [undefined], which [+=] renders as the text "undefined". *)
Definition char_at (s : string) (i : Z) : string :=
  if (i <? 0) then "undefined"%string
  else match String.get (Z.to_nat i) s with
       | Some c => String c EmptyString
       | None => "undefined"%string
       end.

(** The loop [for (let i = 0; i < 6; i++) id += chars[...]], counting down
    the iterations that remain. *)
Fixpoint room_code_loop (iters : nat) (rng : Rng) (n : nat) (acc : string) : string * nat :=
  match iters with
  | O => (acc, n)
  | S k =>
      room_code_loop k rng (S n)
        (acc +:+ char_at chars (floor_scaled (rng n) (Z.of_nat (String.length chars))))
  end.

(** server/src/roomManager.ts *)
Definition generateRoomId (rng : Rng) (n : nat) : string * nat :=
  room_code_loop 6 rng n ""%string.

(** hooks/useWebSocket.ts (Supabase revisions) *)
Definition generateRoomCode (rng : Rng) (n : nat) : string * nat :=
  room_code_loop 6 rng n ""%string.

(** What the interface promises of a room identifier. *)
Definition in_alphabet (c : ascii) : Prop := In c (list_ascii_of_string chars).

Definition valid_room_id (s : string) : Prop :=
  String.length s = 6%nat /\ Forall in_alphabet (list_ascii_of_string s).

(** ** The relay server ([server/src/roomManager.ts]) *)

(** A socket is known to the server by identity only; its [readyState] is
    the transport's, read at the moment of each send. *)
Definition WebSocket := nat.

Record Player := mkPlayer { pl_ws : WebSocket; pl_info : PlayerInfo }.

(** [Map<WebSocket, Player>]: iteration follows insertion order, and [set]
    on a present key replaces the value in place. *)
Fixpoint map_set {V : Type} (k : WebSocket) (v : V) (m : list (WebSocket * V)) : list (WebSocket * V) :=
  match m with
  | [] => [(k, v)]
  | (k', v') :: rest =>
      if decide (k' = k) then (k, v) :: rest else (k', v') :: map_set k v rest
  end.

Fixpoint map_get {V : Type} (k : WebSocket) (m : list (WebSocket * V)) : option V :=
  match m with
  | [] => None
  | (k', v') :: rest => if decide (k' = k) then Some v' else map_get k rest
  end.

Record Room := mkRoom {
  room_id : string;
  room_players : list (WebSocket * Player);
  nextPlayerId : Z;
  cleanupTimer : option nat
}.

(** [Room.addPlayer].  [%] is JavaScript's remainder: it truncates toward
    zero and takes the sign of the dividend, which is [Z.rem]. *)
Definition addPlayer (r : Room) (ws : WebSocket) (name : string) (characterIndex : Z)
  : Room * PlayerInfo :=
  let info := {| p_id := nextPlayerId r;
                 p_name := name;
                 p_characterIndex := Z.rem characterIndex 6;
                 p_status := idle;
                 p_seatId := None |} in
  ({| room_id := room_id r;
      room_players := map_set ws (mkPlayer ws info) (room_players r);
      nextPlayerId := nextPlayerId r + 1;
      cleanupTimer := None |}, info).

Definition getPlayerInfos (r : Room) : list PlayerInfo :=
  map (fun e => pl_info (snd e)) (room_players r).

Definition getPlayer (r : Room) (ws : WebSocket) : option Player :=
  map_get ws (room_players r).

(** A frame handed to a socket's [send]: the receiving socket and the
    message that was serialised. *)
Definition Frame := (WebSocket * ServerMessage)%type.

(** [Room.broadcast]: every player but [exclude] whose socket is open. *)
Definition broadcast (readyState : WebSocket -> Z) (r : Room) (msg : ServerMessage)
    (exclude : option WebSocket) : list Frame :=
  omap (fun e =>
          let ws := pl_ws (snd e) in
          if decide (Some ws <> exclude /\ readyState ws = 1) then Some (ws, msg) else None)
       (room_players r).

(** [RoomManager.sendTo] *)
Definition sendTo (readyState : WebSocket -> Z) (ws : WebSocket) (msg : ServerMessage) : list Frame :=
  if decide (readyState ws = 1) then [(ws, msg)] else [].

(** Rooms are objects shared between [rooms] and [wsToRoom]; both maps hold
    references into one store of rooms. *)
Record RoomManager := mkRoomManager {
  store : gmap nat Room;
  rooms : gmap string nat;
  wsToRoom : gmap WebSocket nat
}.

(** The identifiers of the rooms that are live. *)
Definition live_rooms (m : RoomManager) : gset string := dom (rooms m).

(** The loop [do { roomId = generateRoomId() } while (this.rooms.has(roomId))],
    run for at most [fuel] draws of an identifier. *)
Fixpoint fresh_room_id (fuel : nat) (rng : Rng) (n : nat) (taken : gmap string nat)
  : option (string * nat) :=
  match fuel with
  | O => None
  | S fuel' =>
      let '(roomId, n') := generateRoomId rng n in
      match taken !! roomId with
      | Some _ => fresh_room_id fuel' rng n' taken
      | None => Some (roomId, n')
      end
  end.

Definition handleCreateRoom (fuel : nat) (readyState : WebSocket -> Z) (rng : Rng) (n : nat)
    (m : RoomManager) (ws : WebSocket) (playerName : string) (characterIndex : Z)
  : option (RoomManager * nat * list Frame) :=
  match fresh_room_id fuel rng n (rooms m) with
  | None => None
  | Some (roomId, n') =>
      let ref := fresh (dom (store m)) in
      let '(room, playerInfo) := addPlayer (mkRoom roomId [] 1 None) ws playerName characterIndex in
      Some ({| store := <[ref := room]> (store m);
               rooms := <[roomId := ref]> (rooms m);
               wsToRoom := <[ws := ref]> (wsToRoom m) |},
            n',
            sendTo readyState ws (S2C_RoomJoined roomId (p_id playerInfo) [playerInfo]))
  end.

(** Following a reference to its room.  A reference always denotes a room of
    the store; where it does not, the model leaves the state as it is. *)
Definition with_room (m : RoomManager) (ref : nat)
    (k : Room -> RoomManager * list Frame) : RoomManager * list Frame :=
  match store m !! ref with
  | Some room => k room
  | None => (m, [])
  end.

Definition handleJoinRoom (readyState : WebSocket -> Z) (m : RoomManager) (ws : WebSocket)
    (roomId playerName : string) (characterIndex : Z) : RoomManager * list Frame :=
  match rooms m !! roomId with
  | None => (m, sendTo readyState ws (S2C_Error ("Room " +:+ roomId +:+ " not found")%string))
  | Some ref =>
      with_room m ref (fun room =>
        let existingPlayers := getPlayerInfos room in
        let '(room', playerInfo) := addPlayer room ws playerName characterIndex in
        ({| store := <[ref := room']> (store m);
            rooms := rooms m;
            wsToRoom := <[ws := ref]> (wsToRoom m) |},
         sendTo readyState ws
           (S2C_RoomJoined roomId (p_id playerInfo) (existingPlayers ++ [playerInfo]))
         ++ broadcast readyState room' (S2C_PlayerJoined playerInfo) (Some ws)))
  end.

(** [player.info.status = status] writes through the shared player object. *)
Definition set_info (r : Room) (ws : WebSocket) (f : PlayerInfo -> PlayerInfo) : Room :=
  {| room_id := room_id r;
     room_players := map (fun e => if decide (fst e = ws)
                                   then (fst e, mkPlayer (pl_ws (snd e)) (f (pl_info (snd e))))
                                   else e) (room_players r);
     nextPlayerId := nextPlayerId r;
     cleanupTimer := cleanupTimer r |}.

Definition handleSetStatus (readyState : WebSocket -> Z) (m : RoomManager) (ws : WebSocket)
    (status : PlayerStatus) : RoomManager * list Frame :=
  match wsToRoom m !! ws with
  | None => (m, [])
  | Some ref =>
      with_room m ref (fun room =>
      match getPlayer room ws with
      | None => (m, [])
      | Some player =>
          let room' := set_info room ws
                         (fun i => mkPlayerInfo (p_id i) (p_name i) (p_characterIndex i) status (p_seatId i)) in
          ({| store := <[ref := room']> (store m); rooms := rooms m; wsToRoom := wsToRoom m |},
           broadcast readyState room'
             (S2C_PlayerStatusChanged (p_id (pl_info player)) status) (Some ws))
      end)
  end.

Definition handleReassignSeat (readyState : WebSocket -> Z) (m : RoomManager) (ws : WebSocket)
    (seatId : string) : RoomManager * list Frame :=
  match wsToRoom m !! ws with
  | None => (m, [])
  | Some ref =>
      with_room m ref (fun room =>
      match getPlayer room ws with
      | None => (m, [])
      | Some player =>
          let room' := set_info room ws
                         (fun i => mkPlayerInfo (p_id i) (p_name i) (p_characterIndex i) (p_status i) (Some seatId)) in
          ({| store := <[ref := room']> (store m); rooms := rooms m; wsToRoom := wsToRoom m |},
           broadcast readyState room'
             (S2C_PlayerSeatChanged (p_id (pl_info player)) seatId) (Some ws))
      end)
  end.

(** [RoomManager.handleMessage]: the dispatch on [msg.type].  Creating a room
    draws random identifiers, so the result carries the generator's position
    and is absent only when [fuel] draws all named live rooms. *)
Definition handleMessage (fuel : nat) (readyState : WebSocket -> Z) (rng : Rng) (n : nat)
    (m : RoomManager) (ws : WebSocket) (msg : ClientMessage)
  : option (RoomManager * nat * list Frame) :=
  match msg with
  | C2S_CreateRoom playerName characterIndex =>
      handleCreateRoom fuel readyState rng n m ws playerName characterIndex
  | C2S_JoinRoom roomId playerName characterIndex =>
      let '(m', out) := handleJoinRoom readyState m ws roomId playerName characterIndex in
      Some (m', n, out)
  | C2S_SetStatus status =>
      let '(m', out) := handleSetStatus readyState m ws status in Some (m', n, out)
  | C2S_ReassignSeat seatId =>
      let '(m', out) := handleReassignSeat readyState m ws seatId in Some (m', n, out)
  | C2S_Ping => Some (m, n, sendTo readyState ws S2C_Pong)
  end.

(** ** The transport client ([webview-ui/src/network/wsClient.ts]) *)

(** The browser's socket object as the client sees it: its [readyState] and
    the frames handed to its [send], oldest first. *)
Record Socket := mkSocket { readyState : Z; transmitted : list ClientMessage }.

Record WsClient := mkWsClient {
  ws : option Socket;
  pingTimer : bool;
  reconnectTimer : bool;
  shouldReconnect : bool;
  pendingMessages : list ClientMessage
}.

(** The singleton [wsClient = new WsClient()]. *)
Definition wsClient : WsClient :=
  {| ws := None; pingTimer := false; reconnectTimer := false;
     shouldReconnect := false; pendingMessages := [] |}.

(** [WsClient.send] *)
Definition send (msg : ClientMessage) (c : WsClient) : WsClient :=
  match ws c with
  | Some s =>
      if decide (readyState s = OPEN)
      then {| ws := Some (mkSocket (readyState s) (transmitted s ++ [msg]));
              pingTimer := pingTimer c; reconnectTimer := reconnectTimer c;
              shouldReconnect := shouldReconnect c; pendingMessages := pendingMessages c |}
      else c
  | None => c
  end.

(** [WsClient.cleanup] *)
Definition cleanup (c : WsClient) : WsClient :=
  {| ws := None; pingTimer := false; reconnectTimer := false;
     shouldReconnect := shouldReconnect c; pendingMessages := pendingMessages c |}.

(** [WsClient.doConnect]; [throws] tells whether [new WebSocket(url)] raised.
    A new socket starts in state CONNECTING (0). *)
Definition doConnect (throws : bool) (c : WsClient) : WsClient :=
  match ws c with
  | Some _ => c
  | None =>
      if throws
      then {| ws := None; pingTimer := pingTimer c;
              reconnectTimer := if shouldReconnect c then true else reconnectTimer c;
              shouldReconnect := shouldReconnect c; pendingMessages := pendingMessages c |}
      else {| ws := Some (mkSocket 0 []); pingTimer := pingTimer c;
              reconnectTimer := reconnectTimer c;
              shouldReconnect := shouldReconnect c; pendingMessages := pendingMessages c |}
  end.

(** [WsClient.connect] *)
Definition connect (throws : bool) (c : WsClient) : WsClient :=
  doConnect throws
    {| ws := ws c; pingTimer := pingTimer c; reconnectTimer := reconnectTimer c;
       shouldReconnect := true; pendingMessages := pendingMessages c |}.

(** [WsClient.disconnect]: [cleanup] has cleared [ws] before it is tested. *)
Definition disconnect (c : WsClient) : WsClient :=
  cleanup {| ws := ws c; pingTimer := pingTimer c; reconnectTimer := reconnectTimer c;
             shouldReconnect := false; pendingMessages := pendingMessages c |}.

(** The socket's [onopen]: the transport has moved the socket to OPEN; the
    queued messages are sent, the queue is emptied, the ping timer starts. *)
Definition onopen (c : WsClient) : WsClient :=
  let opened := {| ws := (fun s => mkSocket OPEN (transmitted s)) <$> ws c;
                   pingTimer := pingTimer c; reconnectTimer := reconnectTimer c;
                   shouldReconnect := shouldReconnect c;
                   pendingMessages := pendingMessages c |} in
  let flushed := foldl (fun c' msg => send msg c') opened (pendingMessages opened) in
  {| ws := ws flushed; pingTimer := true; reconnectTimer := reconnectTimer flushed;
     shouldReconnect := shouldReconnect flushed; pendingMessages := [] |}.

(** The socket's [onclose]. *)
Definition onclose (c : WsClient) : WsClient :=
  let c' := cleanup c in
  {| ws := ws c'; pingTimer := pingTimer c';
     reconnectTimer := if shouldReconnect c' then true else reconnectTimer c';
     shouldReconnect := shouldReconnect c'; pendingMessages := pendingMessages c' |}.

(** The states the client can be in: everything its methods, its timers and
    the transport's callbacks can make of the singleton. *)
Inductive client_event :=
| ev_connect (throws : bool)
| ev_disconnect
| ev_send (msg : ClientMessage)
| ev_onopen
| ev_onclose
| ev_ping_timer
| ev_reconnect_timer (throws : bool)
| ev_readyState (rs : Z).

Definition client_step (e : client_event) (c : WsClient) : WsClient :=
  match e with
  | ev_connect throws => connect throws c
  | ev_disconnect => disconnect c
  | ev_send msg => send msg c
  | ev_onopen => onopen c
  | ev_onclose => onclose c
  | ev_ping_timer => send C2S_Ping c
  | ev_reconnect_timer throws =>
      doConnect throws
        {| ws := ws c; pingTimer := pingTimer c; reconnectTimer := false;
           shouldReconnect := shouldReconnect c; pendingMessages := pendingMessages c |}
  | ev_readyState rs =>
      {| ws := (fun s => mkSocket rs (transmitted s)) <$> ws c;
         pingTimer := pingTimer c; reconnectTimer := reconnectTimer c;
         shouldReconnect := shouldReconnect c; pendingMessages := pendingMessages c |}
  end.

Definition client_run (es : list client_event) (c : WsClient) : WsClient :=
  foldl (fun c' e => client_step e c') c es.

(** ** Tile map and pathfinder *)

(** A grid cell, as (column, row). *)
Definition Cell := (Z * Z)%type.

(** Modelled from the spec: the classification of a cell of the tile map
    ([office/layout/tileMap.ts] is not among the sources): floor, wall,
    furniture that blocks, furniture that can be walked on, seat anchor. *)
Inductive TileKind :=
| tile_floor | tile_wall | tile_furniture_blocking | tile_furniture_walkable | tile_seat_anchor.

(** Modelled from the spec: a seat anchor, the blocked desk cell together
    with the walkable chair cell a seated character occupies. *)
Record Seat := mkSeat { seat_desk : Cell; seat_chair : Cell }.

(** Modelled from the spec: the tile map, a [cols x rows] grid with a
    classification per cell (row by row) and a mapping from seat identifier
    to its anchor. *)
Record TileMap := mkTileMap {
  tm_cols : Z;
  tm_rows : Z;
  tm_cells : list (list TileKind);
  tm_seats : gmap string Seat
}.

(** Modelled from the spec: the cells of the grid are those with
    [0 <= col < cols] and [0 <= row < rows]. *)
Definition in_bounds (tm : TileMap) (c : Cell) : Prop :=
  0 <= c.1 < tm_cols tm /\ 0 <= c.2 < tm_rows tm.

#[global] Instance in_bounds_dec tm c : Decision (in_bounds tm c).
Proof. unfold in_bounds. apply _. Defined.

(** Modelled from the spec: the classification of a cell of the grid;
    there is none outside the grid. *)
Definition kind_at (tm : TileMap) (c : Cell) : option TileKind :=
  if decide (in_bounds tm c)
  then tm_cells tm !! Z.to_nat c.2 ≫= fun row => row !! Z.to_nat c.1
  else None.

(** Modelled from the spec: walls, blocking furniture and seat anchors (the
    desks) are blocked; floor and walkable furniture are not. *)
Definition blocks (k : TileKind) : bool :=
  match k with
  | tile_floor | tile_furniture_walkable => false
  | tile_wall | tile_furniture_blocking | tile_seat_anchor => true
  end.

(** Modelled from the spec: [isWalkable(col, row) -> bool] of the tile map. *)
Definition isWalkable (tm : TileMap) (col row : Z) : bool :=
  match kind_at tm (col, row) with
  | Some k => negb (blocks k)
  | None => false
  end.

(** Modelled from the spec: [neighbors(col, row)], the up to four orthogonal
    walkable cells. *)
Definition neighbors (tm : TileMap) (c : Cell) : list Cell :=
  filter (fun n => isWalkable tm n.1 n.2 = true)
    [(c.1, c.2 - 1); (c.1, c.2 + 1); (c.1 - 1, c.2); (c.1 + 1, c.2)].

(** Modelled from the spec: [seatAnchorCell(seatId) -> cell or none], the
    desk the seat is anchored to. *)
Definition seatAnchorCell (tm : TileMap) (seatId : string) : option Cell :=
  seat_desk <$> tm_seats tm !! seatId.

(** Modelled from the spec: the chair cell of a seat, the walkable cell next
    to the blocked anchor to which a walk to the seat is redirected. *)
Definition seatChairCell (tm : TileMap) (seatId : string) : option Cell :=
  seat_chair <$> tm_seats tm !! seatId.

(** Modelled from the spec: the search loop of the pathfinder, with its
    frontier queue, the set of cells already seen and the predecessor map;
    it stops at the first dequeue of the goal.  [fuel] bounds the number of
    cells dequeued. *)
Fixpoint bfs (tm : TileMap) (goal : Cell) (fuel : nat)
    (queue : list Cell) (seen : gset Cell) (pred : gmap Cell Cell) : option (gmap Cell Cell) :=
  match fuel with
  | O => None
  | S fuel' =>
      match queue with
      | [] => None
      | cur :: rest =>
          if decide (cur = goal) then Some pred
          else
            let new := filter (fun n => n ∉ seen) (neighbors tm cur) in
            bfs tm goal fuel' (rest ++ new) (seen ∪ list_to_set new)
              (foldr (fun n p => <[n := cur]> p) pred new)
      end
  end.

(** Modelled from the spec: reading the path off the predecessor map, from
    the goal back to the start; the start itself is not part of the path. *)
Fixpoint walk_back (pred : gmap Cell Cell) (start : Cell) (fuel : nat)
    (k : Cell) (acc : list Cell) : option (list Cell) :=
  if decide (k = start) then Some acc
  else match fuel with
       | O => None
       | S fuel' =>
           match pred !! k with
           | Some p => walk_back pred start fuel' p (k :: acc)
           | None => None
           end
       end.

(** Modelled from the spec: the grid is finite and each cell is visited
    once, so no more cells are ever dequeued than the start and the cells of
    the grid. *)
Definition search_fuel (tm : TileMap) : nat :=
  S (Z.to_nat (tm_cols tm) * Z.to_nat (tm_rows tm)).

(** Modelled from the spec: [findPath(from, to)] of [office/layout/tileMap.ts],
    which [office/layout/index.ts] re-exports and which is not among the
    sources.  Breadth-first search over 4-connected walkable neighbours;
    the result is an ordered sequence of cells or none: [findPath(A, A)] is
    the empty path, an unreachable goal gives none. *)
Definition findPath (tm : TileMap) (from to : Cell) : option (list Cell) :=
  if decide (from = to) then Some []
  else match bfs tm to (search_fuel tm) [from] {[from]} ∅ with
       | Some pred => walk_back pred from (size pred) to []
       | None => None
       end.

(** A route: each cell is a walkable orthogonal neighbour of the one before. *)
Fixpoint is_route (tm : TileMap) (from : Cell) (p : list Cell) : Prop :=
  match p with
  | [] => True
  | c :: p' => c ∈ neighbors tm from /\ is_route tm c p'
  end.

(** [b] can be reached from [a] by steps onto walkable orthogonal neighbours. *)
Definition reachable (tm : TileMap) (a b : Cell) : Prop :=
  rtc (fun x y => y ∈ neighbors tm x) a b.

(** A grid of [cols x rows] cells that are all of one kind. *)
Definition uniform_map (cols rows : nat) (k : TileKind) : TileMap :=
  {| tm_cols := Z.of_nat cols; tm_rows := Z.of_nat rows;
     tm_cells := replicate rows (replicate cols k); tm_seats := ∅ |}.

(** ** Characters and the office state engine *)

(** Modelled from the spec: the states of a character's state machine:
    idle, walking, sitting idle, sitting active. *)
Inductive CharacterState := ch_idle | ch_walking | ch_sitting_idle | ch_sitting_active.

(** Modelled from the spec: the facing direction of a character. *)
Inductive Direction := dir_down | dir_up | dir_left | dir_right.

(** Modelled from the spec: the character of [office/types.ts], which is not
    among the sources.  Identity, sprite variant, behavioural status (kept
    the way the hooks write it: activity flag, tool name, waiting bubble),
    seat binding, tile coordinate, sub-tile pixel offset, facing direction,
    queued path, state of the state machine and the remote-control flag.
    The hooks read [tileCol], [tileRow] and [isActive]. *)
Record Character := mkCharacter {
  ch_id : Z;
  palette : Z;
  hueShift : Z;
  seatId : option string;
  isActive : bool;
  currentTool : option string;
  waitingBubble : bool;
  tileCol : Z;
  tileRow : Z;
  offset : Z * Z;
  dir : Direction;
  path : list Cell;
  state : CharacterState;
  remoteControlled : bool
}.

(** The current tile coordinate of a character. *)
Definition tile (ch : Character) : Cell := (tileCol ch, tileRow ch).

(** Assignments to one field of a character. *)

Definition set_seatId (v : option string) (ch : Character) : Character :=
  mkCharacter (ch_id ch) (palette ch) (hueShift ch) v (isActive ch) (currentTool ch)
    (waitingBubble ch) (tileCol ch) (tileRow ch) (offset ch) (dir ch) (path ch) (state ch)
    (remoteControlled ch).

Definition set_isActive (v : bool) (ch : Character) : Character :=
  mkCharacter (ch_id ch) (palette ch) (hueShift ch) (seatId ch) v (currentTool ch)
    (waitingBubble ch) (tileCol ch) (tileRow ch) (offset ch) (dir ch) (path ch) (state ch)
    (remoteControlled ch).

Definition set_currentTool (v : option string) (ch : Character) : Character :=
  mkCharacter (ch_id ch) (palette ch) (hueShift ch) (seatId ch) (isActive ch) v
    (waitingBubble ch) (tileCol ch) (tileRow ch) (offset ch) (dir ch) (path ch) (state ch)
    (remoteControlled ch).

Definition set_waitingBubble (v : bool) (ch : Character) : Character :=
  mkCharacter (ch_id ch) (palette ch) (hueShift ch) (seatId ch) (isActive ch) (currentTool ch)
    v (tileCol ch) (tileRow ch) (offset ch) (dir ch) (path ch) (state ch)
    (remoteControlled ch).

Definition set_tile (c : Cell) (ch : Character) : Character :=
  mkCharacter (ch_id ch) (palette ch) (hueShift ch) (seatId ch) (isActive ch) (currentTool ch)
    (waitingBubble ch) c.1 c.2 (offset ch) (dir ch) (path ch) (state ch)
    (remoteControlled ch).

Definition set_path (v : list Cell) (ch : Character) : Character :=
  mkCharacter (ch_id ch) (palette ch) (hueShift ch) (seatId ch) (isActive ch) (currentTool ch)
    (waitingBubble ch) (tileCol ch) (tileRow ch) (offset ch) (dir ch) v (state ch)
    (remoteControlled ch).

Definition set_state (v : CharacterState) (ch : Character) : Character :=
  mkCharacter (ch_id ch) (palette ch) (hueShift ch) (seatId ch) (isActive ch) (currentTool ch)
    (waitingBubble ch) (tileCol ch) (tileRow ch) (offset ch) (dir ch) (path ch) v
    (remoteControlled ch).

Definition set_remoteControlled (v : bool) (ch : Character) : Character :=
  mkCharacter (ch_id ch) (palette ch) (hueShift ch) (seatId ch) (isActive ch) (currentTool ch)
    (waitingBubble ch) (tileCol ch) (tileRow ch) (offset ch) (dir ch) (path ch) (state ch) v.

(** Modelled from the spec: the [OfficeState] of
    [office/engine/officeState.ts], which is not among the sources.  It owns
    the tile map and the characters, keyed by id ([characters] is the
    [Map<number, Character>] the hooks read); [spawn] is the cell where a
    character without a seat appears. *)
Record OfficeState := mkOfficeState {
  tileMap : TileMap;
  characters : gmap Z Character;
  spawn : Cell
}.

Definition with_characters (os : OfficeState) (cs : gmap Z Character) : OfficeState :=
  {| tileMap := tileMap os; characters := cs; spawn := spawn os |}.

(** Modelled from the spec: a mutation of one character; a mutation that
    names a character that is not present does nothing. *)
Definition update_character (id : Z) (f : Character -> Character) (os : OfficeState) : OfficeState :=
  match characters os !! id with
  | Some ch => with_characters os (<[id := f ch]> (characters os))
  | None => os
  end.

(** Modelled from the spec: the sitting sub-state that goes with the
    status, active while coding or reading and idle otherwise. *)
Definition sitting_state (active : bool) : CharacterState :=
  if active then ch_sitting_active else ch_sitting_idle.

(** Modelled from the spec: [addCharacter(id, variant, seatId?, isLocal)],
    which the hooks call as [os.addAgent(id, palette, hueShift, seatId,
    isLocal)].  It creates the character at the seat's chair cell if a seat is
    given, at the spawn cell otherwise, and does nothing if the id is
    present. *)
Definition addAgent (id palette hue : Z) (seat : option string) (isLocal : bool)
    (os : OfficeState) : OfficeState :=
  match characters os !! id with
  | Some _ => os
  | None =>
      let chair : option Cell := seat ≫= seatChairCell (tileMap os) in
      let at_cell := default (spawn os) chair in
      with_characters os
        (<[id := {| ch_id := id; palette := palette; hueShift := hue; seatId := seat;
                    isActive := false; currentTool := None; waitingBubble := false;
                    tileCol := at_cell.1; tileRow := at_cell.2; offset := (0, 0);
                    dir := dir_down; path := [];
                    state := match chair with Some _ => ch_sitting_idle | None => ch_idle end;
                    remoteControlled := negb isLocal |}]> (characters os))
  end.

(** Modelled from the spec: [removeCharacter(id)], called as
    [os.removeAgent(id)]; nothing happens if the id is absent. *)
Definition removeAgent (id : Z) (os : OfficeState) : OfficeState :=
  with_characters os (delete id (characters os)).

(** Modelled from the spec: [os.setRemoteControlled(id, flag)], the flag of a
    character whose movement only inbound events dictate. *)
Definition setRemoteControlled (id : Z) (flag : bool) (os : OfficeState) : OfficeState :=
  update_character id (set_remoteControlled flag) os.

(** Modelled from the spec: [setStatus(id, status)] as far as the activity
    goes, called as [os.setAgentActive(id, active)]: it updates the status and
    re-evaluates the sitting sub-state of a seated character. *)
Definition setAgentActive (id : Z) (active : bool) (os : OfficeState) : OfficeState :=
  update_character id
    (fun ch =>
       let ch' := set_isActive active ch in
       match state ch with
       | ch_sitting_idle | ch_sitting_active => set_state (sitting_state active) ch'
       | _ => ch'
       end) os.

(** Modelled from the spec: the tool half of [setStatus], called as
    [os.setAgentTool(id, tool)]. *)
Definition setAgentTool (id : Z) (tool : option string) (os : OfficeState) : OfficeState :=
  update_character id (set_currentTool tool) os.

(** Modelled from the spec: [os.showWaitingBubble(id)], the mark of an
    absent participant. *)
Definition showWaitingBubble (id : Z) (os : OfficeState) : OfficeState :=
  update_character id (set_waitingBubble true) os.

(** Modelled from the spec: assigning a path; a character with cells to
    traverse is walking. *)
Definition assign_path (p : list Cell) (ch : Character) : Character :=
  match p with
  | [] => set_path [] ch
  | _ :: _ => set_state ch_walking (set_path p ch)
  end.

(** Modelled from the spec: [teleportTo(id, col, row)], called as
    [os.teleportToTile(id, col, row)]: no pathing; it sets the tile
    coordinate and clears the queued path. *)
Definition teleportToTile (id col row : Z) (os : OfficeState) : OfficeState :=
  update_character id (fun ch => set_path [] (set_tile (col, row) ch)) os.

(** Modelled from the spec: [moveTo(id, col, row)], called as
    [os.walkToTile(id, col, row)]: the path the pathfinder finds from the
    current cell is assigned; an unreachable target changes nothing. *)
Definition walkToTile (id col row : Z) (os : OfficeState) : OfficeState :=
  update_character id
    (fun ch =>
       match findPath (tileMap os) (tile ch) (col, row) with
       | Some p => assign_path p ch
       | None => ch
       end) os.

(** Modelled from the spec: [setSeat(id, seatId)], called as
    [os.reassignSeat(id, seatId)]: the old binding is dropped, the new one
    assigned, and a path to the seat's chair cell is issued. *)
Definition reassignSeat (id : Z) (seat : string) (os : OfficeState) : OfficeState :=
  update_character id
    (fun ch =>
       let ch' := set_seatId (Some seat) (set_seatId None ch) in
       match seatChairCell (tileMap os) seat with
       | Some chair =>
           match findPath (tileMap os) (tile ch') chair with
           | Some p => assign_path p ch'
           | None => ch'
           end
       | None => ch'
       end) os.

(** ** The room synchroniser ([webview-ui/src/hooks/useWebSocket.ts]) *)

(** What each participant tracks in the channel's presence state.  The tile
    is absent in the payload of a client of the older revision. *)
Record PresencePayload := mkPresence {
  pr_id : Z;
  pr_name : string;
  pr_characterIndex : Z;
  pr_status : PlayerStatus;
  pr_seatId : option string;
  pr_tileCol : option Z;
  pr_tileRow : option Z
}.

Definition statusToTool (status : PlayerStatus) : option string :=
  match status with
  | coding => Some "Edit"%string
  | reading => Some "Read"%string
  | idle => None
  | afk => None
  end.

Definition statusToActive (status : PlayerStatus) : bool :=
  bool_decide (status = coding \/ status = reading).

(** What the hook puts on the channel. *)
Inductive Outbound :=
| out_move (playerId tileCol tileRow : Z)
| out_status (playerId : Z) (status : PlayerStatus)
| out_track (payload : PresencePayload).

(** The hook's state: its React state, its refs, and the office state the
    handlers mutate.  [channelRef] holds the room code of the channel. *)
Record Hook := mkHook {
  roomId : option string;
  myPlayerId : option Z;
  players : list PlayerInfo;
  connected : bool;
  channelRef : option string;
  myInfoRef : option PlayerInfo;
  lastBroadcastPos : Cell;
  lastBroadcastTime : Z;
  officeState : OfficeState
}.

(** The hook as mounted: [lastBroadcastPos] is [{col: -1, row: -1}]. *)
Definition mount (os : OfficeState) : Hook :=
  {| roomId := None; myPlayerId := None; players := []; connected := false;
     channelRef := None; myInfoRef := None;
     lastBroadcastPos := (-1, -1); lastBroadcastTime := 0; officeState := os |}.

Definition with_os (h : Hook) (os : OfficeState) : Hook :=
  mkHook (roomId h) (myPlayerId h) (players h) (connected h) (channelRef h) (myInfoRef h)
    (lastBroadcastPos h) (lastBroadcastTime h) os.

Definition with_players (h : Hook) (ps : list PlayerInfo) : Hook :=
  mkHook (roomId h) (myPlayerId h) ps (connected h) (channelRef h) (myInfoRef h)
    (lastBroadcastPos h) (lastBroadcastTime h) (officeState h).

Definition POSITION_BROADCAST_INTERVAL_MS : Z := 200.

(** One frame of the position broadcast loop, at [Date.now() = now]. *)
Definition tick (now : Z) (h : Hook) : Hook * list Outbound :=
  match channelRef h, myInfoRef h with
  | Some _, Some myInfo =>
      match characters (officeState h) !! p_id myInfo with
      | Some ch =>
          let posChanged :=
            bool_decide (tileCol ch <> (lastBroadcastPos h).1 \/ tileRow ch <> (lastBroadcastPos h).2) in
          if posChanged && (POSITION_BROADCAST_INTERVAL_MS <=? now - lastBroadcastTime h)
          then (mkHook (roomId h) (myPlayerId h) (players h) (connected h) (channelRef h)
                  (myInfoRef h) (tileCol ch, tileRow ch) now (officeState h),
                [out_move (p_id myInfo) (tileCol ch) (tileRow ch)])
          else (h, [])
      | None => (h, [])
      end
  | _, _ => (h, [])
  end.

(** The first presence of every key of [channel.presenceState()], in the
    order of [Object.values]. *)
Definition first_presences (presenceState : list (list PresencePayload)) : list PresencePayload :=
  omap head presenceState.

Definition to_info (p : PresencePayload) : PlayerInfo :=
  {| p_id := pr_id p; p_name := pr_name p; p_characterIndex := pr_characterIndex p;
     p_status := pr_status p; p_seatId := pr_seatId p |}.

(** The ids of a membership snapshot. *)
Definition snapshot_ids (presenceState : list (list PresencePayload)) : gset Z :=
  list_to_set (pr_id <$> first_presences presenceState).

(** The body of the loop "Add new characters" (revision with position sync). *)
Definition add_new (myInfo : PlayerInfo) (currentIds : gset Z) (os : OfficeState)
    (p : PresencePayload) : OfficeState :=
  if decide (pr_id p ∈ currentIds) then os
  else
    let isMe := bool_decide (pr_id p = p_id myInfo) in
    let os1 := addAgent (pr_id p) (pr_characterIndex p) 0 (pr_seatId p) isMe os in
    let os2 :=
      if isMe then os1
      else
        let os' := setRemoteControlled (pr_id p) true os1 in
        match pr_tileCol p, pr_tileRow p with
        | Some c, Some r => teleportToTile (pr_id p) c r os'
        | _, _ => os'
        end in
    if statusToActive (pr_status p)
    then setAgentTool (pr_id p) (statusToTool (pr_status p)) (setAgentActive (pr_id p) true os2)
    else os2.

(** The body of the same loop in the revision without position sync. *)
Definition add_new_old (myInfo : PlayerInfo) (currentIds : gset Z) (os : OfficeState)
    (p : PlayerInfo) : OfficeState :=
  if decide (p_id p ∈ currentIds) then os
  else
    let skipSpawn := bool_decide (p_id p = p_id myInfo) in
    let os1 := addAgent (p_id p) (p_characterIndex p) 0 (p_seatId p) skipSpawn os in
    if statusToActive (p_status p)
    then setAgentTool (p_id p) (statusToTool (p_status p)) (setAgentActive (p_id p) true os1)
    else os1.

(** The loop "Remove departed characters (but keep my own)". *)
Definition remove_departed (myInfo : PlayerInfo) (currentIds presenceIds : gset Z)
    (os : OfficeState) : OfficeState :=
  foldl (fun os' id =>
           if decide ((id ∉ presenceIds) ∧ (id ≠ p_id myInfo)) then removeAgent id os' else os')
        os (elements currentIds).

(** The presence [sync] handler of [subscribeToRoom(code, myInfo)]. *)
Definition onPresenceSync (myInfo : PlayerInfo) (presenceState : list (list PresencePayload))
    (h : Hook) : Hook :=
  let allPlayers := to_info <$> first_presences presenceState in
  let os := officeState h in
  let currentIds : gset Z := dom (characters os) in
  let presenceIds : gset Z := list_to_set (p_id <$> allPlayers) in
  let os1 := foldl (add_new myInfo currentIds) os (first_presences presenceState) in
  with_os (with_players h allPlayers) (remove_departed myInfo currentIds presenceIds os1).

(** The same handler in the revision without position sync, whose presence
    payload is the player record itself. *)
Definition onPresenceSync_old (myInfo : PlayerInfo) (presenceState : list (list PlayerInfo))
    (h : Hook) : Hook :=
  let allPlayers := omap head presenceState in
  let os := officeState h in
  let currentIds : gset Z := dom (characters os) in
  let presenceIds : gset Z := list_to_set (p_id <$> allPlayers) in
  let os1 := foldl (add_new_old myInfo currentIds) os allPlayers in
  with_os (with_players h allPlayers) (remove_departed myInfo currentIds presenceIds os1).

(** The broadcast [status] handler (the same in both Supabase revisions). *)
Definition onStatus (myInfo : PlayerInfo) (playerId : Z) (status : PlayerStatus) (h : Hook) : Hook :=
  if decide (playerId = p_id myInfo) then h
  else
    let os1 := setAgentActive playerId (statusToActive status) (officeState h) in
    let os2 := setAgentTool playerId (statusToTool status) os1 in
    with_os h (if decide (status = afk) then showWaitingBubble playerId os2 else os2).

(** The broadcast [move] handler. *)
Definition onMove (myInfo : PlayerInfo) (playerId tileCol' tileRow' : Z) (h : Hook) : Hook :=
  if decide (playerId = p_id myInfo) then h
  else
    match characters (officeState h) !! playerId with
    | None => h
    | Some ch =>
        let dist := Z.abs (tileCol ch - tileCol') + Z.abs (tileRow ch - tileRow') in
        if 10 <? dist then with_os h (teleportToTile playerId tileCol' tileRow' (officeState h))
        else if 0 <? dist then with_os h (walkToTile playerId tileCol' tileRow' (officeState h))
        else h
    end.

(** [subscribeToRoom(code, myInfo)]: the handlers above are registered on the
    channel [room:code], and the refs are set. *)
Definition subscribeToRoom (code : string) (myInfo : PlayerInfo) (h : Hook) : Hook :=
  mkHook (roomId h) (myPlayerId h) (players h) (connected h) (Some code) (Some myInfo)
    (lastBroadcastPos h) (lastBroadcastTime h) (officeState h).

(** The callback of [channel.subscribe] on status SUBSCRIBED. *)
Definition onSubscribed (code : string) (myInfo : PlayerInfo) (h : Hook) : Hook * list Outbound :=
  let os := addAgent (p_id myInfo) (p_characterIndex myInfo) 0 None true (officeState h) in
  let myCh := characters os !! p_id myInfo in
  let col := default 0 (tileCol <$> myCh) in
  let row := default 0 (tileRow <$> myCh) in
  (mkHook (Some code) (Some (p_id myInfo)) (players h) true (channelRef h) (myInfoRef h)
     (lastBroadcastPos h) (lastBroadcastTime h) os,
   [out_track (mkPresence (p_id myInfo) (p_name myInfo) (p_characterIndex myInfo)
                 (p_status myInfo) (p_seatId myInfo) (Some col) (Some row))]).

(** [createRoom(playerName, characterIndex)] of the Supabase revisions; [id]
    is the value [generatePlayerId()] returned.  The room is the channel
    [room:code]: nothing is asked of any registry of rooms. *)
Definition createRoom (rng : Rng) (n : nat) (id : Z) (playerName : string) (characterIndex : Z)
    (h : Hook) : Hook * nat :=
  let '(code, n') := generateRoomCode rng n in
  (subscribeToRoom code (mkPlayerInfo id playerName characterIndex idle None) h, n').

(** [joinRoom(targetRoomId, playerName, characterIndex)] of the same. *)
Definition joinRoom (id : Z) (targetRoomId playerName : string) (characterIndex : Z)
    (h : Hook) : Hook :=
  subscribeToRoom targetRoomId (mkPlayerInfo id playerName characterIndex idle None) h.

Definition set_status_of (id : Z) (status : PlayerStatus) (p : PlayerInfo) : PlayerInfo :=
  if decide (p_id p = id)
  then mkPlayerInfo (p_id p) (p_name p) (p_characterIndex p) status (p_seatId p)
  else p.

Definition set_seat_of (id : Z) (seat : string) (p : PlayerInfo) : PlayerInfo :=
  if decide (p_id p = id)
  then mkPlayerInfo (p_id p) (p_name p) (p_characterIndex p) (p_status p) (Some seat)
  else p.

(** [setStatus(status)] of the revision with position sync: the local
    change is applied at once, by the direct engine call. *)
Definition setStatus (status : PlayerStatus) (h : Hook) : Hook * list Outbound :=
  match channelRef h, myInfoRef h with
  | Some _, Some myInfo =>
      let os := officeState h in
      let myCh := characters os !! p_id myInfo in
      let col := default 0 (tileCol <$> myCh) in
      let row := default 0 (tileRow <$> myCh) in
      let os' := setAgentTool (p_id myInfo) (statusToTool status)
                   (setAgentActive (p_id myInfo) (statusToActive status) os) in
      (mkHook (roomId h) (myPlayerId h) (set_status_of (p_id myInfo) status <$> players h)
         (connected h) (channelRef h)
         (Some (mkPlayerInfo (p_id myInfo) (p_name myInfo) (p_characterIndex myInfo) status
                  (p_seatId myInfo)))
         (lastBroadcastPos h) (lastBroadcastTime h) os',
       [out_track (mkPresence (p_id myInfo) (p_name myInfo) (p_characterIndex myInfo)
                     status (p_seatId myInfo) (Some col) (Some row));
        out_status (p_id myInfo) status])
  | _, _ => (h, [])
  end.

(** The message handler of the relay revision
    ([wsClient.setOnMessage(...)]), one case per server message. *)
Definition onMessage (msg : ServerMessage) (h : Hook) : Hook :=
  let os := officeState h in
  match msg with
  | S2C_RoomJoined room playerId ps =>
      let os' :=
        foldl (fun os' p =>
                 match characters os' !! p_id p with
                 | Some _ => os'
                 | None =>
                     let os1 := addAgent (p_id p) (p_characterIndex p) 0 (p_seatId p) true os' in
                     if statusToActive (p_status p)
                     then setAgentTool (p_id p) (statusToTool (p_status p))
                            (setAgentActive (p_id p) true os1)
                     else os1
                 end) os ps in
      mkHook (Some room) (Some playerId) ps (connected h) (channelRef h) (myInfoRef h)
        (lastBroadcastPos h) (lastBroadcastTime h) os'
  | S2C_PlayerJoined player =>
      with_os (with_players h (players h ++ [player]))
        (addAgent (p_id player) (p_characterIndex player) 0 (p_seatId player) false os)
  | S2C_PlayerLeft playerId =>
      with_os (with_players h (filter (fun p => p_id p <> playerId) (players h)))
        (removeAgent playerId os)
  | S2C_PlayerStatusChanged playerId status =>
      let os1 := setAgentActive playerId (statusToActive status) os in
      let os2 := setAgentTool playerId (statusToTool status) os1 in
      with_os (with_players h (set_status_of playerId status <$> players h))
        (if decide (status = afk) then showWaitingBubble playerId os2 else os2)
  | S2C_PlayerSeatChanged playerId seat =>
      with_os (with_players h (set_seat_of playerId seat <$> players h))
        (reassignSeat playerId seat os)
  | S2C_Pong => h
  | S2C_Error _ => h
  end.

(** What can happen to the mounted hook of the revision with position sync:
    a frame of the broadcast loop, a callback of the channel, a call of the
    hook's own operations, or the engine moving its characters. *)
Inductive hook_event :=
| he_tick
| he_presence (myInfo : PlayerInfo) (presenceState : list (list PresencePayload))
| he_status (myInfo : PlayerInfo) (playerId : Z) (status : PlayerStatus)
| he_move (myInfo : PlayerInfo) (playerId tileCol' tileRow' : Z)
| he_subscribed (code : string) (myInfo : PlayerInfo)
| he_createRoom (rng : Rng) (n : nat) (id : Z) (playerName : string) (characterIndex : Z)
| he_joinRoom (id : Z) (targetRoomId playerName : string) (characterIndex : Z)
| he_setStatus (status : PlayerStatus)
| he_engine (f : OfficeState -> OfficeState).

(** One event, happening when the clock reads [now]: the state after it, and
    what it put on the channel. *)
Definition hook_step (now : Z) (e : hook_event) (h : Hook) : Hook * list Outbound :=
  match e with
  | he_tick => tick now h
  | he_presence myInfo ps => (onPresenceSync myInfo ps h, [])
  | he_status myInfo playerId status => (onStatus myInfo playerId status h, [])
  | he_move myInfo playerId c r => (onMove myInfo playerId c r h, [])
  | he_subscribed code myInfo => onSubscribed code myInfo h
  | he_createRoom rng n id playerName characterIndex =>
      ((createRoom rng n id playerName characterIndex h).1, [])
  | he_joinRoom id target playerName characterIndex =>
      (joinRoom id target playerName characterIndex h, [])
  | he_setStatus status => setStatus status h
  | he_engine f => (with_os h (f (officeState h)), [])
  end.

(** The position of a position broadcast; other messages carry none. *)
Definition broadcast_position (o : Outbound) : option Cell :=
  match o with
  | out_move _ c r => Some (c, r)
  | _ => None
  end.

(** The position broadcasts of a run of timed events, oldest first, each
    with the time at which it was sent. *)
Fixpoint position_broadcasts (es : list (Z * hook_event)) (h : Hook) : list (Z * Cell) :=
  match es with
  | [] => []
  | (now, e) :: es' =>
      let '(h', out) := hook_step now e h in
      ((fun c => (now, c)) <$> omap broadcast_position out) ++ position_broadcasts es' h'
  end.

(** Timed position broadcasts that follow a broadcast of [lastPos] at
    [lastTime] are throttled when each carries a position other than the one
    broadcast before it, and comes no sooner than the interval after it. *)
Fixpoint throttled (lastPos : Cell) (lastTime : Z) (l : list (Z * Cell)) : Prop :=
  match l with
  | [] => True
  | (t, p) :: l' =>
      p <> lastPos /\ POSITION_BROADCAST_INTERVAL_MS <= t - lastTime /\ throttled p t l'
  end.

(** What reconciliation against a membership snapshot has to achieve, for the
    local participant [me]: the tracked ids other than [me] are exactly
    those of the snapshot; what the snapshot brings is added, what it lacks
    is removed, and the character of [me] stays as it is. *)
Definition reconciles (me : Z) (snapshot : gset Z) (before after : gmap Z Character) : Prop :=
  dom after ∖ {[me]} = snapshot ∖ {[me]}
  /\ (forall id, id ∈ snapshot -> id ∉ dom before -> id ∈ dom after)
  /\ (forall id, id ∈ dom before -> id ∉ snapshot -> id <> me -> id ∉ dom after)
  /\ (forall ch, before !! me = Some ch -> after !! me = Some ch).

(** What a status event does to the office state, in both hooks. *)
Definition apply_status (playerId : Z) (status : PlayerStatus) (os : OfficeState) : OfficeState :=
  let os2 := setAgentTool playerId (statusToTool status)
               (setAgentActive playerId (statusToActive status) os) in
  if decide (status = afk) then showWaitingBubble playerId os2 else os2.

(** The predecessor map leads from [k] back to the start in [n] steps. *)
Inductive chain (pred : gmap Cell Cell) (start : Cell) : Cell -> nat -> Prop :=
| chain_start : chain pred start start 0
| chain_step (k p : Cell) (n : nat) :
    k <> start -> pred !! k = Some p -> chain pred start p n -> chain pred start k (S n).

(** The cells of the grid, column by column. *)
Definition grid_cells (tm : TileMap) : list Cell :=
  (fun cr => (Z.of_nat cr.1, Z.of_nat cr.2))
    <$> list_prod (seq 0 (Z.to_nat (tm_cols tm))) (seq 0 (Z.to_nat (tm_rows tm))).

(** What the search loop maintains, for a search from [start] to [goal]:
    the queue holds cells already seen; a cell that was seen and has left the
    queue is not the goal and has all its neighbours seen; every cell seen is
    linked to the start through the predecessor map, whose keys are all seen;
    and the fuel left covers the queue and the cells not seen yet. *)
Record search_inv (tm : TileMap) (start goal : Cell) (fuel : nat)
    (queue : list Cell) (seen : gset Cell) (pred : gmap Cell Cell) : Prop := {
  inv_start : start ∈ seen;
  inv_queue : forall x, x ∈ queue -> x ∈ seen;
  inv_closed : forall x, x ∈ seen -> x ∉ queue ->
                 x <> goal /\ forall y, y ∈ neighbors tm x -> y ∈ seen;
  inv_chain : forall x, x ∈ seen -> exists n, (n <= size pred)%nat /\ chain pred start x n;
  inv_pred : dom pred ⊆ seen;
  inv_grid : seen ⊆ {[start]} ∪ list_to_set (grid_cells tm);
  inv_fuel : (length queue + size (({[start]} ∪ list_to_set (grid_cells tm)) ∖ seen) <= fuel)%nat
}.

(** Every entry of the predecessor map is a step of the grid. *)
Definition pred_sound (tm : TileMap) (pred : gmap Cell Cell) : Prop :=
  forall k p, pred !! k = Some p -> k ∈ neighbors tm p.

(** A corridor of three cells with a wall in the middle: two regions that
    are not connected. *)
Definition walled_corridor : TileMap :=
  {| tm_cols := 3; tm_rows := 1;
     tm_cells := [[tile_floor; tile_wall; tile_floor]]; tm_seats := ∅ |}.

(** A hook in a room of two: the local participant 1 and the participant 2,
    both at the left end of the walled corridor. *)
Definition two_in_corridor : Hook :=
  mount (addAgent 2 1 0 None false
           (addAgent 1 0 0 None true (mkOfficeState walled_corridor ∅ (0, 0)))).

(** The rooms that are live on the channel service: those some client is
    subscribed to. *)
Definition live_channels (clients : list Hook) : gset string :=
  list_to_set (omap channelRef clients).

(** The office of the specification's seat scenario: a 6 x 6 floor with the
    desk of seat "desk-1" at (3,3) and its chair at (3,4), and one character,
    1, at the spawn cell (0,0). *)
Definition office_with_desk : OfficeState :=
  addAgent 1 0 0 None true
    {| tileMap := {| tm_cols := 6; tm_rows := 6;
                     tm_cells := <[3%nat := <[3%nat := tile_seat_anchor]> (replicate 6 tile_floor)]>
                                   (replicate 6 (replicate 6 tile_floor));
                     tm_seats := {[ "desk-1"%string := mkSeat (3, 3) (3, 4) ]} |};
       characters := ∅;
       spawn := (0, 0) |}.

(** ** The relay server, continued: leaving, cleanup and the connection events *)

(** [Map.delete] on the players of a room. *)
Definition map_delete {V : Type} (k : WebSocket) (m : list (WebSocket * V)) : list (WebSocket * V) :=
  filter (fun e => e.1 <> k) m.

(** [Room.removePlayer] *)
Definition removePlayer (r : Room) (sock : WebSocket) : Room * option PlayerInfo :=
  match map_get sock (room_players r) with
  | None => (r, None)
  | Some player =>
      ({| room_id := room_id r;
          room_players := map_delete sock (room_players r);
          nextPlayerId := nextPlayerId r;
          cleanupTimer := cleanupTimer r |}, Some (pl_info player))
  end.

(** [Room.isEmpty] *)
Definition isEmpty (r : Room) : bool :=
  match room_players r with
  | [] => true
  | _ :: _ => false
  end.

(** [RoomManager.roomCount] *)
Definition roomCount (m : RoomManager) : nat := size (rooms m).

(** The server process: the room manager and the runtime's table of pending
    timeouts.  Every pending timeout is a cleanup scheduled by
    [Room.scheduleCleanup], kept with the room it was scheduled for;
    [next_timer] is the handle the next [setTimeout] returns. *)
Record Server := mkServer {
  manager : RoomManager;
  timers : gmap nat nat;
  next_timer : nat
}.

(** [new RoomManager()] in a fresh process. *)
Definition server_init : Server :=
  {| manager := mkRoomManager ∅ ∅ ∅; timers := ∅; next_timer := 0 |}.

(** The timeout that [Room.addPlayer] clears in the course of a message: that
    of the room a join request names. *)
Definition cleared_timer (m : RoomManager) (msg : ClientMessage) : option nat :=
  match msg with
  | C2S_JoinRoom room _ _ =>
      rooms m !! room ≫= fun ref => store m !! ref ≫= cleanupTimer
  | _ => None
  end.

(** [rooms.handleMessage(ws, msg)] in the process: the room manager's step,
    and [clearTimeout] on the timeout that [addPlayer] clears. *)
Definition server_message (fuel : nat) (rs : WebSocket -> Z) (rng : Rng) (n : nat)
    (s : Server) (sock : WebSocket) (msg : ClientMessage) : option (Server * nat * list Frame) :=
  match handleMessage fuel rs rng n (manager s) sock msg with
  | None => None
  | Some (m', n', out) =>
      Some ({| manager := m';
               timers := match cleared_timer (manager s) msg with
                         | Some t => delete t (timers s)
                         | None => timers s
                         end;
               next_timer := next_timer s |}, n', out)
  end.

(** [RoomManager.handleDisconnect], with [Room.scheduleCleanup] for a room
    that is left empty. *)
Definition handleDisconnect (rs : WebSocket -> Z) (s : Server) (sock : WebSocket)
  : Server * list Frame :=
  let m := manager s in
  match wsToRoom m !! sock with
  | None => (s, [])
  | Some ref =>
      match store m !! ref with
      | None => (s, [])
      | Some room =>
          let '(room1, player) := removePlayer room sock in
          let out := match player with
                     | Some info => broadcast rs room1 (S2C_PlayerLeft (p_id info)) None
                     | None => []
                     end in
          if isEmpty room1
          then ({| manager :=
                     {| store := <[ref := mkRoom (room_id room1) (room_players room1)
                                            (nextPlayerId room1) (Some (next_timer s))]> (store m);
                        rooms := rooms m;
                        wsToRoom := delete sock (wsToRoom m) |};
                   timers := <[next_timer s := ref]> (timers s);
                   next_timer := S (next_timer s) |}, out)
          else ({| manager := {| store := <[ref := room1]> (store m);
                                 rooms := rooms m;
                                 wsToRoom := delete sock (wsToRoom m) |};
                   timers := timers s;
                   next_timer := next_timer s |}, out)
      end
  end.

(** The callback of [scheduleCleanup], run when timeout [t] expires: a
    timeout that was cleared is not pending and does nothing; otherwise the
    room is taken out of [rooms], under its identifier, if it is empty. *)
Definition onCleanupTimer (t : nat) (s : Server) : Server :=
  match timers s !! t with
  | None => s
  | Some ref =>
      let m := manager s in
      {| manager :=
           match store m !! ref with
           | Some room =>
               if isEmpty room
               then {| store := store m; rooms := delete (room_id room) (rooms m);
                       wsToRoom := wsToRoom m |}
               else m
           | None => m
           end;
         timers := delete t (timers s);
         next_timer := next_timer s |}
  end.

(** The states of the server ([server/src/index.ts]): from the fresh process,
    by a message of a connection, the close of a connection, or the expiry
    of a timeout. *)
Inductive server_reachable : Server -> Prop :=
| sr_init : server_reachable server_init
| sr_message s fuel rs rng n sock msg s' n' out :
    server_reachable s ->
    server_message fuel rs rng n s sock msg = Some (s', n', out) ->
    server_reachable s'
| sr_close s rs sock :
    server_reachable s -> server_reachable (handleDisconnect rs s sock).1
| sr_timer s t :
    server_reachable s -> server_reachable (onCleanupTimer t s).

(** A room as the server keeps it: every player is filed under its own
    socket, no socket twice; the player ids are below [nextPlayerId], at
    least 1, and no two players share one. *)
Record room_ok (r : Room) : Prop := {
  ok_keys : NoDup (fst <$> room_players r);
  ok_sockets : forall e, e ∈ room_players r -> pl_ws e.2 = e.1;
  ok_ids : NoDup ((fun e => p_id (pl_info e.2)) <$> room_players r);
  ok_range : forall e, e ∈ room_players r -> 1 <= p_id (pl_info e.2) < nextPlayerId r;
  ok_next : 1 <= nextPlayerId r
}.

(** The server as it keeps itself: identifiers and sockets lead to rooms
    of the store; a room is registered under its own identifier; the room of
    a socket has that socket among its players and is registered; rooms are
    as above; a pending timeout belongs to a registered room that is empty
    and remembers it. *)
Record server_ok (s : Server) : Prop := {
  ok_rooms : forall id ref, rooms (manager s) !! id = Some ref ->
               exists room, store (manager s) !! ref = Some room /\ room_id room = id;
  ok_wsToRoom : forall sock ref, wsToRoom (manager s) !! sock = Some ref ->
                  exists room, store (manager s) !! ref = Some room
                               /\ is_Some (map_get sock (room_players room))
                               /\ rooms (manager s) !! room_id room = Some ref;
  ok_store : forall ref room, store (manager s) !! ref = Some room -> room_ok room;
  ok_timers : forall t ref, timers s !! t = Some ref ->
                (t < next_timer s)%nat
                /\ exists room, store (manager s) !! ref = Some room
                                /\ room_players room = []
                                /\ cleanupTimer room = Some t
                                /\ rooms (manager s) !! room_id room = Some ref
}.

(** The frames a broadcast of [msg] to the players of a room comes to: one
    for every player with an open socket other than [exclude], in the order
    in which the players joined. *)
Definition frames_to_open (rs : WebSocket -> Z) (players : list (WebSocket * Player))
    (exclude : option WebSocket) (msg : ServerMessage) : list Frame :=
  (fun e => (e.1, msg)) <$> filter (fun e => Some e.1 <> exclude /\ rs e.1 = 1) players.

(** One step of the server process. *)
Definition server_next (s s' : Server) : Prop :=
  (exists fuel rs rng n sock msg n' out,
      server_message fuel rs rng n s sock msg = Some (s', n', out))
  \/ (exists rs sock, s' = (handleDisconnect rs s sock).1)
  \/ (exists t, s' = onCleanupTimer t s).

(** A run of the server used to try the statements below: every socket is
    open and the generator draws zeros, so the first room is "AAAAAA". *)
Definition all_open : WebSocket -> Z := fun _ => 1.

Definition zeros : Rng := fun _ => mkRandom 0 1.

(** The state after a message, or the state before if the message does not
    return. *)
Definition after_message (s : Server) (sock : WebSocket) (msg : ClientMessage) : Server :=
  match server_message 1 all_open zeros 0 s sock msg with
  | Some (s', _, _) => s'
  | None => s
  end.

(** Socket 1 has created a room. *)
Definition server_one : Server :=
  after_message server_init 1%nat (C2S_CreateRoom "ann"%string 0).

(** Socket 2 has joined it. *)
Definition server_two : Server :=
  after_message server_one 2%nat (C2S_JoinRoom "AAAAAA"%string "bob"%string 7).

(** Both have left: the room is empty and its cleanup is pending. *)
Definition server_left : Server :=
  (handleDisconnect all_open (handleDisconnect all_open server_two 1%nat).1 2%nat).1.

(** ** A connected client and the server *)

(** The messages among the frames [out] that go to socket [c], in order. *)
Definition delivered (c : WebSocket) (out : list Frame) : list ServerMessage :=
  snd <$> filter (fun f => f.1 = c) out.

(** The relay hook after its message handler has run on each of [msgs]. *)
Definition receive (msgs : list ServerMessage) (h : Hook) : Hook :=
  foldl (fun h' msg => onMessage msg h') h msgs.

(** [setStatus(status)] of the relay revision: the request is handed to
    [wsClient.send], and the local copy is updated at once when the player
    has an id. *)
Definition setStatus_relay (status : PlayerStatus) (h : Hook) : Hook * list ClientMessage :=
  (match myPlayerId h with
   | Some id =>
       with_os (with_players h (set_status_of id status <$> players h))
         (setAgentTool id (statusToTool status)
            (setAgentActive id (statusToActive status) (officeState h)))
   | None => h
   end,
   [C2S_SetStatus status]).

(** Socket [c] is a player of no room but the one at [ref]. *)
Definition sole_room (m : RoomManager) (c : WebSocket) (ref : nat) : Prop :=
  forall ref' room', store m !! ref' = Some room' -> is_Some (getPlayer room' c) -> ref' = ref.

(** The hook of socket [c] is in step with the server: the server has [c]
    in the room at [ref] and in no other, the hook knows the id of its
    player there, and its players are the room's, in the room's order. *)
Definition in_step (m : RoomManager) (c : WebSocket) (ref : nat) (h : Hook) : Prop :=
  wsToRoom m !! c = Some ref
  /\ sole_room m c ref
  /\ exists room player,
       store m !! ref = Some room
       /\ getPlayer room c = Some player
       /\ myPlayerId h = Some (p_id (pl_info player))
       /\ players h = getPlayerInfos room.

(** A join request for the room at [ref] by a socket that is a player of it
    already. *)
Definition rejoins (m : RoomManager) (d : WebSocket) (ref : nat) (msg : ClientMessage) : Prop :=
  match msg with
  | C2S_JoinRoom room _ _ =>
      rooms m !! room = Some ref
      /\ exists r, store m !! ref = Some r /\ is_Some (getPlayer r d)
  | _ => False
  end.

(** A request that takes its sender into a room: to create one, or to join
    one that is live. *)
Definition enters (m : RoomManager) (msg : ClientMessage) : Prop :=
  match msg with
  | C2S_CreateRoom _ _ => True
  | C2S_JoinRoom room _ _ => room ∈ live_rooms m
  | _ => False
  end.

(** Socket [c] is a player of no room. *)
Definition in_no_room (m : RoomManager) (c : WebSocket) : Prop :=
  forall ref room, store m !! ref = Some room -> getPlayer room c = None.

(** The frames the server sends in the course of a message of the run. *)
Definition frames_of (s : Server) (sock : WebSocket) (msg : ClientMessage) : list Frame :=
  match server_message 1 all_open zeros 0 s sock msg with
  | Some (_, _, out) => out
  | None => []
  end.

(** The hook of socket 1 after the reply to its request to create a room. *)
Definition hook_one : Hook :=
  receive (delivered 1%nat (frames_of server_init 1%nat (C2S_CreateRoom "ann"%string 0)))
    two_in_corridor.

(** The hook of socket 2 after the reply to its request to join. *)
Definition hook_two : Hook :=
  receive (delivered 2%nat
             (frames_of server_one 2%nat (C2S_JoinRoom "AAAAAA"%string "bob"%string 7)))
    two_in_corridor.

(** The server messages that answer a request, and those that tell the other
    players of a room of a change. *)
Definition is_reply (msg : ServerMessage) : Prop :=
  match msg with
  | S2C_RoomJoined _ _ _ | S2C_Error _ | S2C_Pong => True
  | _ => False
  end.

Definition is_notice (msg : ServerMessage) : Prop :=
  match msg with
  | S2C_PlayerJoined _ | S2C_PlayerLeft _
  | S2C_PlayerStatusChanged _ _ | S2C_PlayerSeatChanged _ _ => True
  | _ => False
  end.

(** Socket [sock] is a player of the room at [ref]. *)
Definition plays_in (m : RoomManager) (sock : WebSocket) (ref : nat) : Prop :=
  exists room, store m !! ref = Some room /\ is_Some (getPlayer room sock).

(** Whether a request is one to create a room. *)
Definition is_create (msg : ClientMessage) : bool :=
  match msg with
  | C2S_CreateRoom _ _ => true
  | _ => false
  end.

(** ** The extension's timers ([src/timerManager.ts]) *)

(** A JavaScript string of transcript text, as its UTF-16 code units. *)
Definition Text := list N.

(** [AgentState] ([src/types.ts]), without the terminal handle.  A
    [Set<string>] is kept as the list of its members in insertion order. *)
Record AgentState := mkAgentState {
  agent_id : Z;
  projectDir : string;
  jsonlFile : string;
  fileOffset : nat;
  lineBuffer : Text;
  activeToolIds : list string;
  activeToolStatuses : gmap string string;
  activeToolNames : gmap string string;
  activeSubagentToolIds : gmap string (list string);
  isWaiting : bool;
  permissionSent : bool
}.

(** The messages these modules post to the webview. *)
Inductive WebviewMessage :=
| agentToolsClear (id : Z)
| agentStatus (id : Z) (status : string)
| agentToolPermission (id : Z)
| agentToolPermissionClear (id : Z).

(** The closures handed to [setTimeout]: that of [startWaitingTimer] and that
    of [startPermissionTimer], with the variables they capture. *)
Inductive Callback :=
| waiting_expired (agentId : Z)
| permission_expired (agentId : Z) (permissionExemptTools : gset string).

(** The extension host as these modules see it: the three maps they are
    handed, the runtime's table of pending timeouts (handle to delay and
    closure; [next_timeout] is the handle the next [setTimeout] returns; a
    handle is an object, so it is truthy), and the webview, which is absent
    or has the log of the messages posted to it. *)
Record Ext := mkExt {
  agents : gmap Z AgentState;
  waitingTimers : gmap Z nat;
  permissionTimers : gmap Z nat;
  timeouts : gmap nat (Z * Callback);
  next_timeout : nat;
  webview : option (list WebviewMessage)
}.

(** [webview?.postMessage(msg)] *)
Definition postMessage (msg : WebviewMessage) (w : Ext) : Ext :=
  mkExt (agents w) (waitingTimers w) (permissionTimers w) (timeouts w) (next_timeout w)
    ((fun log => log ++ [msg]) <$> webview w).

(** A write through the agent object that [agents] holds under [agentId]. *)
Definition alter_agent (f : AgentState -> AgentState) (agentId : Z) (w : Ext) : Ext :=
  mkExt (alter f agentId (agents w)) (waitingTimers w) (permissionTimers w) (timeouts w)
    (next_timeout w) (webview w).

Definition cancelWaitingTimer (agentId : Z) (w : Ext) : Ext :=
  match waitingTimers w !! agentId with
  | Some timer =>
      mkExt (agents w) (delete agentId (waitingTimers w)) (permissionTimers w)
        (delete timer (timeouts w)) (next_timeout w) (webview w)
  | None => w
  end.

Definition startWaitingTimer (agentId : Z) (delayMs : Z) (w : Ext) : Ext :=
  let w1 := cancelWaitingTimer agentId w in
  let timer := next_timeout w1 in
  mkExt (agents w1) (<[agentId := timer]> (waitingTimers w1)) (permissionTimers w1)
    (<[timer := (delayMs, waiting_expired agentId)]> (timeouts w1)) (S timer) (webview w1).

Definition cancelPermissionTimer (agentId : Z) (w : Ext) : Ext :=
  match permissionTimers w !! agentId with
  | Some timer =>
      mkExt (agents w) (waitingTimers w) (delete agentId (permissionTimers w))
        (delete timer (timeouts w)) (next_timeout w) (webview w)
  | None => w
  end.

Definition startPermissionTimer (agentId : Z) (permissionExemptTools : gset string) (w : Ext)
  : Ext :=
  let w1 := cancelPermissionTimer agentId w in
  let timer := next_timeout w1 in
  mkExt (agents w1) (waitingTimers w1) (<[agentId := timer]> (permissionTimers w1))
    (<[timer := (5000, permission_expired agentId permissionExemptTools)]> (timeouts w1))
    (S timer) (webview w1).

(** [clearAgentActivity(agent, agentId, ...)]; the agent object is named by
    the key under which [agents] holds it, [None] being [undefined]. *)
Definition clearAgentActivity (agent : option Z) (agentId : Z) (w : Ext) : Ext :=
  match agent with
  | None => w
  | Some key =>
      let w1 := alter_agent
                  (fun a => mkAgentState (agent_id a) (projectDir a) (jsonlFile a) (fileOffset a)
                              (lineBuffer a) [] ∅ ∅ ∅ false false) key w in
      postMessage (agentStatus agentId "active")
        (postMessage (agentToolsClear agentId) (cancelPermissionTimer agentId w1))
  end.

(** The loop of the permission closure: some active tool whose name, or the
    empty string for a tool without one, is not exempt. *)
Definition hasNonExempt (permissionExemptTools : gset string) (agent : AgentState) : bool :=
  existsb (fun toolId =>
             negb (bool_decide (default ""%string (activeToolNames agent !! toolId)
                                ∈ permissionExemptTools)))
          (activeToolIds agent).

(** The runtime runs the closure of timeout [timer], if it is pending. *)
Definition fire (timer : nat) (w : Ext) : Ext :=
  match timeouts w !! timer with
  | None => w
  | Some (_, waiting_expired agentId) =>
      let w1 := mkExt (agents w) (delete agentId (waitingTimers w)) (permissionTimers w)
                  (delete timer (timeouts w)) (next_timeout w) (webview w) in
      postMessage (agentStatus agentId "waiting")
        (alter_agent
           (fun a => mkAgentState (agent_id a) (projectDir a) (jsonlFile a) (fileOffset a)
                       (lineBuffer a) (activeToolIds a) (activeToolStatuses a)
                       (activeToolNames a) (activeSubagentToolIds a) true (permissionSent a))
           agentId w1)
  | Some (_, permission_expired agentId permissionExemptTools) =>
      let w1 := mkExt (agents w) (waitingTimers w) (delete agentId (permissionTimers w))
                  (delete timer (timeouts w)) (next_timeout w) (webview w) in
      match agents w1 !! agentId with
      | None => w1
      | Some agent =>
          if hasNonExempt permissionExemptTools agent
          then postMessage (agentToolPermission agentId)
                 (alter_agent
                    (fun a => mkAgentState (agent_id a) (projectDir a) (jsonlFile a)
                                (fileOffset a) (lineBuffer a) (activeToolIds a)
                                (activeToolStatuses a) (activeToolNames a)
                                (activeSubagentToolIds a) (isWaiting a) true)
                    agentId w1)
          else w1
      end
  end.

(** ** The transcript reader ([src/fileWatcher.ts]) *)

(** The line feed, ['\n']. *)
Definition LF : N := 10.

(** [text.split('\n')]: the pieces between line feeds; never empty. *)
Fixpoint split_lines (text : Text) : list Text :=
  match text with
  | [] => [[]]
  | c :: rest =>
      if decide (c = LF) then [] :: split_lines rest
      else match split_lines rest with
           | piece :: pieces => (c :: piece) :: pieces
           | [] => [[c]]
           end
  end.

(** The code units that [String.prototype.trim] strips: white space and
    line terminators. *)
Definition is_white_space (c : N) : bool :=
  bool_decide (c ∈ [9; 10; 11; 12; 13; 32; 160; 5760; 8232; 8233; 8239; 8287; 12288; 65279]%N)
  || ((8192 <=? c) && (c <=? 8202))%N.

(** [l.trim()] as a condition: the trimmed line is not empty. *)
Definition trim_truthy (l : Text) : bool := negb (forallb is_white_space l).

(** [readNewLines].  [fs] gives the bytes of the file at a path, or nothing
    when [statSync] or the read throws, which the function catches;
    [toString] is [Buffer.toString('utf-8')]; [processTranscriptLine] is the
    parser's entry point.  The result carries the lines that were handed to
    [processTranscriptLine], in the order of the calls. *)
Definition readNewLines (fs : string -> option (list Byte.byte))
    (toString : list Byte.byte -> Text)
    (processTranscriptLine : Z -> Text -> Ext -> Ext)
    (agentId : Z) (w : Ext) : Ext * list Text :=
  match agents w !! agentId with
  | None => (w, [])
  | Some agent =>
      match fs (jsonlFile agent) with
      | None => (w, [])
      | Some file =>
          let size := length file in
          if decide (size <= fileOffset agent)%nat then (w, [])
          else
            let buf := drop (fileOffset agent) file in
            let text := lineBuffer agent ++ toString buf in
            let pieces := split_lines text in
            let lines := List.removelast pieces in
            let w1 := alter_agent
                        (fun a => mkAgentState (agent_id a) (projectDir a) (jsonlFile a) size
                                    (default [] (last pieces)) (activeToolIds a) (activeToolStatuses a)
                                    (activeToolNames a) (activeSubagentToolIds a) (isWaiting a)
                                    (permissionSent a)) agentId w in
            let w2 :=
              if existsb trim_truthy lines
              then let w' := cancelPermissionTimer agentId w1 in
                   if permissionSent agent
                   then postMessage (agentToolPermissionClear agentId)
                          (alter_agent
                             (fun a => mkAgentState (agent_id a) (projectDir a) (jsonlFile a)
                                         (fileOffset a) (lineBuffer a) (activeToolIds a)
                                         (activeToolStatuses a) (activeToolNames a)
                                         (activeSubagentToolIds a) (isWaiting a) false)
                             agentId w')
                   else w'
              else w1 in
            (foldl (fun w' line =>
                      if trim_truthy line then processTranscriptLine agentId line w' else w')
                   w2 lines,
             filter (fun line => trim_truthy line = true) lines)
      end
  end.

(** What the reader keeps of an agent between reads: the path of its
    transcript, the offset read up to, and the unfinished last line. *)
Definition reader_of (w : Ext) (agentId : Z) : option (string * nat * Text) :=
  (fun a => (jsonlFile a, fileOffset a, lineBuffer a)) <$> agents w !! agentId.

(** The lines of [text] that are complete and not blank. *)
Definition complete_lines (text : Text) : list Text :=
  filter (fun line => trim_truthy line = true) (List.removelast (split_lines text)).

(** The reader of agent [agentId] has read all of [file], the content of the
    transcript at [path]. *)
Definition reader_at (toString : list Byte.byte -> Text) (w : Ext) (agentId : Z)
    (path : string) (file : list Byte.byte) : Prop :=
  reader_of w agentId
  = Some (path, length file, default [] (last (split_lines (toString file)))).

(** The states of the timers: from a host with no timeout pending, by the
    functions of [timerManager], the expiry of a timeout, a message to the
    webview, and whatever other modules do to the agents and the webview. *)
Inductive ext_reachable : Ext -> Prop :=
| er_init ags view : ext_reachable (mkExt ags ∅ ∅ ∅ 0 view)
| er_agents w ags view :
    ext_reachable w ->
    ext_reachable (mkExt ags (waitingTimers w) (permissionTimers w) (timeouts w)
                     (next_timeout w) view)
| er_startWaiting w agentId delayMs :
    ext_reachable w -> ext_reachable (startWaitingTimer agentId delayMs w)
| er_cancelWaiting w agentId :
    ext_reachable w -> ext_reachable (cancelWaitingTimer agentId w)
| er_startPermission w agentId exempt :
    ext_reachable w -> ext_reachable (startPermissionTimer agentId exempt w)
| er_cancelPermission w agentId :
    ext_reachable w -> ext_reachable (cancelPermissionTimer agentId w)
| er_clear w agent agentId :
    ext_reachable w -> ext_reachable (clearAgentActivity agent agentId w)
| er_fire w timer :
    ext_reachable w -> ext_reachable (fire timer w).

(** The timers are accounted for: the handle a map holds for an agent is a
    pending timeout with that agent's closure, and every pending timeout is
    the one its map holds for its agent; handles are below [next_timeout]. *)
Record ext_ok (w : Ext) : Prop := {
  ok_waiting : forall agentId timer,
      waitingTimers w !! agentId = Some timer ->
      exists delayMs, timeouts w !! timer = Some (delayMs, waiting_expired agentId);
  ok_permission : forall agentId timer,
      permissionTimers w !! agentId = Some timer ->
      exists exempt, timeouts w !! timer = Some (5000, permission_expired agentId exempt);
  ok_pending_waiting : forall timer delayMs agentId,
      timeouts w !! timer = Some (delayMs, waiting_expired agentId) ->
      waitingTimers w !! agentId = Some timer;
  ok_pending_permission : forall timer delayMs agentId exempt,
      timeouts w !! timer = Some (delayMs, permission_expired agentId exempt) ->
      permissionTimers w !! agentId = Some timer /\ delayMs = 5000;
  ok_handles : forall timer, is_Some (timeouts w !! timer) -> (timer < next_timeout w)%nat
}.

(** The messages posted to the webview between [w] and [w']. *)
Definition new_messages (w w' : Ext) : list WebviewMessage :=
  match webview w, webview w' with
  | Some log, Some log' => drop (length log) log'
  | _, _ => []
  end.

(** An extension host used to try the statements below: agent 1 with the
    transcript "t.jsonl", nothing read yet, and one active tool, "t1", a
    Bash call. *)
Definition agent_demo : AgentState :=
  mkAgentState 1 "proj" "t.jsonl" 0 [] ["t1"%string] ∅ {[ "t1"%string := "Bash"%string ]} ∅
    false false.

Definition ext_demo : Ext := mkExt {[ 1 := agent_demo ]} ∅ ∅ ∅ 0 (Some []).

(** A file system with the one transcript. *)
Definition fs_demo (content : list Byte.byte) : string -> option (list Byte.byte) :=
  fun path => if decide (path = "t.jsonl"%string) then Some content else None.

(** The decoding of bytes that are all below 128. *)
Definition ascii_text (bytes : list Byte.byte) : Text :=
  (fun b => N.of_nat (Byte.to_nat b)) <$> bytes.

(** A parser that tells the webview that the agent is active. *)
Definition note_line (agentId : Z) (line : Text) (w : Ext) : Ext :=
  postMessage (agentStatus agentId "active") w.

(** The transcript's first four bytes, "ab\nc", and the next two, "d\n". *)
Definition bytes_first : list Byte.byte := [Byte.x61; Byte.x62; Byte.x0a; Byte.x63].
Definition bytes_more : list Byte.byte := [Byte.x64; Byte.x0a].

(** The host after a first read, of the first four bytes. *)
Definition ext_read_once : Ext :=
  (readNewLines (fs_demo bytes_first) ascii_text note_line 1 ext_demo).1.

(** ** The asset loader ([webview-ui/src/network/assetLoader.ts]) *)

Definition PNG_ALPHA_THRESHOLD : Z := 128.
Definition WALL_PIECE_WIDTH : Z := 16.
Definition WALL_PIECE_HEIGHT : Z := 32.
Definition WALL_GRID_COLS : Z := 4.
Definition WALL_BITMASK_COUNT : nat := 16.

(** A pixel as the canvas gives it: red, green, blue, alpha. *)
Definition RGBA := (Z * Z * Z * Z)%type.

(** A decoded image: the pixel at (x, y).  Outside the image the canvas
    draws transparent black. *)
Definition Image := Z -> Z -> RGBA.

(** The rectangle of an image: its pixels from (x, y), row by row. *)
Definition rectangle (img : Image) (x y : Z) (width height : nat) : list (list RGBA) :=
  (fun row => (fun col => img (x + Z.of_nat col) (y + Z.of_nat row)) <$> seq 0 width)
  <$> seq 0 height.

(** [ctx.drawImage(img, x, y, width, height, 0, 0, width, height)] followed
    by [ctx.getImageData(0, 0, width, height).data]: the pixels of the
    rectangle row by row, four entries to a pixel. *)
Definition getImageData (img : Image) (x y : Z) (width height : nat) : list Z :=
  mjoin ((fun '(r, g, b, a) => [r; g; b; a]) <$> mjoin (rectangle img x y width height)).

(** [n.toString(16)] for an integer [n >= 0]: its digits in base 16, lower
    case, without leading zeros. *)
Definition hex_digit (d : Z) : ascii :=
  nth (Z.to_nat d) (list_ascii_of_string "0123456789abcdef") "0"%char.

Fixpoint toString16_loop (fuel : nat) (n : Z) (acc : string) : string :=
  match fuel with
  | O => acc
  | S fuel' =>
      let acc' := String (hex_digit (n mod 16)) acc in
      if n / 16 =? 0 then acc' else toString16_loop fuel' (n / 16) acc'
  end.

Definition toString16 (n : Z) : string :=
  toString16_loop (S (Z.to_nat (Z.log2 n))) n "".

(** [s.padStart(targetLength, pad)] for a one-character [pad]. *)
Definition padStart (targetLength : nat) (pad : ascii) (s : string) : string :=
  string_of_list_ascii (replicate (targetLength - String.length s) pad) +:+ s.

(** [s.toUpperCase()] for a text of ASCII characters: the letters a to z go
    to A to Z, every other character stays. *)
Definition upper_char (c : ascii) : ascii :=
  let n := nat_of_ascii c in
  if ((97 <=? n) && (n <=? 122))%nat then ascii_of_nat (n - 32) else c.

Definition toUpperCase (s : string) : string :=
  string_of_list_ascii (upper_char <$> list_ascii_of_string s).

(** The template literal of the opaque branch. *)
Definition colour (r g b : Z) : string :=
  toUpperCase ("#" +:+ padStart 2 "0" (toString16 r) +:+ padStart 2 "0" (toString16 g)
               +:+ padStart 2 "0" (toString16 b)).

(** The body of the inner loop for the pixel at index [i] of [data].  An
    entry out of range is [undefined]: as alpha it fails the test
    [a < PNG_ALPHA_THRESHOLD], as a colour its [toString] throws. *)
Definition spritePixel (data : list Z) (i : nat) : option string :=
  if match data !! (i + 3)%nat with
     | Some a => bool_decide (a < PNG_ALPHA_THRESHOLD)
     | None => false
     end
  then Some ""%string
  else r ← data !! i; g ← data !! (i + 1)%nat; b ← data !! (i + 2)%nat; Some (colour r g b).

(** [imageToSpriteData]; no result when it throws. *)
Definition imageToSpriteData (img : Image) (x y : Z) (width height : nat)
  : option (list (list string)) :=
  let data := getImageData img x y width height in
  mapM (fun row => mapM (fun col => spritePixel data ((row * width + col) * 4)) (seq 0 width))
       (seq 0 height).

(** What a pixel becomes in a sprite: nothing if its alpha is below the
    threshold, its colour otherwise. *)
Definition spriteCell (p : RGBA) : string :=
  let '(r, g, b, a) := p in
  if bool_decide (a < PNG_ALPHA_THRESHOLD) then ""%string else colour r g b.

(** The origin of the wall piece for [mask] in [loadWallTiles]. *)
Definition wallPieceOrigin (mask : Z) : Z * Z :=
  (Z.rem mask WALL_GRID_COLS * WALL_PIECE_WIDTH, (mask / WALL_GRID_COLS) * WALL_PIECE_HEIGHT).

(** [loadWallTiles]: the sprites set by [setWallSprites], or nothing when
    cutting one throws. *)
Definition loadWallTiles (img : Image) : option (list (list (list string))) :=
  mapM (fun mask => let '(ox, oy) := wallPieceOrigin (Z.of_nat mask) in
                    imageToSpriteData img ox oy (Z.to_nat WALL_PIECE_WIDTH)
                      (Z.to_nat WALL_PIECE_HEIGHT))
       (seq 0 WALL_BITMASK_COUNT).

(** A red-to-blue test image: opaque on even columns. *)
Definition stripes : Image :=
  fun x y => (x mod 256, 171, y mod 256, if decide (x mod 2 = 0) then 255 else 0).

(** The upper-case hexadecimal digit for [d]. *)
Definition upper_hex (d : Z) : ascii :=
  nth (Z.to_nat d) (list_ascii_of_string "0123456789ABCDEF") "0"%char.

(** The colour string for a byte triple, written out: a hash sign and two
    upper-case hexadecimal digits for each of red, green and blue. *)
Definition hash_rrggbb (r g b : Z) : string :=
  string_of_list_ascii
    ["#"%char; upper_hex (r / 16); upper_hex (r mod 16); upper_hex (g / 16);
     upper_hex (g mod 16); upper_hex (b / 16); upper_hex (b mod 16)].

(** ** The status button ([components/BottomToolbar.tsx]) and the name tags
       ([office/components/ToolOverlay.tsx]) *)

Definition STATUS_OPTIONS : list (PlayerStatus * string) :=
  [(coding, "Coding"); (reading, "Reading"); (idle, "Idle"); (afk, "AFK")]%string.

(** [Array.prototype.findIndex]: the first index that satisfies the test,
    or -1. *)
Fixpoint findIndex {A : Type} (test : A -> bool) (l : list A) : Z :=
  match l with
  | [] => -1
  | x :: rest => if test x then 0 else
                   let i := findIndex test rest in if i <? 0 then -1 else i + 1
  end.

(** [handleStatusClick]: the status handed to [onSetStatus]; nothing when
    [STATUS_OPTIONS[nextIdx]] is [undefined] and reading its [value] throws. *)
Definition handleStatusClick (currentStatus : PlayerStatus) : option PlayerStatus :=
  let currentIdx := findIndex (fun s => bool_decide (s.1 = currentStatus)) STATUS_OPTIONS in
  let nextIdx := Z.rem (currentIdx + 1) (Z.of_nat (length STATUS_OPTIONS)) in
  if nextIdx <? 0 then None else fst <$> STATUS_OPTIONS !! Z.to_nat nextIdx.

(** The label on the status button:
    [STATUS_OPTIONS.find(...)?.label || 'Idle']. *)
Definition buttonLabel (currentStatus : PlayerStatus) : string :=
  match snd <$> List.find (fun s => bool_decide (s.1 = currentStatus)) STATUS_OPTIONS with
  | Some label => if decide (label = ""%string) then "Idle"%string else label
  | None => "Idle"%string
  end.

(** The status as the protocol writes it. *)
Definition status_name (status : PlayerStatus) : string :=
  match status with
  | coding => "coding"
  | reading => "reading"
  | idle => "idle"
  | afk => "afk"
  end%string.

(** [statusLabel(status)] of the name tags. *)
Definition statusLabel (status : string) : string :=
  if decide (status = "coding"%string) then "Coding"%string
  else if decide (status = "reading"%string) then "Reading"%string
  else if decide (status = "afk"%string) then "AFK"%string
  else ""%string.

(** [statusDotColor(status)] *)
Definition statusDotColor (status : string) : option string :=
  if decide (status = "coding"%string) then Some "var(--pixel-status-active)"%string
  else if decide (status = "reading"%string) then Some "var(--pixel-status-active)"%string
  else if decide (status = "afk"%string) then Some "var(--pixel-status-permission)"%string
  else None.

(** Whether a name tag has a dot, and whether the dot pulses: the [span] is
    rendered when [dotColor] is truthy, with the class [pixel-agents-pulse]
    unless the status is 'afk'. *)
Definition tag_has_dot (status : string) : bool :=
  match statusDotColor status with
  | Some color => negb (bool_decide (color = ""%string))
  | None => false
  end.

Definition tag_dot_pulses (status : string) : bool :=
  tag_has_dot status && negb (bool_decide (status = "afk"%string)).

(** The text of a name tag: the name, and the activity if there is one. *)
Definition tag_text (name status : string) : string :=
  let activity := statusLabel status in
  (name +:+ (if decide (activity = ""%string) then "" else " - " +:+ activity))%string.

(** ** The lobby ([components/LobbyPage.tsx]) and the room link ([App.tsx]) *)

(** White space as [String.prototype.trim] sees it, among the code units
    below 256. *)
Definition is_space (c : ascii) : bool :=
  bool_decide (nat_of_ascii c ∈ [9; 10; 11; 12; 13; 32; 160]%nat).

Fixpoint trim_start (l : list ascii) : list ascii :=
  match l with
  | [] => []
  | c :: rest => if is_space c then trim_start rest else l
  end.

(** [s.trim()] *)
Definition trim (s : string) : string :=
  string_of_list_ascii (rev (trim_start (rev (trim_start (list_ascii_of_string s))))).

(** [s.replace(c, '')] for a one-character pattern: the first occurrence is
    taken out. *)
Fixpoint replace_first (c : ascii) (s : string) : string :=
  match s with
  | EmptyString => EmptyString
  | String d rest => if decide (d = c) then rest else String d (replace_first c rest)
  end.

(** [window.location.hash] after [window.location.hash = roomId], and of the
    link that Copy Link makes, [origin + pathname + '#' + roomId]. *)
Definition location_hash (roomId : string) : string := ("#" +:+ roomId)%string.

(** [hashRoomId]: [window.location.hash.replace('#', '').trim() || null] *)
Definition hashRoomId (hash : string) : option string :=
  let v := trim (replace_first "#" hash) in
  if decide (v = ""%string) then None else Some v.

(** [canSubmit] *)
Definition canSubmit (playerName : string) : bool :=
  (0 <? String.length (trim playerName))%nat.

(** What a submit of the lobby form does: the name and the character kept in
    [localStorage], and the arguments of the call of [onCreateRoom] or
    [onJoinRoom], the room code being absent for the former. *)
Record Submit := mkSubmit {
  saved_name : string;
  saved_character : Z;
  sub_room : option string;
  sub_name : string;
  sub_character : Z
}.

(** [handleCreate]; nothing happens when the form cannot be submitted. *)
Definition handleCreate (playerName : string) (characterIndex : Z) : option Submit :=
  if negb (canSubmit playerName) then None
  else Some (mkSubmit (trim playerName) characterIndex None (trim playerName) characterIndex).

(** [handleJoin] *)
Definition handleJoin (roomCode playerName : string) (characterIndex : Z) : option Submit :=
  if negb (canSubmit playerName) || bool_decide (trim roomCode = ""%string) then None
  else Some (mkSubmit (trim playerName) characterIndex
               (Some (toUpperCase (trim roomCode))) (trim playerName) characterIndex).

(** The request the relay hook sends for a submit ([createRoom] and
    [joinRoom] of [useWebSocket]). *)
Definition request_of (sub : Submit) : ClientMessage :=
  match sub_room sub with
  | None => C2S_CreateRoom (sub_name sub) (sub_character sub)
  | Some room => C2S_JoinRoom room (sub_name sub) (sub_character sub)
  end.

(** A text of white space only. *)
Definition blank (s : string) : Prop := Forall (fun c => is_space c = true) (list_ascii_of_string s).

(** A later state [r'] of a room [r]: it carries the same identifier, its
    next id is not smaller, and each of its players with an id that [r] had
    given out is a player of [r], with the same socket, id, name and
    character. *)
Definition room_extends (r r' : Room) : Prop :=
  room_id r' = room_id r
  /\ nextPlayerId r <= nextPlayerId r'
  /\ forall e', e' ∈ room_players r' -> p_id (pl_info e'.2) < nextPlayerId r ->
       exists e, e ∈ room_players r /\ e.1 = e'.1
                 /\ p_id (pl_info e.2) = p_id (pl_info e'.2)
                 /\ p_name (pl_info e.2) = p_name (pl_info e'.2)
                 /\ p_characterIndex (pl_info e.2) = p_characterIndex (pl_info e'.2).

(** * Properties *)

#[local] Set Warnings "-clear-no-such-hyp".

(** The engine operations the handlers apply to a character are mutations
    of that one character. *)
Ltac one_character :=
  unfold setRemoteControlled, teleportToTile, setAgentActive, setAgentTool,
    showWaitingBubble, walkToTile, reassignSeat.

Arguments generateRoomId : simpl never.
Arguments generateRoomCode : simpl never.
Arguments findPath : simpl never.

(** ** Room identifiers *)

Lemma append_cons (c : ascii) (a b : string) :
  (String c a +:+ b)%string = String c (a +:+ b).
Proof. reflexivity. Qed.

Lemma append_empty_r (a : string) : (a +:+ "")%string = a.
Proof. induction a as [|c a IH]; [done | by rewrite append_cons, IH]. Qed.

Lemma append_snoc (a : string) (c : ascii) (b : string) :
  ((a +:+ String c EmptyString) +:+ b)%string = (a +:+ String c b)%string.
Proof. induction a as [|d a IH]; [done | by rewrite !append_cons, IH]. Qed.

Lemma string_length_list_ascii (s : string) :
  String.length s = length (list_ascii_of_string s).
Proof. induction s as [|c s IH]; simpl; [done | by rewrite IH]. Qed.

Lemma floor_scaled_range (r : Random) (n : Z) :
  0 < n -> 0 <= floor_scaled r n < n.
Proof.
  intros Hn. unfold floor_scaled.
  split.
  - apply Z.div_pos; lia.
  - apply Z.div_lt_upper_bound; nia.
Qed.

(** Inside the alphabet, indexing yields exactly one of its characters. *)
Lemma char_at_chars (i : Z) :
  0 <= i < 32 -> exists c, char_at chars i = String c EmptyString /\ in_alphabet c.
Proof.
  intros Hi. unfold char_at.
  destruct (Z.ltb_spec i 0) as [|_]; [lia|].
  assert (Hn : (Z.to_nat i < 32)%nat) by lia.
  revert Hn. generalize (Z.to_nat i) as k. intros k Hk.
  do 32 (destruct k as [|k];
         [eexists; split; [reflexivity | unfold in_alphabet; simpl; tauto] |]).
  lia.
Qed.

Lemma room_code_loop_spec (iters : nat) (rng : Rng) (n : nat) (acc : string) :
  exists s, (room_code_loop iters rng n acc).1 = (acc +:+ s)%string
            /\ String.length s = iters
            /\ Forall in_alphabet (list_ascii_of_string s)
            /\ (room_code_loop iters rng n acc).2 = (n + iters)%nat.
Proof.
  revert n acc. induction iters as [|k IH]; intros n acc; cbn [room_code_loop].
  - exists ""%string. repeat split; auto. by rewrite append_empty_r.
  - destruct (char_at_chars (floor_scaled (rng n) (Z.of_nat (String.length chars))))
      as (c & Hc & Hin).
    { apply (floor_scaled_range (rng n) 32). lia. }
    rewrite Hc.
    destruct (IH (S n) (acc +:+ String c EmptyString)%string) as (s & Hs & Hlen & Hall & Hpos).
    exists (String c s). repeat split.
    + by rewrite Hs, append_snoc.
    + simpl. by rewrite Hlen.
    + simpl. by constructor.
    + rewrite Hpos. lia.
Qed.

Lemma room_code_loop_valid (rng : Rng) (n : nat) :
  valid_room_id (room_code_loop 6 rng n ""%string).1.
Proof.
  destruct (room_code_loop_spec 6 rng n ""%string) as (s & Hs & Hlen & Hall & _).
  rewrite Hs. exact (conj Hlen Hall).
Qed.

(** The loop of [handleCreateRoom] only ever leaves with an identifier that
    names no live room. *)
Lemma fresh_room_id_sound (fuel : nat) (rng : Rng) (n : nat) (taken : gmap string nat)
    (roomId : string) (n' : nat) :
  fresh_room_id fuel rng n taken = Some (roomId, n') ->
  taken !! roomId = None /\ valid_room_id roomId.
Proof.
  revert n. induction fuel as [|fuel IH]; intros n; cbn [fresh_room_id]; [done|].
  destruct (generateRoomId rng n) as [rid m] eqn:Hgen.
  destruct (taken !! rid) eqn:Hlk.
  - apply IH.
  - intros [= <- <-]. split; [done|].
    pose proof (room_code_loop_valid rng n) as Hv.
    unfold generateRoomId in Hgen. by rewrite Hgen in Hv.
Qed.

(** The loop does leave: as soon as a draw names no live room, that draw is
    the identifier. *)
Lemma fresh_room_id_first (fuel : nat) (rng : Rng) (n : nat) (taken : gmap string nat) :
  taken !! (generateRoomId rng n).1 = None ->
  fresh_room_id (S fuel) rng n taken = Some (generateRoomId rng n).
Proof.
  intros Hfree. cbn [fresh_room_id].
  destruct (generateRoomId rng n) as [rid m]. simpl in Hfree.
  by rewrite Hfree.
Qed.

Lemma generateRoomId_position (rng : Rng) (n : nat) :
  (generateRoomId rng n).2 = (n + 6)%nat.
Proof.
  unfold generateRoomId.
  by destruct (room_code_loop_spec 6 rng n ""%string) as (s & _ & _ & _ & ->).
Qed.

(** More generally, the loop leaves at the first draw that names no live
    room, if the fuel reaches that far. *)
Lemma fresh_room_id_total (fuel : nat) (rng : Rng) (n : nat) (taken : gmap string nat) (k : nat) :
  (k < fuel)%nat ->
  taken !! (generateRoomId rng (n + 6 * k)).1 = None ->
  exists r, fresh_room_id fuel rng n taken = Some r.
Proof.
  revert n k. induction fuel as [|fuel IH]; intros n k Hk Hfree; [lia|].
  cbn [fresh_room_id].
  pose proof (generateRoomId_position rng n) as Hpos.
  destruct (generateRoomId rng n) as [rid m] eqn:Hgen. simpl in Hpos. subst m.
  destruct (taken !! rid) eqn:Hlk; [|by eexists].
  destruct k as [|k].
  - replace (n + 6 * 0)%nat with n in Hfree by lia.
    rewrite Hgen in Hfree. simpl in Hfree. congruence.
  - apply (IH (n + 6)%nat k); [lia|].
    by replace (n + 6 + 6 * k)%nat with (n + 6 * S k)%nat by lia.
Qed.

(** C7, as the code has it: every identifier of [generateRoomId] and of
    [generateRoomCode] is six characters of the alphabet
    ABCDEFGHJKLMNPQRSTUVWXYZ23456789; the room the server creates gets an
    identifier that names no room live at that moment, and becomes the one
    new live room; the client's [createRoom] takes its code as drawn. *)
Theorem room_identifiers (rng : Rng) (n : nat) :
  valid_room_id (generateRoomId rng n).1
  /\ valid_room_id (generateRoomCode rng n).1
  /\ (forall fuel rs m sock playerName characterIndex m' n' out,
        handleCreateRoom fuel rs rng n m sock playerName characterIndex = Some (m', n', out) ->
        exists roomId ref room,
          valid_room_id roomId
          /\ (roomId ∉ live_rooms m)
          /\ live_rooms m' = {[roomId]} ∪ live_rooms m
          /\ rooms m' !! roomId = Some ref
          /\ store m' !! ref = Some room
          /\ room_id room = roomId
          /\ out = sendTo rs sock (S2C_RoomJoined roomId 1
                     [mkPlayerInfo 1 playerName (Z.rem characterIndex 6) idle None]))
  /\ (forall id playerName characterIndex h,
        channelRef (createRoom rng n id playerName characterIndex h).1
        = Some (generateRoomCode rng n).1).
Proof.
  split; [apply room_code_loop_valid|].
  split; [apply room_code_loop_valid|].
  split.
  - intros fuel rs m sock playerName characterIndex m' n' out.
    unfold handleCreateRoom.
    destruct (fresh_room_id fuel rng n (rooms m)) as [[roomId k]|] eqn:Hfresh; [|done].
    apply fresh_room_id_sound in Hfresh as [Hfree Hvalid].
    simpl. intros [= <- <- <-].
    eexists roomId, _, _. simpl.
    split; [done|]. split; [by apply not_elem_of_dom|].
    split; [unfold live_rooms; simpl; by rewrite dom_insert_L|].
    split; [by rewrite lookup_insert_eq|].
    split; [by rewrite lookup_insert_eq|]. done.
  - intros id playerName characterIndex h. unfold createRoom.
    by destruct (generateRoomCode rng n).
Qed.

Lemma room_identifiers_witness :
  exists roomId, valid_room_id roomId /\ roomId ∉ live_rooms (mkRoomManager ∅ ∅ ∅).
Proof.
  pose proof (room_identifiers (fun _ => mkRandom 0 1) 0) as (_ & _ & Hcreate & _).
  edestruct (Hcreate 1%nat (fun _ => 1) (mkRoomManager ∅ ∅ ∅) 0%nat "ann"%string 2)
    as (roomId & ref & room & Hvalid & Hfresh & _).
  { vm_compute. reflexivity. }
  exists roomId. split; assumption.
Defined.

(** C7, as stated, fails for the client: the code a client draws for its
    new room can be the code of a room that is live, here the one another
    client created with a generator that drew alike. *)
Lemma createRoom_code_not_unique :
  let rng : Rng := fun _ => mkRandom 0 1 in
  let os := mkOfficeState (uniform_map 2 2 tile_floor) ∅ (0, 0) in
  let ann := (createRoom rng 0 100001 "ann"%string 0 (mount os)).1 in
  let bob := (createRoom rng 0 100002 "bob"%string 1 (mount os)).1 in
  channelRef bob = Some "AAAAAA"%string /\ "AAAAAA"%string ∈ live_channels [ann].
Proof.
  split; [reflexivity|]. refine (bool_decide_unpack _ _). vm_compute. exact I.
Qed.

(** ** The relay server *)

Lemma addPlayer_characterIndex_bounds (r : Room) (sock : WebSocket) (name : string) (characterIndex : Z) :
  -5 <= p_characterIndex (addPlayer r sock name characterIndex).2 <= 5
  /\ (0 <= characterIndex -> 0 <= p_characterIndex (addPlayer r sock name characterIndex).2).
Proof.
  simpl. pose proof (Z.rem_bound_abs characterIndex 6).
  split.
  - assert (Z.abs (Z.rem characterIndex 6) < 6) by (apply Z.rem_bound_abs; lia). lia.
  - intros Hpos. apply Z.rem_nonneg; lia.
Qed.

(** C9: at a negative index the record's [characterIndex] is negative; the
    remainder of [-1] by 6 is [-1], outside the range 0 to 5 the comment on
    the line promises. *)
Theorem addPlayer_characterIndex_negative (r : Room) (sock : WebSocket) (name : string) :
  p_characterIndex (addPlayer r sock name (-1)).2 = -1.
Proof. reflexivity. Qed.

(** C8, as the code has it: a join request that names no live room changes
    nothing in the room manager, reaches no socket but the requester's, and
    the requester gets the one error event if its socket is open ([sendTo]
    hands nothing to a socket in another state); the client's handler leaves
    its state as it is on that event, and sends nothing again. *)
Theorem join_unknown_room (rs : WebSocket -> Z) (m : RoomManager) (sock : WebSocket)
    (room playerName : string) (characterIndex : Z) :
  room ∉ live_rooms m ->
  handleJoinRoom rs m sock room playerName characterIndex
  = (m, if decide (rs sock = OPEN)
        then [(sock, S2C_Error ("Room " +:+ room +:+ " not found")%string)]
        else [])
  /\ (forall fuel rng n,
        handleMessage fuel rs rng n m sock (C2S_JoinRoom room playerName characterIndex)
        = Some (m, n, if decide (rs sock = OPEN)
                      then [(sock, S2C_Error ("Room " +:+ room +:+ " not found")%string)]
                      else []))
  /\ (forall message h, onMessage (S2C_Error message) h = h).
Proof.
  intros Hdead. unfold live_rooms in Hdead. apply not_elem_of_dom in Hdead.
  assert (Hjoin : handleJoinRoom rs m sock room playerName characterIndex
                  = (m, if decide (rs sock = OPEN)
                        then [(sock, S2C_Error ("Room " +:+ room +:+ " not found")%string)]
                        else [])).
  { unfold handleJoinRoom. rewrite Hdead. unfold sendTo, OPEN.
    by destruct (decide (rs sock = 1)). }
  split; [exact Hjoin|]. split.
  - intros fuel rng n. cbn [handleMessage]. by rewrite Hjoin.
  - done.
Qed.

Lemma join_unknown_room_witness :
  handleJoinRoom (fun _ => 1) (mkRoomManager ∅ ∅ ∅) 7%nat "ABCDEF"%string "ann"%string 0
  = (mkRoomManager ∅ ∅ ∅, [(7%nat, S2C_Error "Room ABCDEF not found"%string)]).
Proof.
  apply (join_unknown_room (fun _ => 1) (mkRoomManager ∅ ∅ ∅) 7%nat
           "ABCDEF"%string "ann"%string 0).
  unfold live_rooms. simpl. rewrite dom_empty_L. apply not_elem_of_empty.
Defined.

(** C8, as stated, fails where the requester's socket is not open: the
    server then sends no error event at all. *)
Lemma join_unknown_room_socket_closing :
  let m := mkRoomManager ∅ ∅ ∅ in
  rooms m !! "ABCDEF"%string = None
  /\ handleMessage 1 (fun _ => 2) (fun _ => mkRandom 0 1) 0 m 7%nat
       (C2S_JoinRoom "ABCDEF"%string "ann"%string 0)
     = Some (m, 0%nat, []).
Proof. split; reflexivity. Qed.

(** ** The transport client *)

Lemma send_pendingMessages (msg : ClientMessage) (c : WsClient) :
  pendingMessages (send msg c) = pendingMessages c.
Proof.
  unfold send. destruct (ws c) as [s|]; [|done].
  by destruct (decide (readyState s = OPEN)).
Qed.

Lemma client_step_pendingMessages (e : client_event) (c : WsClient) :
  pendingMessages c = [] -> pendingMessages (client_step e c) = [].
Proof.
  intros Hc. destruct e; simpl; try done.
  - unfold connect, doConnect. simpl. destruct (ws c); [done|]. by destruct throws.
  - by rewrite send_pendingMessages.
  - by rewrite send_pendingMessages.
  - unfold doConnect. simpl. destruct (ws c); [done|]. by destruct throws.
Qed.

(** Nothing ever fills the queue: it is empty in every state of the client. *)
Lemma pendingMessages_always_empty (es : list client_event) :
  pendingMessages (client_run es wsClient) = [].
Proof.
  unfold client_run.
  assert (H : forall c, pendingMessages c = [] ->
                        pendingMessages (foldl (fun c' e => client_step e c') c es) = []).
  { induction es as [|e es IH]; intros c Hc; simpl; [done|].
    apply IH. by apply client_step_pendingMessages. }
  by apply H.
Qed.

(** C10: [send] on a client whose socket is absent or not OPEN returns the
    client as it was: nothing is transmitted and nothing is queued, so
    what follows is what would have followed without the call; [send] never
    touches the queue of pending messages, which [onopen] empties. *)
Theorem send_not_open_dropped (c : WsClient) (msg : ClientMessage) :
  (ws c = None \/ exists s, ws c = Some s /\ readyState s <> OPEN) ->
  send msg c = c
  /\ (forall es, client_run (ev_send msg :: es) c = client_run es c)
  /\ (forall c' msg', pendingMessages (send msg' c') = pendingMessages c')
  /\ (forall c', pendingMessages (onopen c') = []).
Proof.
  intros Hclosed.
  assert (Hsend : send msg c = c).
  { unfold send. destruct Hclosed as [-> | (s & -> & Hrs)]; [done|].
    by destruct (decide (readyState s = OPEN)). }
  split; [exact Hsend|]. split.
  - intros es. unfold client_run. simpl. by rewrite Hsend.
  - split; [intros; apply send_pendingMessages | done].
Qed.

Lemma send_not_open_dropped_witness :
  send (C2S_SetStatus coding) (mkWsClient (Some (mkSocket 0 [])) false false true [])
  = mkWsClient (Some (mkSocket 0 [])) false false true [].
Proof.
  apply (send_not_open_dropped (mkWsClient (Some (mkSocket 0 [])) false false true [])
           (C2S_SetStatus coding)).
  right. exists (mkSocket 0 []). split; [reflexivity|]. simpl. unfold OPEN. lia.
Defined.

(** ** The room synchroniser *)

(** C3: a status event that names the local participant leaves the hook's
    whole state as it was, the characters of the office state and the list
    of players included. *)
Theorem onStatus_self (myInfo : PlayerInfo) (status : PlayerStatus) (h : Hook) :
  onStatus myInfo (p_id myInfo) status h = h
  /\ characters (officeState (onStatus myInfo (p_id myInfo) status h)) = characters (officeState h)
  /\ players (onStatus myInfo (p_id myInfo) status h) = players h.
Proof.
  assert (Hself : onStatus myInfo (p_id myInfo) status h = h).
  { unfold onStatus. by destruct (decide (p_id myInfo = p_id myInfo)). }
  by rewrite Hself.
Qed.

(** What one frame of the broadcast loop does: it either sends nothing and
    leaves the hook as it was, or sends the local character's tile, which
    then differs from the last broadcast position, the interval having
    passed, and records both. *)
Lemma tick_cases (now : Z) (h : Hook) :
  tick now h = (h, [])
  \/ exists myInfo ch,
       myInfoRef h = Some myInfo
       /\ characters (officeState h) !! p_id myInfo = Some ch
       /\ tile ch <> lastBroadcastPos h
       /\ POSITION_BROADCAST_INTERVAL_MS <= now - lastBroadcastTime h
       /\ (tick now h).2 = [out_move (p_id myInfo) (tileCol ch) (tileRow ch)]
       /\ lastBroadcastPos (tick now h).1 = tile ch
       /\ lastBroadcastTime (tick now h).1 = now.
Proof.
  unfold tick.
  destruct (channelRef h) as [code|]; [|by left].
  destruct (myInfoRef h) as [myInfo|]; [|by left].
  destruct (characters (officeState h) !! p_id myInfo) as [ch|] eqn:Hch; [|by left].
  destruct (bool_decide _) eqn:Hpos; simpl; [|by left].
  destruct (Z.leb_spec POSITION_BROADCAST_INTERVAL_MS (now - lastBroadcastTime h)) as [Hint|];
    [|by left].
  right. exists myInfo, ch. repeat split; try done.
  apply bool_decide_eq_true in Hpos. unfold tile.
  intros Heq. rewrite <- Heq in Hpos. simpl in Hpos. tauto.
Qed.

Lemma hook_step_throttled (now : Z) (e : hook_event) (h : Hook) (l : list (Z * Cell)) :
  throttled (lastBroadcastPos (hook_step now e h).1) (lastBroadcastTime (hook_step now e h).1) l ->
  throttled (lastBroadcastPos h) (lastBroadcastTime h)
    (((fun c => (now, c)) <$> omap broadcast_position (hook_step now e h).2) ++ l).
Proof.
  destruct e as [ | myInfo ps | myInfo playerId status | myInfo playerId c r
                 | code myInfo | rng n id playerName characterIndex
                 | id target playerName characterIndex | status | f]; simpl; try done.
  - destruct (tick_cases now h) as [Hq | (myInfo & ch & _ & _ & Hpos & Hint & Hout & Hp & Ht)].
    + by rewrite Hq.
    + destruct (tick now h) as [h' out]. simpl in *. subst out. simpl.
      rewrite Hp, Ht. intros Hl. repeat split; done.
  - unfold onStatus. destruct (decide _); done.
  - unfold onMove. destruct (decide _); [done|].
    destruct (characters (officeState h) !! playerId); [|done].
    destruct (10 <? _); [done|]. by destruct (0 <? _).
  - unfold setStatus. destruct (channelRef h); [|done]. by destruct (myInfoRef h).
Qed.

Lemma position_broadcasts_throttled (es : list (Z * hook_event)) (h : Hook) :
  throttled (lastBroadcastPos h) (lastBroadcastTime h) (position_broadcasts es h).
Proof.
  revert h. induction es as [|[now e] es IH]; intros h; simpl; [done|].
  pose proof (hook_step_throttled now e h) as Hstep.
  destruct (hook_step now e h) as [h' out]. simpl in Hstep. apply Hstep, IH.
Qed.

Lemma throttled_after (lastPos : Cell) (lastTime : Z) (l : list (Z * Cell)) (j : nat) (t : Z) (p : Cell) :
  throttled lastPos lastTime l -> l !! j = Some (t, p) ->
  POSITION_BROADCAST_INTERVAL_MS <= t - lastTime.
Proof.
  revert lastPos lastTime j. induction l as [|[t0 p0] l IH]; intros lastPos lastTime j; [done|].
  simpl. intros (_ & Hint & Hl). destruct j as [|j]; simpl.
  - by intros [= <- <-].
  - intros Hj. specialize (IH _ _ _ Hl Hj). unfold POSITION_BROADCAST_INTERVAL_MS in *. lia.
Qed.

Lemma throttled_pairwise (lastPos : Cell) (lastTime : Z) (l : list (Z * Cell))
    (i j : nat) (ti tj : Z) (pi pj : Cell) :
  throttled lastPos lastTime l -> (i < j)%nat ->
  l !! i = Some (ti, pi) -> l !! j = Some (tj, pj) ->
  POSITION_BROADCAST_INTERVAL_MS <= tj - ti.
Proof.
  revert lastPos lastTime i j. induction l as [|[t0 p0] l IH]; intros lastPos lastTime i j; [done|].
  simpl. intros (_ & _ & Hl) Hij. destruct j as [|j]; [lia|].
  destruct i as [|i]; simpl.
  - intros [= <- <-] Hj. eapply throttled_after; eauto.
  - intros Hi Hj. eapply (IH _ _ i j); eauto. lia.
Qed.

(** C6: a frame of the broadcast loop sends a position only if the local
    character's tile differs from the last broadcast position and the
    interval of 200 ms has passed since the last broadcast; so in every run
    of the hook each position broadcast differs from the one before it, and
    any two of them are at least 200 ms apart. *)
Theorem position_broadcast_rate_limited (es : list (Z * hook_event)) (h : Hook) :
  POSITION_BROADCAST_INTERVAL_MS = 200
  /\ (forall now o, o ∈ (tick now h).2 ->
        exists myInfo ch,
          myInfoRef h = Some myInfo
          /\ characters (officeState h) !! p_id myInfo = Some ch
          /\ o = out_move (p_id myInfo) (tileCol ch) (tileRow ch)
          /\ tile ch <> lastBroadcastPos h
          /\ 200 <= now - lastBroadcastTime h)
  /\ (forall now e id c r, out_move id c r ∈ (hook_step now e h).2 -> e = he_tick)
  /\ throttled (lastBroadcastPos h) (lastBroadcastTime h) (position_broadcasts es h)
  /\ (forall i j ti tj pi pj,
        (i < j)%nat ->
        position_broadcasts es h !! i = Some (ti, pi) ->
        position_broadcasts es h !! j = Some (tj, pj) ->
        200 <= tj - ti).
Proof.
  split; [done|]. split.
  - intros now o Ho.
    destruct (tick_cases now h) as [Hq | (myInfo & ch & Hme & Hch & Hpos & Hint & Hout & _)].
    + rewrite Hq in Ho. simpl in Ho. by apply elem_of_nil in Ho.
    + rewrite Hout in Ho. apply list_elem_of_singleton in Ho.
      exists myInfo, ch. repeat split; done.
  - split.
    { intros now e id c r Ho.
      destruct e as [ | | | | code myInfo | | | status | ]; simpl in Ho;
        try done; try (by apply elem_of_nil in Ho).
      - by apply list_elem_of_singleton in Ho.
      - unfold setStatus in Ho. destruct (channelRef h), (myInfoRef h); simpl in Ho;
          rewrite ?elem_of_cons, ?elem_of_nil in Ho; naive_solver. }
    split; [apply position_broadcasts_throttled|].
    intros i j ti tj pi pj Hij Hi Hj.
    change 200 with POSITION_BROADCAST_INTERVAL_MS.
    eapply throttled_pairwise; eauto using position_broadcasts_throttled.
Qed.

Lemma position_broadcast_rate_limited_witness :
  let os := mkOfficeState (uniform_map 3 3 tile_floor) ∅ (0, 0) in
  let ann := mkPlayerInfo 100001 "ann"%string 0 idle None in
  let es := [(900, he_joinRoom 100001 "ABCDEF"%string "ann"%string 0);
             (950, he_subscribed "ABCDEF"%string ann);
             (1000, he_tick);
             (1050, he_engine (teleportToTile 100001 1 0));
             (1100, he_tick);
             (1250, he_tick)] in
  position_broadcasts es (mount os) = [(1000, (0, 0)); (1250, (1, 0))]
  /\ 200 <= 1250 - 1000.
Proof.
  intros os ann es. split; [vm_compute; reflexivity|].
  destruct (position_broadcast_rate_limited es (mount os)) as (_ & _ & _ & _ & Hpair).
  apply (Hpair 0%nat 1%nat 1000 1250 (0, 0) (1, 0)); [lia | | ]; vm_compute; reflexivity.
Defined.

(** *** The engine's mutations and the set of tracked ids *)

Lemma update_character_dom (id : Z) (f : Character -> Character) (os : OfficeState) :
  dom (characters (update_character id f os)) = dom (characters os).
Proof.
  unfold update_character. destruct (characters os !! id) as [ch|] eqn:Hch; [|done].
  simpl. rewrite dom_insert_L. apply elem_of_dom_2 in Hch. set_solver.
Qed.

Lemma update_character_lookup_ne (id k : Z) (f : Character -> Character) (os : OfficeState) :
  k <> id -> characters (update_character id f os) !! k = characters os !! k.
Proof.
  intros Hne. unfold update_character. destruct (characters os !! id); [|done].
  simpl. by rewrite lookup_insert_ne.
Qed.

Lemma update_character_lookup (id : Z) (f : Character -> Character) (os : OfficeState) :
  characters (update_character id f os) !! id = f <$> characters os !! id.
Proof.
  unfold update_character. destruct (characters os !! id) eqn:Hch; simpl.
  - by rewrite lookup_insert_eq.
  - by rewrite Hch.
Qed.

Lemma update_character_tileMap (id : Z) (f : Character -> Character) (os : OfficeState) :
  tileMap (update_character id f os) = tileMap os.
Proof. unfold update_character. by destruct (characters os !! id). Qed.

Lemma addAgent_dom (id palette hue : Z) (seat : option string) (isLocal : bool) (os : OfficeState) :
  dom (characters (addAgent id palette hue seat isLocal os)) = {[id]} ∪ dom (characters os).
Proof.
  unfold addAgent. destruct (characters os !! id) as [ch|] eqn:Hch.
  - apply elem_of_dom_2 in Hch. set_solver.
  - simpl. by rewrite dom_insert_L.
Qed.

Lemma addAgent_lookup_ne (id k palette hue : Z) (seat : option string) (isLocal : bool)
    (os : OfficeState) :
  k <> id -> characters (addAgent id palette hue seat isLocal os) !! k = characters os !! k.
Proof.
  intros Hne. unfold addAgent. destruct (characters os !! id); [done|].
  simpl. by rewrite lookup_insert_ne.
Qed.

Lemma removeAgent_dom (id : Z) (os : OfficeState) :
  dom (characters (removeAgent id os)) = dom (characters os) ∖ {[id]}.
Proof. unfold removeAgent. simpl. by rewrite dom_delete_L. Qed.

Lemma removeAgent_lookup_ne (id k : Z) (os : OfficeState) :
  k <> id -> characters (removeAgent id os) !! k = characters os !! k.
Proof. intros Hne. unfold removeAgent. simpl. by rewrite lookup_delete_ne. Qed.

(** *** Reconciliation against a membership snapshot *)

Section Reconcile.
(** The two revisions of the handler differ in the payload and in what is
    done to a character once it is added; the reconciliation rests on what
    they share: a step adds the payload's id unless it was tracked when the
    handler began, and touches no other character. *)
Context {P : Type} (key : P -> Z) (cur : gset Z) (step : OfficeState -> P -> OfficeState).
Hypothesis step_dom : forall os p,
  dom (characters (step os p))
  = if decide (key p ∈ cur) then dom (characters os) else {[key p]} ∪ dom (characters os).
Hypothesis step_lookup : forall os p k,
  k ∈ cur -> characters (step os p) !! k = characters os !! k.

Lemma add_loop_dom (ps : list P) (os : OfficeState) :
  dom (characters (foldl step os ps))
  = dom (characters os) ∪ (list_to_set (key <$> ps) ∖ cur).
Proof.
  clear step_lookup.
  revert os. induction ps as [|p ps IH]; intros os; simpl.
  - set_solver.
  - rewrite IH, step_dom. destruct (decide (key p ∈ cur)); set_solver.
Qed.

Lemma add_loop_lookup (ps : list P) (os : OfficeState) (k : Z) :
  k ∈ cur -> characters (foldl step os ps) !! k = characters os !! k.
Proof.
  clear step_dom.
  intros Hk. revert os. induction ps as [|p ps IH]; intros os; simpl; [done|].
  by rewrite IH, step_lookup.
Qed.
End Reconcile.

(** The set the two loops leave: what was tracked and what the snapshot
    brings, less what was tracked, is absent from the snapshot and is not
    the local participant. *)
Lemma reconciled_ids (tracked snapshot : gset Z) (me : Z) :
  let after := (tracked ∪ snapshot ∖ tracked) ∖ (tracked ∖ snapshot ∖ {[me]}) in
  after ∖ {[me]} = snapshot ∖ {[me]}
  /\ (forall id, id ∈ snapshot -> id ∈ after)
  /\ (forall id, id ∈ tracked -> id ∉ snapshot -> id <> me -> id ∉ after)
  /\ (me ∈ tracked -> me ∈ after).
Proof.
  simpl. repeat split.
  - apply set_eq. intros x.
    rewrite !elem_of_difference, !elem_of_union, !elem_of_difference, !elem_of_singleton.
    destruct (decide (x ∈ tracked)), (decide (x ∈ snapshot)), (decide (x = me)); tauto.
  - intros id Hid.
    rewrite !elem_of_difference, !elem_of_union, !elem_of_difference, !elem_of_singleton.
    destruct (decide (id ∈ tracked)); tauto.
  - intros id Hin Hout Hme.
    rewrite !elem_of_difference, !elem_of_union, !elem_of_difference, !elem_of_singleton.
    tauto.
  - intros Hme.
    rewrite !elem_of_difference, !elem_of_union, !elem_of_difference, !elem_of_singleton.
    tauto.
Qed.

Lemma remove_loop_dom (myInfo : PlayerInfo) (presenceIds : gset Z) (ids : list Z) (os : OfficeState) :
  dom (characters
         (foldl (fun os' id =>
                   if decide ((id ∉ presenceIds) ∧ (id ≠ p_id myInfo)) then removeAgent id os' else os')
                os ids))
  = dom (characters os) ∖ (list_to_set ids ∖ presenceIds ∖ {[p_id myInfo]}).
Proof.
  revert os. induction ids as [|id ids IH]; intros os; simpl.
  - set_solver.
  - rewrite IH. destruct (decide _) as [[Hout Hme]|Hkeep].
    + rewrite removeAgent_dom. set_solver.
    + apply not_and_l in Hkeep as [Hin|Hme].
      * apply dec_stable in Hin. set_solver.
      * apply dec_stable in Hme. set_solver.
Qed.

Lemma remove_loop_lookup (myInfo : PlayerInfo) (presenceIds : gset Z) (ids : list Z)
    (os : OfficeState) (k : Z) :
  k ∈ presenceIds \/ k = p_id myInfo ->
  characters
    (foldl (fun os' id =>
              if decide ((id ∉ presenceIds) ∧ (id ≠ p_id myInfo)) then removeAgent id os' else os')
           os ids) !! k
  = characters os !! k.
Proof.
  intros Hk. revert os. induction ids as [|id ids IH]; intros os; simpl; [done|].
  rewrite IH. destruct (decide _) as [[Hout Hme]|Hkeep]; [|done].
  apply removeAgent_lookup_ne. intros ->. tauto.
Qed.

Lemma remove_departed_dom (myInfo : PlayerInfo) (currentIds presenceIds : gset Z) (os : OfficeState) :
  dom (characters (remove_departed myInfo currentIds presenceIds os))
  = dom (characters os) ∖ (currentIds ∖ presenceIds ∖ {[p_id myInfo]}).
Proof.
  unfold remove_departed. rewrite remove_loop_dom.
  assert (Heq : (list_to_set (elements currentIds) : gset Z) = currentIds)
    by apply list_to_set_elements_L.
  by rewrite Heq.
Qed.

Lemma remove_departed_lookup (myInfo : PlayerInfo) (currentIds presenceIds : gset Z)
    (os : OfficeState) (k : Z) :
  k ∈ presenceIds \/ k = p_id myInfo ->
  characters (remove_departed myInfo currentIds presenceIds os) !! k = characters os !! k.
Proof. apply remove_loop_lookup. Qed.

Lemma add_new_dom (myInfo : PlayerInfo) (cur : gset Z) (os : OfficeState) (p : PresencePayload) :
  dom (characters (add_new myInfo cur os p))
  = if decide (pr_id p ∈ cur) then dom (characters os) else {[pr_id p]} ∪ dom (characters os).
Proof.
  unfold add_new. destruct (decide (pr_id p ∈ cur)); [done|].
  destruct (statusToActive (pr_status p)), (bool_decide (pr_id p = p_id myInfo)),
    (pr_tileCol p), (pr_tileRow p);
    one_character; rewrite ?update_character_dom; apply addAgent_dom.
Qed.

Lemma add_new_lookup (myInfo : PlayerInfo) (cur : gset Z) (os : OfficeState) (p : PresencePayload)
    (k : Z) :
  k ∈ cur -> characters (add_new myInfo cur os p) !! k = characters os !! k.
Proof.
  intros Hk. unfold add_new. destruct (decide (pr_id p ∈ cur)) as [|Hnew]; [done|].
  assert (Hne : k <> pr_id p) by (intros ->; done).
  destruct (statusToActive (pr_status p)), (bool_decide (pr_id p = p_id myInfo)),
    (pr_tileCol p), (pr_tileRow p);
    one_character; rewrite ?update_character_lookup_ne by done; by apply addAgent_lookup_ne.
Qed.

Lemma add_new_old_dom (myInfo : PlayerInfo) (cur : gset Z) (os : OfficeState) (p : PlayerInfo) :
  dom (characters (add_new_old myInfo cur os p))
  = if decide (p_id p ∈ cur) then dom (characters os) else {[p_id p]} ∪ dom (characters os).
Proof.
  unfold add_new_old. destruct (decide (p_id p ∈ cur)); [done|].
  destruct (statusToActive (p_status p));
    one_character; rewrite ?update_character_dom; apply addAgent_dom.
Qed.

Lemma add_new_old_lookup (myInfo : PlayerInfo) (cur : gset Z) (os : OfficeState) (p : PlayerInfo)
    (k : Z) :
  k ∈ cur -> characters (add_new_old myInfo cur os p) !! k = characters os !! k.
Proof.
  intros Hk. unfold add_new_old. destruct (decide (p_id p ∈ cur)) as [|Hnew]; [done|].
  assert (Hne : k <> p_id p) by (intros ->; done).
  destruct (statusToActive (p_status p));
    one_character; rewrite ?update_character_lookup_ne by done; by apply addAgent_lookup_ne.
Qed.

Lemma onPresenceSync_dom (myInfo : PlayerInfo) (presenceState : list (list PresencePayload)) (h : Hook) :
  dom (characters (officeState (onPresenceSync myInfo presenceState h)))
  = (dom (characters (officeState h))
       ∪ snapshot_ids presenceState ∖ dom (characters (officeState h)))
      ∖ (dom (characters (officeState h)) ∖ snapshot_ids presenceState ∖ {[p_id myInfo]}).
Proof.
  unfold onPresenceSync. simpl. rewrite remove_departed_dom.
  rewrite (add_loop_dom pr_id _ _ (add_new_dom myInfo _)).
  unfold snapshot_ids. rewrite <- list_fmap_compose.
  by change (p_id ∘ to_info) with pr_id.
Qed.

Lemma onPresenceSync_lookup (myInfo : PlayerInfo) (presenceState : list (list PresencePayload))
    (h : Hook) (k : Z) :
  k ∈ dom (characters (officeState h)) ->
  k ∈ snapshot_ids presenceState \/ k = p_id myInfo ->
  characters (officeState (onPresenceSync myInfo presenceState h)) !! k
  = characters (officeState h) !! k.
Proof.
  intros Hcur Hkeep. unfold onPresenceSync. simpl.
  rewrite remove_departed_lookup.
  - by apply (add_loop_lookup _ _ (add_new_lookup myInfo _)).
  - unfold snapshot_ids in Hkeep. rewrite <- list_fmap_compose.
    by change (p_id ∘ to_info) with pr_id.
Qed.

Lemma onPresenceSync_old_dom (myInfo : PlayerInfo) (presenceState : list (list PlayerInfo)) (h : Hook) :
  dom (characters (officeState (onPresenceSync_old myInfo presenceState h)))
  = (dom (characters (officeState h))
       ∪ list_to_set (p_id <$> omap head presenceState) ∖ dom (characters (officeState h)))
      ∖ (dom (characters (officeState h)) ∖ list_to_set (p_id <$> omap head presenceState)
           ∖ {[p_id myInfo]}).
Proof.
  unfold onPresenceSync_old. simpl. rewrite remove_departed_dom.
  by rewrite (add_loop_dom p_id _ _ (add_new_old_dom myInfo _)).
Qed.

Lemma onPresenceSync_old_lookup (myInfo : PlayerInfo) (presenceState : list (list PlayerInfo))
    (h : Hook) (k : Z) :
  k ∈ dom (characters (officeState h)) ->
  k ∈ (list_to_set (p_id <$> omap head presenceState) : gset Z) \/ k = p_id myInfo ->
  characters (officeState (onPresenceSync_old myInfo presenceState h)) !! k
  = characters (officeState h) !! k.
Proof.
  intros Hcur Hkeep. unfold onPresenceSync_old. simpl.
  rewrite remove_departed_lookup by done.
  by apply (add_loop_lookup _ _ (add_new_old_lookup myInfo _)).
Qed.

(** C1: whatever was tracked before, after the presence [sync] handler the
    tracked ids other than the local participant's are exactly those of the
    snapshot: every id of the snapshot that was not tracked has a character,
    every tracked id the snapshot lacks is gone, and the local participant's
    character is kept as it was.  This holds of the handler of both Supabase
    revisions. *)
Theorem presence_sync_reconciles (myInfo : PlayerInfo) (h : Hook) :
  (forall presenceState : list (list PresencePayload),
     reconciles (p_id myInfo) (snapshot_ids presenceState)
       (characters (officeState h))
       (characters (officeState (onPresenceSync myInfo presenceState h))))
  /\ (forall presenceState : list (list PlayerInfo),
        reconciles (p_id myInfo) (list_to_set (p_id <$> omap head presenceState))
          (characters (officeState h))
          (characters (officeState (onPresenceSync_old myInfo presenceState h)))).
Proof.
  split; intros presenceState; unfold reconciles.
  - rewrite onPresenceSync_dom.
    destruct (reconciled_ids (dom (characters (officeState h))) (snapshot_ids presenceState)
                (p_id myInfo)) as (Heq & Hadd & Hdel & Hme).
    split; [exact Heq|]. split; [intros id Hid _; by apply Hadd|].
    split; [exact Hdel|].
    intros ch Hch. rewrite onPresenceSync_lookup; [done | by eapply elem_of_dom_2 | by right].
  - rewrite onPresenceSync_old_dom.
    destruct (reconciled_ids (dom (characters (officeState h)))
                (list_to_set (p_id <$> omap head presenceState)) (p_id myInfo))
      as (Heq & Hadd & Hdel & Hme).
    split; [exact Heq|]. split; [intros id Hid _; by apply Hadd|].
    split; [exact Hdel|].
    intros ch Hch. rewrite onPresenceSync_old_lookup; [done | by eapply elem_of_dom_2 | by right].
Qed.

(** The scenario of the specification: the snapshot [1, 2] followed by the
    snapshot [1] removes character 2, with no leave event. *)
Lemma presence_sync_reconciles_witness :
  let os := mkOfficeState (uniform_map 3 3 tile_floor) ∅ (0, 0) in
  let me := mkPlayerInfo 1 "ann"%string 0 idle None in
  let p1 := mkPresence 1 "ann"%string 0 idle None (Some 0) (Some 0) in
  let p2 := mkPresence 2 "bob"%string 1 coding None (Some 2) (Some 1) in
  let h1 := onPresenceSync me [[p1]; [p2]] (mount os) in
  2 ∈ dom (characters (officeState h1))
  /\ 2 ∉ dom (characters (officeState (onPresenceSync me [[p1]] h1))).
Proof.
  intros os me p1 p2 h1.
  assert (Hin : 2 ∈ dom (characters (officeState h1)))
    by (refine (bool_decide_unpack _ _); vm_compute; exact I).
  split; [exact Hin|].
  destruct (presence_sync_reconciles me h1) as [Hnew _].
  destruct (Hnew [[p1]]) as (_ & _ & Hdel & _).
  apply Hdel; [exact Hin | | simpl; lia].
  refine (bool_decide_unpack _ _); vm_compute; exact I.
Defined.

(** *** Status and seat events applied twice *)

Lemma update_character_compose (id : Z) (f g : Character -> Character) (os : OfficeState) :
  update_character id g (update_character id f os) = update_character id (g ∘ f) os.
Proof.
  unfold update_character at 2 3.
  destruct (characters os !! id) as [ch|] eqn:Hch.
  - unfold update_character, with_characters. simpl.
    by rewrite lookup_insert_eq, insert_insert_eq.
  - unfold update_character. by rewrite Hch.
Qed.

Lemma update_character_ext (id : Z) (f g : Character -> Character) (os : OfficeState) :
  (forall ch, f ch = g ch) -> update_character id f os = update_character id g os.
Proof.
  intros Hfg. unfold update_character. destruct (characters os !! id); [|done].
  by rewrite Hfg.
Qed.

Lemma update_character_idempotent (id : Z) (f : Character -> Character) (os : OfficeState) :
  (forall ch, f (f ch) = f ch) ->
  update_character id f (update_character id f os) = update_character id f os.
Proof.
  intros Hf. rewrite update_character_compose. by apply update_character_ext.
Qed.

Lemma apply_status_idempotent (playerId : Z) (status : PlayerStatus) (os : OfficeState) :
  apply_status playerId status (apply_status playerId status os) = apply_status playerId status os.
Proof.
  unfold apply_status. one_character.
  destruct (decide (status = afk));
    rewrite !update_character_compose; apply update_character_ext;
    intros [i pal hue seat act tool bub c r off d pth st rc];
    destruct st, (statusToActive status); reflexivity.
Qed.

Lemma reassignSeat_idempotent (playerId : Z) (seat : string) (os : OfficeState) :
  reassignSeat playerId seat (reassignSeat playerId seat os) = reassignSeat playerId seat os.
Proof.
  unfold reassignSeat. rewrite update_character_tileMap.
  rewrite update_character_compose. apply update_character_ext.
  intros [i pal hue old act tool bub c r off d pth st rc]. unfold compose, tile. simpl.
  destruct (seatChairCell (tileMap os) seat) as [chair|]; simpl; [|done].
  destruct (findPath (tileMap os) (c, r) chair) as [[|q p]|] eqn:Hpath;
    simpl; rewrite ?Hpath; reflexivity.
Qed.

Lemma set_status_of_idempotent (playerId : Z) (status : PlayerStatus) (ps : list PlayerInfo) :
  set_status_of playerId status <$> (set_status_of playerId status <$> ps)
  = set_status_of playerId status <$> ps.
Proof.
  rewrite <- list_fmap_compose. apply list_fmap_ext. intros _ p _.
  unfold compose, set_status_of. destruct (decide (p_id p = playerId)) as [Heq|Hne]; simpl.
  - by rewrite decide_True.
  - by rewrite decide_False.
Qed.

Lemma set_seat_of_idempotent (playerId : Z) (seat : string) (ps : list PlayerInfo) :
  set_seat_of playerId seat <$> (set_seat_of playerId seat <$> ps)
  = set_seat_of playerId seat <$> ps.
Proof.
  rewrite <- list_fmap_compose. apply list_fmap_ext. intros _ p _.
  unfold compose, set_seat_of. destruct (decide (p_id p = playerId)) as [Heq|Hne]; simpl.
  - by rewrite decide_True.
  - by rewrite decide_False.
Qed.

(** C5: a status event applied twice in a row leaves the hook as one
    application does, in the Supabase hook and in the relay hook; so does a
    seat event. *)
Theorem status_and_seat_events_idempotent (playerId : Z) (h : Hook) :
  (forall myInfo status,
     onStatus myInfo playerId status (onStatus myInfo playerId status h)
     = onStatus myInfo playerId status h)
  /\ (forall status,
        onMessage (S2C_PlayerStatusChanged playerId status)
          (onMessage (S2C_PlayerStatusChanged playerId status) h)
        = onMessage (S2C_PlayerStatusChanged playerId status) h)
  /\ (forall seat,
        onMessage (S2C_PlayerSeatChanged playerId seat)
          (onMessage (S2C_PlayerSeatChanged playerId seat) h)
        = onMessage (S2C_PlayerSeatChanged playerId seat) h).
Proof.
  split; [|split].
  - intros myInfo status. unfold onStatus.
    destruct (decide (playerId = p_id myInfo)); [done|].
    unfold with_os. simpl. f_equal. apply (apply_status_idempotent playerId status).
  - intros status. simpl. unfold with_os, with_players. simpl. f_equal.
    + apply set_status_of_idempotent.
    + apply (apply_status_idempotent playerId status).
  - intros seat. simpl. unfold with_os, with_players. simpl. f_equal.
    + apply set_seat_of_idempotent.
    + apply reassignSeat_idempotent.
Qed.

(** ** The pathfinder *)

Lemma lookup_record_pred (cur : Cell) (new : list Cell) (pred : gmap Cell Cell) (k : Cell) :
  foldr (fun n p => <[n := cur]> p) pred new !! k
  = if decide (k ∈ new) then Some cur else pred !! k.
Proof.
  induction new as [|n new IH].
  - destruct (decide (k ∈ [])) as [Hin|_]; [by apply elem_of_nil in Hin | done].
  - cbn [foldr]. destruct (decide (k ∈ n :: new)) as [Hin|Hout].
    + destruct (decide (n = k)) as [->|Hne]; [by rewrite lookup_insert_eq|].
      rewrite lookup_insert_ne by done. rewrite IH.
      apply elem_of_cons in Hin as [->|Hin]; [done|]. by rewrite decide_True.
    + rewrite lookup_insert_ne by (intros ->; apply Hout, list_elem_of_here).
      rewrite IH, decide_False; [done|].
      intros Hin. by apply Hout, list_elem_of_further.
Qed.

Lemma dom_record_pred (cur : Cell) (new : list Cell) (pred : gmap Cell Cell) :
  dom (foldr (fun n p => <[n := cur]> p) pred new) = dom pred ∪ list_to_set new.
Proof.
  induction new as [|n new IH]; simpl.
  - set_solver.
  - rewrite dom_insert_L, IH. set_solver.
Qed.

Lemma bfs_pred_sound (tm : TileMap) (goal : Cell) (fuel : nat) (queue : list Cell)
    (seen : gset Cell) (pred pred' : gmap Cell Cell) :
  pred_sound tm pred -> bfs tm goal fuel queue seen pred = Some pred' -> pred_sound tm pred'.
Proof.
  revert queue seen pred. induction fuel as [|fuel IH]; intros queue seen pred Hok; simpl; [done|].
  destruct queue as [|cur rest]; [done|].
  destruct (decide (cur = goal)); [by intros [= <-]|].
  apply IH. intros k p. rewrite lookup_record_pred.
  destruct (decide (k ∈ filter (fun n => n ∉ seen) (neighbors tm cur))) as [Hin|_].
  - intros [= <-]. by apply list_elem_of_filter in Hin as [_ Hin].
  - apply Hok.
Qed.

Lemma walk_back_route (tm : TileMap) (pred : gmap Cell Cell) (start goal : Cell) (fuel : nat)
    (k : Cell) (acc p : list Cell) :
  pred_sound tm pred ->
  walk_back pred start fuel k acc = Some p ->
  is_route tm k acc -> last (k :: acc) = Some goal ->
  is_route tm start p /\ last (start :: p) = Some goal.
Proof.
  intros Hok. revert k acc. induction fuel as [|fuel IH]; intros k acc; simpl.
  - destruct (decide (k = start)) as [->|]; [|done]. by intros [= <-].
  - destruct (decide (k = start)) as [->|]; [by intros [= <-]|].
    destruct (pred !! k) as [q|] eqn:Hq; [|done].
    intros Hwalk Hroute Hlast. apply (IH q (k :: acc) Hwalk).
    + simpl. split; [by apply Hok | done].
    + by rewrite last_cons_cons.
Qed.

Lemma route_reachable (tm : TileMap) (a b : Cell) (p : list Cell) :
  is_route tm a p -> last (a :: p) = Some b -> reachable tm a b.
Proof.
  revert a. induction p as [|c p IH]; intros a; simpl.
  - intros _ [= <-]. apply rtc_refl.
  - intros [Hstep Hroute] Hlast.
    eapply rtc_l; [exact Hstep | by apply IH].
Qed.

(** A path the pathfinder returns is a route from the start that ends at the
    goal. *)
Lemma findPath_sound (tm : TileMap) (a b : Cell) (p : list Cell) :
  findPath tm a b = Some p -> is_route tm a p /\ last (a :: p) = Some b.
Proof.
  unfold findPath. destruct (decide (a = b)) as [->|Hne]; [by intros [= <-]|].
  destruct (bfs tm b (search_fuel tm) [a] {[a]} ∅) as [pred|] eqn:Hbfs; [|done].
  intros Hwalk. eapply walk_back_route; [|exact Hwalk|exact I|done].
  eapply bfs_pred_sound; [|exact Hbfs]. intros k q. by rewrite lookup_empty.
Qed.

Lemma findPath_nonempty (tm : TileMap) (a b : Cell) (p : list Cell) :
  a <> b -> findPath tm a b = Some p -> p <> [] /\ last p = Some b.
Proof.
  intros Hne Hp. apply findPath_sound in Hp as [_ Hlast].
  destruct p as [|c p]; [by injection Hlast|].
  split; [done|]. by rewrite last_cons_cons in Hlast.
Qed.

(** *** The search finds every reachable goal *)

Lemma isWalkable_in_bounds (tm : TileMap) (c : Cell) :
  isWalkable tm c.1 c.2 = true -> in_bounds tm c.
Proof.
  unfold isWalkable, kind_at. destruct c as [col row]. simpl.
  by destruct (decide (in_bounds tm (col, row))).
Qed.

Lemma in_bounds_grid_cells (tm : TileMap) (c : Cell) :
  in_bounds tm c -> c ∈ grid_cells tm.
Proof.
  destruct c as [col row]. unfold in_bounds, grid_cells. simpl. intros [Hc Hr].
  apply list_elem_of_fmap. exists (Z.to_nat col, Z.to_nat row). split.
  - simpl. f_equal; lia.
  - apply list_elem_of_In, in_prod; apply in_seq; lia.
Qed.

Lemma grid_cells_length (tm : TileMap) :
  length (grid_cells tm) = (Z.to_nat (tm_cols tm) * Z.to_nat (tm_rows tm))%nat.
Proof. unfold grid_cells. by rewrite length_fmap, length_prod, !length_seq. Qed.

Lemma neighbors_grid_cells (tm : TileMap) (c y : Cell) :
  y ∈ neighbors tm c -> y ∈ grid_cells tm.
Proof.
  unfold neighbors. intros Hy. apply list_elem_of_filter in Hy as [Hw _].
  by apply in_bounds_grid_cells, isWalkable_in_bounds.
Qed.

Lemma neighbors_NoDup (tm : TileMap) (c : Cell) : NoDup (neighbors tm c).
Proof.
  unfold neighbors. apply NoDup_filter. destruct c as [col row]. simpl.
  repeat (apply NoDup_cons; split;
          [rewrite ?elem_of_cons, elem_of_nil; intros Hin;
           repeat (destruct Hin as [Hin|Hin]); try done; injection Hin; lia |]).
  apply NoDup_nil_2.
Qed.

Lemma chain_mono (pred pred' : gmap Cell Cell) (start k : Cell) (n : nat) :
  pred ⊆ pred' -> chain pred start k n -> chain pred' start k n.
Proof.
  intros Hsub Hchain. induction Hchain as [|k p n Hne Hk _ IH]; [constructor|].
  eapply chain_step; [done | | exact IH].
  by eapply lookup_weaken.
Qed.

Lemma walk_back_chain (pred : gmap Cell Cell) (start k : Cell) (n fuel : nat) (acc : list Cell) :
  chain pred start k n -> (n <= fuel)%nat ->
  exists p, walk_back pred start fuel k acc = Some p.
Proof.
  intros Hchain. revert fuel acc.
  induction Hchain as [|k p n Hne Hk _ IH]; intros fuel acc Hfuel.
  - exists acc. destruct fuel; simpl; by rewrite decide_True.
  - destruct fuel as [|fuel]; [lia|]. simpl.
    rewrite decide_False by done. rewrite Hk. apply IH. lia.
Qed.

(** With the queue empty, everything reachable has been seen and is not the
    goal. *)
Lemma search_inv_exhausted (tm : TileMap) (start goal : Cell) (fuel : nat)
    (seen : gset Cell) (pred : gmap Cell Cell) :
  search_inv tm start goal fuel [] seen pred -> reachable tm start goal -> False.
Proof.
  intros Hinv Hreach.
  assert (Hall : forall a b, rtc (fun x y => y ∈ neighbors tm x) a b -> a ∈ seen -> b ∈ seen).
  { intros a b Hab. induction Hab as [|a c b Hstep _ IH]; [done|].
    intros Ha. apply IH.
    destruct (inv_closed _ _ _ _ _ _ _ Hinv a Ha) as [_ Hnb]; [apply not_elem_of_nil|].
    by apply Hnb. }
  assert (Hgoal : goal ∈ seen) by (eapply Hall; [exact Hreach | apply (inv_start _ _ _ _ _ _ _ Hinv)]).
  destruct (inv_closed _ _ _ _ _ _ _ Hinv goal Hgoal) as [Hne _]; [apply not_elem_of_nil | done].
Qed.

(** One round of the loop, on a cell that is not the goal, keeps what the
    search maintains, with one unit of fuel less. *)
Lemma search_inv_step (tm : TileMap) (start goal : Cell) (fuel : nat) (cur : Cell)
    (rest : list Cell) (seen : gset Cell) (pred : gmap Cell Cell) :
  search_inv tm start goal (S fuel) (cur :: rest) seen pred ->
  cur <> goal ->
  search_inv tm start goal fuel
    (rest ++ filter (fun n => n ∉ seen) (neighbors tm cur))
    (seen ∪ list_to_set (filter (fun n => n ∉ seen) (neighbors tm cur)))
    (foldr (fun n p => <[n := cur]> p) pred (filter (fun n => n ∉ seen) (neighbors tm cur))).
Proof.
  intros [Hstart Hqueue Hclosed Hchain Hpred Hgrid Hfuel] Hcur.
  set (new := filter (fun n => n ∉ seen) (neighbors tm cur)).
  assert (Hnew : forall y, y ∈ new <-> (y ∉ seen) /\ (y ∈ neighbors tm cur))
    by (intros y; exact (list_elem_of_filter (fun n => n ∉ seen) (neighbors tm cur) y)).
  assert (Hsub : pred ⊆ foldr (fun n p => <[n := cur]> p) pred new).
  { apply map_subseteq_spec. intros k v Hk. rewrite lookup_record_pred.
    destruct (decide (k ∈ new)) as [Hin|]; [|done].
    apply Hnew in Hin as [Hout _]. destruct Hout. apply Hpred. by eapply elem_of_dom_2. }
  split.
  - set_solver.
  - intros x Hx. apply elem_of_app in Hx as [Hx|Hx].
    + apply elem_of_union_l, Hqueue. by apply list_elem_of_further.
    + by apply elem_of_union_r, elem_of_list_to_set.
  - intros x Hx Hout.
    assert (Hseen : x ∈ seen).
    { apply elem_of_union in Hx as [Hx|Hx]; [done|].
      destruct Hout. apply elem_of_app. right. by apply elem_of_list_to_set in Hx. }
    destruct (decide (x = cur)) as [->|Hne].
    + split; [done|]. intros y Hy.
      destruct (decide (y ∈ seen)) as [Hy'|Hy']; [by apply elem_of_union_l|].
      apply elem_of_union_r, elem_of_list_to_set, Hnew. done.
    + destruct (Hclosed x Hseen) as [Hgoal Hnb].
      { rewrite elem_of_cons. intros [?|Hin]; [done|].
        apply Hout, elem_of_app. by left. }
      split; [done|]. intros y Hy. by apply elem_of_union_l, Hnb.
  - intros x Hx.
    destruct (decide (x ∈ seen)) as [Hseen|Hfresh].
    + destruct (Hchain x Hseen) as (n & Hn & Hc). exists n. split.
      * apply map_subseteq_size in Hsub. lia.
      * by eapply chain_mono.
    + assert (Hin : x ∈ new).
      { apply elem_of_union in Hx as [Hx|Hx]; [done | by apply elem_of_list_to_set in Hx]. }
      destruct (Hchain cur) as (n & Hn & Hc); [apply Hqueue, list_elem_of_here|].
      exists (S n). split.
      * assert (Hlt : (size pred < size (foldr (fun n p => <[n := cur]> p) pred new))%nat).
        { apply map_subset_size. split; [done|]. intros Hsup.
          apply Hfresh, Hpred.
          apply (subseteq_dom _ _ Hsup). rewrite dom_record_pred.
          by apply elem_of_union_r, elem_of_list_to_set. }
        lia.
      * eapply chain_step.
        -- intros ->. done.
        -- rewrite lookup_record_pred. by rewrite decide_True.
        -- by eapply chain_mono.
  - rewrite dom_record_pred. set_solver.
  - intros x Hx. apply elem_of_union in Hx as [Hx|Hx]; [by apply Hgrid|].
    apply elem_of_union_r, elem_of_list_to_set.
    apply elem_of_list_to_set, Hnew in Hx as [_ Hx]. by eapply neighbors_grid_cells.
  - set (U := {[start]} ∪ list_to_set (grid_cells tm) : gset Cell) in *.
    assert (Hsplit : U ∖ seen = (U ∖ (seen ∪ list_to_set new)) ∪ list_to_set new).
    { apply set_eq. intros x.
      rewrite elem_of_union, !elem_of_difference, elem_of_union, elem_of_list_to_set.
      split.
      - intros [HU Hs]. destruct (decide (x ∈ new)); [by right | left; tauto].
      - intros [[HU Hs]|Hin]; [tauto|].
        apply Hnew in Hin as [Hs Hnb]. split; [|done].
        apply elem_of_union_r, elem_of_list_to_set. by eapply neighbors_grid_cells. }
    assert (Hsize : size (U ∖ seen)
                    = (size (U ∖ (seen ∪ list_to_set new)) + length new)%nat).
    { rewrite Hsplit at 1. rewrite size_union by set_solver.
      rewrite size_list_to_set; [done|].
      apply NoDup_filter, neighbors_NoDup. }
    rewrite length_app. simpl in Hfuel. lia.
Qed.

(** The search returns, and with a predecessor map that links the goal to
    the start, whenever the goal can be reached. *)
Lemma bfs_complete (tm : TileMap) (start goal : Cell) (fuel : nat) (queue : list Cell)
    (seen : gset Cell) (pred : gmap Cell Cell) :
  search_inv tm start goal fuel queue seen pred ->
  reachable tm start goal ->
  exists pred' n,
    bfs tm goal fuel queue seen pred = Some pred'
    /\ (n <= size pred')%nat /\ chain pred' start goal n.
Proof.
  revert queue seen pred. induction fuel as [|fuel IH]; intros queue seen pred Hinv Hreach.
  - destruct queue as [|cur rest].
    + destruct (search_inv_exhausted _ _ _ _ _ _ Hinv Hreach).
    + pose proof (inv_fuel _ _ _ _ _ _ _ Hinv) as Hfuel. simpl in Hfuel. lia.
  - destruct queue as [|cur rest].
    + destruct (search_inv_exhausted _ _ _ _ _ _ Hinv Hreach).
    + simpl. destruct (decide (cur = goal)) as [->|Hne].
      * destruct (inv_chain _ _ _ _ _ _ _ Hinv goal) as (n & Hn & Hc).
        { apply (inv_queue _ _ _ _ _ _ _ Hinv), list_elem_of_here. }
        by exists pred, n.
      * apply IH; [|done]. by apply search_inv_step.
Qed.

Lemma size_list_to_set_le (l : list Cell) :
  (size (list_to_set l : gset Cell) <= length l)%nat.
Proof.
  induction l as [|c l IH].
  - by rewrite list_to_set_nil, size_empty.
  - rewrite list_to_set_cons, size_union_alt, size_singleton. simpl.
    apply le_n_S. etrans; [|exact IH]. apply subseteq_size. set_solver.
Qed.

Lemma search_inv_initial (tm : TileMap) (start goal : Cell) :
  search_inv tm start goal (search_fuel tm) [start] {[start]} ∅.
Proof.
  split.
  - set_solver.
  - intros x Hx. apply list_elem_of_singleton in Hx. set_solver.
  - intros x Hx Hout. apply elem_of_singleton in Hx as ->.
    destruct Hout. apply list_elem_of_here.
  - intros x Hx. apply elem_of_singleton in Hx as ->. exists 0%nat. split; [lia | constructor].
  - rewrite dom_empty_L. set_solver.
  - set_solver.
  - unfold search_fuel. simpl.
    assert (Hle : (size (({[start]} ∪ list_to_set (grid_cells tm)) ∖ {[start]} : gset Cell)
                   <= length (grid_cells tm))%nat).
    { etrans; [|apply size_list_to_set_le]. apply subseteq_size. set_solver. }
    rewrite grid_cells_length in Hle. lia.
Qed.

(** The pathfinder returns a path whenever the goal can be reached. *)
Lemma findPath_complete (tm : TileMap) (a b : Cell) :
  reachable tm a b -> exists p, findPath tm a b = Some p.
Proof.
  intros Hreach. unfold findPath. destruct (decide (a = b)) as [|Hne]; [by exists []|].
  destruct (bfs_complete tm a b _ _ _ _ (search_inv_initial tm a b) Hreach)
    as (pred & k & -> & Hk & Hchain).
  by eapply walk_back_chain.
Qed.

Lemma findPath_unreachable (tm : TileMap) (a b : Cell) :
  ~ reachable tm a b -> findPath tm a b = None.
Proof.
  intros Hun. destruct (findPath tm a b) as [p|] eqn:Hp; [|done].
  destruct Hun. apply findPath_sound in Hp as [Hroute Hlast].
  by eapply route_reachable.
Qed.

(** C4: [findPath(A, A)] is the empty path, and [findPath(A, B)] is none
    whenever [B] cannot be reached from [A]; none is returned in no other
    case. *)
Theorem findPath_same_and_unreachable (tm : TileMap) (a b : Cell) :
  findPath tm a a = Some []
  /\ (~ reachable tm a b -> findPath tm a b = None)
  /\ (findPath tm a b = None -> ~ reachable tm a b).
Proof.
  split; [|split].
  - unfold findPath. by rewrite decide_True.
  - apply findPath_unreachable.
  - intros Hnone Hreach. apply findPath_complete in Hreach as [p Hp]. congruence.
Qed.

Lemma walled_corridor_disconnected : ~ reachable walled_corridor (0, 0) (2, 0).
Proof.
  intros Hreach. apply rtc_inv in Hreach as [Heq | (y & Hstep & _)]; [discriminate|].
  change (neighbors walled_corridor (0, 0)) with (@nil Cell) in Hstep.
  by apply elem_of_nil in Hstep.
Qed.

Lemma findPath_same_and_unreachable_witness :
  findPath walled_corridor (0, 0) (2, 0) = None.
Proof.
  apply (findPath_same_and_unreachable walled_corridor (0, 0) (2, 0)).
  exact walled_corridor_disconnected.
Defined.

(** The scenario of the specification: on a 10 x 10 grid that is all floor,
    the path from (0,0) to (0,9) has nine steps and ends at (0,9). *)
Example findPath_ten_by_ten :
  findPath (uniform_map 10 10 tile_floor) (0, 0) (0, 9)
  = Some [(0, 1); (0, 2); (0, 3); (0, 4); (0, 5); (0, 6); (0, 7); (0, 8); (0, 9)].
Proof. vm_compute. reflexivity. Qed.

(** ** Position events *)

Lemma update_character_id (id : Z) (os : OfficeState) :
  update_character id (fun ch => ch) os = os.
Proof.
  unfold update_character. destruct (characters os !! id) as [ch|] eqn:Hch; [|done].
  unfold with_characters. rewrite insert_id by done. by destruct os.
Qed.

Lemma with_os_same (h : Hook) : with_os h (officeState h) = h.
Proof. by destruct h. Qed.

Lemma walkToTile_unreachable (id col row : Z) (os : OfficeState) (ch : Character) :
  characters os !! id = Some ch ->
  findPath (tileMap os) (tile ch) (col, row) = None ->
  walkToTile id col row os = os.
Proof.
  intros Hch Hnone. unfold walkToTile, update_character. rewrite Hch, Hnone.
  unfold with_characters. rewrite insert_id by done. by destruct os.
Qed.

Lemma walkToTile_found (id col row : Z) (os : OfficeState) (ch : Character) (p : list Cell) :
  characters os !! id = Some ch ->
  findPath (tileMap os) (tile ch) (col, row) = Some p ->
  characters (walkToTile id col row os) !! id = Some (assign_path p ch).
Proof.
  intros Hch Hp. unfold walkToTile. rewrite update_character_lookup, Hch. simpl.
  by rewrite Hp.
Qed.

Lemma assign_path_fields (p : list Cell) (ch : Character) :
  path (assign_path p ch) = p /\ tile (assign_path p ch) = tile ch.
Proof. by destruct p. Qed.

(** C2, as the code has it: a position event about the local participant is
    ignored; for a tracked character of another participant, a distance
    over 10 sets the tile to the target at once, with an empty queued path;
    a distance from 1 to 10 issues a walk, which queues a non-empty route
    ending at the target when the target can be reached from the character's
    tile and changes nothing when it cannot; distance 0 changes nothing. *)
Theorem move_event (myInfo : PlayerInfo) (playerId col row : Z) (h : Hook) (ch : Character) :
  characters (officeState h) !! playerId = Some ch ->
  playerId <> p_id myInfo ->
  let dist := Z.abs (tileCol ch - col) + Z.abs (tileRow ch - row) in
  let tm := tileMap (officeState h) in
  let h' := onMove myInfo playerId col row h in
  onMove myInfo (p_id myInfo) col row h = h
  /\ (10 < dist ->
      exists ch', characters (officeState h') !! playerId = Some ch'
                  /\ tile ch' = (col, row) /\ path ch' = [])
  /\ (0 < dist <= 10 ->
      h' = with_os h (walkToTile playerId col row (officeState h))
      /\ (reachable tm (tile ch) (col, row) ->
          exists ch', characters (officeState h') !! playerId = Some ch'
                      /\ path ch' <> [] /\ last (path ch') = Some (col, row)
                      /\ is_route tm (tile ch) (path ch') /\ tile ch' = tile ch)
      /\ (~ reachable tm (tile ch) (col, row) -> h' = h))
  /\ (dist = 0 -> h' = h).
Proof.
  intros Hch Hne dist tm h'.
  split; [unfold onMove; by rewrite decide_True|].
  assert (Hmove : h' = if 10 <? dist
                       then with_os h (teleportToTile playerId col row (officeState h))
                       else if 0 <? dist
                            then with_os h (walkToTile playerId col row (officeState h))
                            else h).
  { unfold h', onMove. rewrite decide_False by done. by rewrite Hch. }
  split; [|split].
  - intros Hfar. rewrite Hmove. destruct (Z.ltb_spec 10 dist) as [_|]; [|lia].
    exists (set_path [] (set_tile (col, row) ch)). simpl.
    unfold teleportToTile. by rewrite update_character_lookup, Hch.
  - intros [Hpos Hnear]. rewrite Hmove.
    destruct (Z.ltb_spec 10 dist) as [|_]; [lia|].
    destruct (Z.ltb_spec 0 dist) as [_|]; [|lia].
    split; [done|].
    assert (Hdiff : tile ch <> (col, row)).
    { unfold tile. intros [= Hc Hr]. unfold dist in Hpos. lia. }
    split.
    + intros Hreach. destruct (findPath_complete _ _ _ Hreach) as [p Hp].
      exists (assign_path p ch). simpl.
      destruct (assign_path_fields p ch) as [-> ->].
      destruct (findPath_nonempty _ _ _ _ Hdiff Hp) as [Hnil Hlast].
      destruct (findPath_sound _ _ _ _ Hp) as [Hroute _].
      split; [by eapply walkToTile_found|]. done.
    + intros Hun. simpl.
      rewrite (walkToTile_unreachable _ _ _ _ ch Hch); [apply with_os_same|].
      by apply findPath_unreachable.
  - intros Hzero. rewrite Hmove.
    destruct (Z.ltb_spec 10 dist) as [|_]; [lia|].
    by destruct (Z.ltb_spec 0 dist) as [|_]; [lia|].
Qed.

Lemma move_event_witness :
  exists ch', characters (officeState
                (onMove (mkPlayerInfo 1 "ann"%string 0 idle None) 2 20 0 two_in_corridor)) !! 2
              = Some ch'
              /\ tile ch' = (20, 0) /\ path ch' = [].
Proof.
  edestruct (move_event (mkPlayerInfo 1 "ann"%string 0 idle None) 2 20 0 two_in_corridor)
    as (_ & Hfar & _); [vm_compute; reflexivity | simpl; lia |].
  apply Hfar. vm_compute. reflexivity.
Defined.

(** C2, as stated, fails twice: a position event about the local
    participant's character, 20 tiles away, leaves it where it is; and a
    position event 2 tiles away, behind the wall, leaves the queued path of
    the character empty. *)
Lemma move_event_not_as_stated :
  let me := mkPlayerInfo 1 "ann"%string 0 idle None in
  tile <$> characters (officeState two_in_corridor) !! 1 = Some (0, 0)
  /\ tile <$> characters (officeState (onMove me 1 20 0 two_in_corridor)) !! 1 = Some (0, 0)
  /\ tile <$> characters (officeState two_in_corridor) !! 2 = Some (0, 0)
  /\ path <$> characters (officeState (onMove me 2 2 0 two_in_corridor)) !! 2 = Some [].
Proof. repeat split; vm_compute; reflexivity. Qed.

(** The seat scenario of the specification: binding character 1 to "desk-1"
    queues a route that avoids the desk and ends on the chair cell (3,4). *)
Example reassignSeat_walks_to_chair :
  (fun ch => (seatId ch, state ch, last (path ch), length (path ch)))
    <$> characters (reassignSeat 1 "desk-1"%string office_with_desk) !! 1
  = Some (Some "desk-1"%string, ch_walking, Some (3, 4), 7%nat)
  /\ isWalkable (tileMap office_with_desk) 3 3 = false.
Proof. split; vm_compute; reflexivity. Qed.

(** A room code drawn with a generator that counts up. *)
Example generateRoomId_counting :
  generateRoomId (fun n => mkRandom (N.of_nat n) 7) 0 = ("AEHKMP"%string, 6%nat).
Proof. vm_compute. reflexivity. Qed.

(** ** The relay server: what it keeps true *)

(** *** The players of a room as an insertion-ordered map *)

Lemma map_get_is_Some {V : Type} (k : WebSocket) (m : list (WebSocket * V)) :
  is_Some (map_get k m) <-> k ∈ (fst <$> m).
Proof.
  induction m as [|[k' v'] m IH]; simpl.
  - split; [by intros [? ?] | by intros ?%elem_of_nil].
  - destruct (decide (k' = k)) as [->|Hne].
    + split; [intros _; apply list_elem_of_here | by eexists].
    + rewrite IH, elem_of_cons. naive_solver.
Qed.

Lemma map_get_elem_of {V : Type} (k : WebSocket) (v : V) (m : list (WebSocket * V)) :
  map_get k m = Some v -> (k, v) ∈ m.
Proof.
  induction m as [|[k' v'] m IH]; simpl; [done|].
  destruct (decide (k' = k)) as [->|Hne].
  - intros [= ->]. apply list_elem_of_here.
  - intros Hget. by apply list_elem_of_further, IH.
Qed.

Lemma map_get_NoDup {V : Type} (k : WebSocket) (v : V) (m : list (WebSocket * V)) :
  NoDup (fst <$> m) -> (k, v) ∈ m -> map_get k m = Some v.
Proof.
  induction m as [|[k' v'] m IH]; simpl; [by intros _ ?%elem_of_nil|].
  intros [Hnotin Hnd]%NoDup_cons Hin.
  apply elem_of_cons in Hin as [[= <- <-]|Hin]; [by rewrite decide_True|].
  rewrite decide_False; [by apply IH|].
  intros ->. apply Hnotin. apply list_elem_of_fmap. by exists (k, v).
Qed.

Lemma map_get_set_eq {V : Type} (k : WebSocket) (v : V) (m : list (WebSocket * V)) :
  map_get k (map_set k v m) = Some v.
Proof.
  induction m as [|[k' v'] m IH]; simpl.
  - by rewrite decide_True.
  - destruct (decide (k' = k)) as [->|Hne]; simpl.
    + by rewrite decide_True.
    + by rewrite decide_False.
Qed.

Lemma map_get_set_ne {V : Type} (k k' : WebSocket) (v : V) (m : list (WebSocket * V)) :
  k' <> k -> map_get k' (map_set k v m) = map_get k' m.
Proof.
  intros Hne. induction m as [|[k0 v0] m IH]; simpl.
  - by rewrite decide_False.
  - destruct (decide (k0 = k)) as [->|Hk0]; simpl.
    + by rewrite !decide_False.
    + destruct (decide (k0 = k')); [done | apply IH].
Qed.

Lemma map_set_elem_of {V : Type} (k : WebSocket) (v : V) (m : list (WebSocket * V)) e :
  NoDup (fst <$> m) ->
  e ∈ map_set k v m -> e = (k, v) \/ (e ∈ m /\ e.1 <> k).
Proof.
  induction m as [|[k' v'] m IH]; simpl.
  - intros _ ->%list_elem_of_singleton. by left.
  - intros [Hnotin Hnd]%NoDup_cons. destruct (decide (k' = k)) as [->|Hne].
    + intros [->|Hin]%elem_of_cons; [by left|].
      right. split; [by apply list_elem_of_further|].
      intros Heq. apply Hnotin. apply list_elem_of_fmap. by exists e.
    + intros [->|Hin]%elem_of_cons.
      * right. split; [apply list_elem_of_here | done].
      * destruct (IH Hnd Hin) as [->|[Hin' Hne']]; [by left|].
        right. split; [by apply list_elem_of_further | done].
Qed.

Lemma map_set_keys {V : Type} (k : WebSocket) (v : V) (m : list (WebSocket * V)) :
  fst <$> map_set k v m
  = if decide (k ∈ (fst <$> m)) then fst <$> m else (fst <$> m) ++ [k].
Proof.
  induction m as [|[k' v'] m IH].
  - destruct (decide (k ∈ (fst <$> ([] : list (WebSocket * V))))) as [Hin|_]; [|done].
    by apply elem_of_nil in Hin.
  - cbn [map_set]. destruct (decide (k' = k)) as [->|Hne].
    + rewrite decide_True; [done|]. rewrite fmap_cons. apply list_elem_of_here.
    + rewrite !fmap_cons, IH. simpl.
      destruct (decide (k ∈ (fst <$> m))) as [Hin|Hout].
      * by rewrite decide_True by (by apply list_elem_of_further).
      * rewrite decide_False; [done|]. rewrite elem_of_cons. naive_solver.
Qed.

(** Replacing or appending a player under a fresh id keeps the ids
    distinct. *)
Lemma map_set_ids (k : WebSocket) (v : Player) (m : list (WebSocket * Player)) :
  NoDup ((fun e => p_id (pl_info e.2)) <$> m) ->
  (forall e, e ∈ m -> p_id (pl_info e.2) < p_id (pl_info v)) ->
  NoDup ((fun e => p_id (pl_info e.2)) <$> map_set k v m)
  /\ (forall e, e ∈ map_set k v m -> e = (k, v) \/ e ∈ m).
Proof.
  induction m as [|[k' v'] m IH]; simpl; intros Hnd Hlt.
  - split; [apply NoDup_singleton|]. intros e ->%list_elem_of_singleton. by left.
  - apply NoDup_cons in Hnd as [Hnotin Hnd].
    destruct (decide (k' = k)) as [->|Hne]; simpl.
    + split.
      * apply NoDup_cons. split; [|done].
        intros (e & Heq & Hin)%list_elem_of_fmap.
        specialize (Hlt e (list_elem_of_further _ _ _ Hin)). lia.
      * intros e [->|Hin]%elem_of_cons; [by left|]. right. by apply list_elem_of_further.
    + destruct (IH Hnd) as [Hnd' Hsub].
      { intros e He. apply Hlt. by apply list_elem_of_further. }
      split.
      * apply NoDup_cons. split; [|done].
        intros (e & Heq & Hin)%list_elem_of_fmap. simpl in Heq.
        destruct (Hsub e Hin) as [->|Hin'].
        -- specialize (Hlt (k', v') (list_elem_of_here _ _)). simpl in *. lia.
        -- apply Hnotin. apply list_elem_of_fmap. by exists e.
      * intros e [->|Hin]%elem_of_cons; [right; apply list_elem_of_here|].
        destruct (Hsub e Hin) as [->|Hin']; [by left|]. right. by apply list_elem_of_further.
Qed.

Lemma map_get_delete_eq {V : Type} (k : WebSocket) (m : list (WebSocket * V)) :
  map_get k (map_delete k m) = None.
Proof.
  unfold map_delete. induction m as [|[k' v'] m IH]; [done|].
  rewrite filter_cons. simpl. destruct (decide (k' <> k)) as [Hne|Heq]; simpl.
  - by rewrite decide_False.
  - done.
Qed.

Lemma map_get_delete_ne {V : Type} (k k' : WebSocket) (m : list (WebSocket * V)) :
  k' <> k -> map_get k' (map_delete k m) = map_get k' m.
Proof.
  intros Hne. unfold map_delete. induction m as [|[k0 v0] m IH]; [done|].
  rewrite filter_cons. simpl. destruct (decide (k0 <> k)) as [Hk0|Hk0]; simpl.
  - destruct (decide (k0 = k')); [done | apply IH].
  - apply dec_stable in Hk0 as ->. by rewrite decide_False.
Qed.

(** *** Rooms stay well kept *)

Lemma room_ok_new (id : string) : room_ok (mkRoom id [] 1 None).
Proof.
  split; simpl; try (by intros e ?%elem_of_nil); try apply NoDup_nil_2. lia.
Qed.

Lemma room_ok_addPlayer (r : Room) (sock : WebSocket) (name : string) (characterIndex : Z) :
  room_ok r -> room_ok (addPlayer r sock name characterIndex).1.
Proof.
  intros [Hkeys Hsock Hids Hrange Hnext]. unfold addPlayer. simpl.
  set (info := mkPlayerInfo (nextPlayerId r) name (Z.rem characterIndex 6) idle None).
  destruct (map_set_ids sock (mkPlayer sock info) (room_players r) Hids) as [Hids' Hsub].
  { intros e He. simpl. apply Hrange in He. lia. }
  split; simpl.
  - rewrite map_set_keys. destruct (decide _) as [|Hout]; [done|].
    apply NoDup_app. split; [done|]. split; [|apply NoDup_singleton].
    intros x Hx ->%list_elem_of_singleton. done.
  - intros e He. destruct (Hsub e He) as [->|Hin]; [done | by apply Hsock].
  - exact Hids'.
  - intros e He. destruct (Hsub e He) as [->|Hin]; simpl; [lia|].
    apply Hrange in Hin. lia.
  - lia.
Qed.

Lemma room_ok_set_info (r : Room) (sock : WebSocket) (f : PlayerInfo -> PlayerInfo) :
  (forall i, p_id (f i) = p_id i) -> room_ok r -> room_ok (set_info r sock f).
Proof.
  intros Hf [Hkeys Hsock Hids Hrange Hnext]. unfold set_info.
  set (g := fun e : WebSocket * Player =>
              if decide (e.1 = sock)
              then (e.1, mkPlayer (pl_ws e.2) (f (pl_info e.2))) else e).
  change (map g (room_players r)) with (g <$> room_players r).
  assert (Hg : forall e, (g e).1 = e.1 /\ pl_ws (g e).2 = pl_ws e.2
                         /\ p_id (pl_info (g e).2) = p_id (pl_info e.2)).
  { intros e. unfold g. destruct (decide _); simpl; by rewrite ?Hf. }
  split; simpl.
  - rewrite <- list_fmap_compose.
    erewrite list_fmap_ext; [exact Hkeys|]. intros _ e _. apply Hg.
  - intros e (e0 & -> & Hin)%list_elem_of_fmap.
    destruct (Hg e0) as (-> & -> & _). by apply Hsock.
  - rewrite <- list_fmap_compose.
    erewrite list_fmap_ext; [exact Hids|]. intros _ e _. apply Hg.
  - intros e (e0 & -> & Hin)%list_elem_of_fmap.
    destruct (Hg e0) as (_ & _ & ->). by apply Hrange.
  - done.
Qed.

Lemma room_ok_removePlayer (r : Room) (sock : WebSocket) :
  room_ok r -> room_ok (removePlayer r sock).1.
Proof.
  intros Hok. unfold removePlayer. destruct (map_get sock (room_players r)); [|done].
  destruct Hok as [Hkeys Hsock Hids Hrange Hnext]. unfold map_delete.
  split; simpl.
  - eapply sublist_NoDup; [exact Hkeys|]. apply fmap_sublist, sublist_filter.
  - intros e [_ Hin]%list_elem_of_filter. by apply Hsock.
  - eapply sublist_NoDup; [exact Hids|]. apply fmap_sublist, sublist_filter.
  - intros e [_ Hin]%list_elem_of_filter. by apply Hrange.
  - done.
Qed.

Lemma room_ok_timer (r : Room) (t : option nat) :
  room_ok r -> room_ok (mkRoom (room_id r) (room_players r) (nextPlayerId r) t).
Proof. by intros [? ? ? ? ?]. Qed.

(** *** The server stays well kept *)

Lemma server_ok_init : server_ok server_init.
Proof. split; simpl; intros ? ?; by rewrite lookup_empty. Qed.

Lemma server_ok_create (fuel : nat) (rs : WebSocket -> Z) (rng : Rng) (n : nat) (s : Server)
    (sock : WebSocket) (playerName : string) (characterIndex : Z) m' n' out :
  server_ok s ->
  handleCreateRoom fuel rs rng n (manager s) sock playerName characterIndex = Some (m', n', out) ->
  server_ok (mkServer m' (timers s) (next_timer s)).
Proof.
  intros [Hrooms Hws Hstore Htimers]. unfold handleCreateRoom.
  destruct (fresh_room_id fuel rng n (rooms (manager s))) as [[roomId k]|] eqn:Hfresh; [|done].
  apply fresh_room_id_sound in Hfresh as [Hfree _].
  set (ref := fresh (dom (store (manager s)))).
  assert (Hnew : store (manager s) !! ref = None) by apply not_elem_of_dom, is_fresh.
  simpl. intros [= <- <- <-].
  assert (Hother : forall ref' room, store (manager s) !! ref' = Some room -> ref' <> ref)
    by (intros ref' room Hlk ->; congruence).
  assert (Hid : forall room ref', rooms (manager s) !! room_id room = Some ref' ->
                                  room_id room <> roomId)
    by (intros room ref' Hlk Heq; rewrite Heq in Hlk; congruence).
  split; simpl.
  - intros id ref'. destruct (decide (roomId = id)) as [<-|Hne].
    + rewrite lookup_insert_eq. intros [= <-]. rewrite lookup_insert_eq. by eexists.
    + rewrite lookup_insert_ne by done. intros Hlk.
      destruct (Hrooms _ _ Hlk) as (room & Hroom & Hrid).
      exists room. by rewrite lookup_insert_ne by (symmetry; eauto).
  - intros sock' ref'. destruct (decide (sock = sock')) as [<-|Hne].
    + rewrite lookup_insert_eq. intros [= <-]. rewrite lookup_insert_eq.
      eexists. split; [done|]. simpl. rewrite decide_True by done.
      split; [by eexists | by rewrite lookup_insert_eq].
    + rewrite lookup_insert_ne by done. intros Hlk.
      destruct (Hws _ _ Hlk) as (room & Hroom & Hin & Hreg).
      exists room. rewrite lookup_insert_ne by (symmetry; eauto).
      split; [done|]. split; [done|]. rewrite lookup_insert_ne; [done|].
      symmetry. eauto.
  - intros ref' room. destruct (decide (ref = ref')) as [<-|Hne].
    + rewrite lookup_insert_eq. intros [= <-].
      apply (room_ok_addPlayer (mkRoom roomId [] 1 None)), room_ok_new.
    + rewrite lookup_insert_ne by done. apply Hstore.
  - intros t ref' Ht. destruct (Htimers _ _ Ht) as (Hlt & room & Hroom & Hempty & Hct & Hreg).
    split; [done|]. exists room. rewrite lookup_insert_ne by (symmetry; eauto).
    split; [done|]. split; [done|]. split; [done|].
    rewrite lookup_insert_ne; [done|]. symmetry. eauto.
Qed.

Lemma set_info_keys (r : Room) (sock : WebSocket) (f : PlayerInfo -> PlayerInfo) :
  fst <$> room_players (set_info r sock f) = fst <$> room_players r.
Proof.
  unfold set_info. simpl.
  set (g := fun e : WebSocket * Player =>
              if decide (e.1 = sock)
              then (e.1, mkPlayer (pl_ws e.2) (f (pl_info e.2))) else e).
  change (map g (room_players r)) with (g <$> room_players r).
  rewrite <- list_fmap_compose. apply list_fmap_ext. intros _ e _.
  unfold g, compose. by destruct (decide _).
Qed.

Lemma server_ok_set_info (s : Server) (sock : WebSocket) (ref : nat) (room : Room)
    (f : PlayerInfo -> PlayerInfo) :
  server_ok s ->
  store (manager s) !! ref = Some room ->
  (forall i, p_id (f i) = p_id i) ->
  server_ok (mkServer
               {| store := <[ref := set_info room sock f]> (store (manager s));
                  rooms := rooms (manager s);
                  wsToRoom := wsToRoom (manager s) |}
               (timers s) (next_timer s)).
Proof.
  intros [Hrooms Hws Hstore Htimers] Hroom Hf.
  split; simpl.
  - intros id ref' Hlk. destruct (Hrooms _ _ Hlk) as (room' & Hroom' & Hrid).
    destruct (decide (ref = ref')) as [<-|Hne].
    + rewrite lookup_insert_eq. eexists. split; [done|]. simpl. congruence.
    + rewrite lookup_insert_ne by done. eauto.
  - intros sock' ref' Hlk. destruct (Hws _ _ Hlk) as (room' & Hroom' & Hin & Hreg).
    destruct (decide (ref = ref')) as [<-|Hne].
    + rewrite lookup_insert_eq. eexists. split; [done|].
      assert (room' = room) as -> by congruence.
      split; [|done]. apply map_get_is_Some. rewrite set_info_keys.
      by apply map_get_is_Some.
    + rewrite lookup_insert_ne by done. eauto.
  - intros ref' room'. destruct (decide (ref = ref')) as [<-|Hne].
    + rewrite lookup_insert_eq. intros [= <-]. apply room_ok_set_info; eauto.
    + rewrite lookup_insert_ne by done. apply Hstore.
  - intros t ref' Ht. destruct (Htimers _ _ Ht) as (Hlt & room' & Hroom' & Hempty & Hct & Hreg).
    split; [done|]. destruct (decide (ref = ref')) as [<-|Hne].
    + rewrite lookup_insert_eq. eexists. split; [done|].
      assert (room' = room) as -> by congruence.
      unfold set_info. simpl. by rewrite Hempty.
    + rewrite lookup_insert_ne by done. eauto.
Qed.

Lemma server_ok_join (rs : WebSocket -> Z) (s : Server) (sock : WebSocket)
    (roomId playerName : string) (characterIndex : Z) :
  server_ok s ->
  server_ok (mkServer
               (handleJoinRoom rs (manager s) sock roomId playerName characterIndex).1
               (match cleared_timer (manager s) (C2S_JoinRoom roomId playerName characterIndex) with
                | Some t => delete t (timers s)
                | None => timers s
                end)
               (next_timer s)).
Proof.
  intros Hok. pose proof Hok as [Hrooms Hws Hstore Htimers].
  unfold handleJoinRoom, cleared_timer.
  destruct (rooms (manager s) !! roomId) as [ref|] eqn:Hlk; simpl; [|by destruct s].
  destruct (Hrooms _ _ Hlk) as (room & Hroom & Hrid).
  unfold with_room. rewrite Hroom. simpl.
  set (timers' := match cleanupTimer room with
                  | Some t => delete t (timers s)
                  | None => timers s
                  end).
  assert (Htimers' : forall t ref', timers' !! t = Some ref' ->
                                    timers s !! t = Some ref' /\ cleanupTimer room <> Some t).
  { intros t ref'. unfold timers'. destruct (cleanupTimer room) as [t0|].
    - destruct (decide (t0 = t)) as [->|Hne]; [by rewrite lookup_delete_eq|].
      rewrite lookup_delete_ne by done. intros H. split; [done | congruence].
    - done. }
  clearbody timers'.
  split; simpl.
  - intros id ref' Hlk'. destruct (Hrooms _ _ Hlk') as (room' & Hroom' & Hrid').
    destruct (decide (ref = ref')) as [<-|Hne].
    + rewrite lookup_insert_eq. eexists. split; [done|]. simpl. congruence.
    + rewrite lookup_insert_ne by done. eauto.
  - intros sock' ref'. destruct (decide (sock = sock')) as [<-|Hne].
    + rewrite lookup_insert_eq. intros [= <-]. rewrite lookup_insert_eq.
      eexists. split; [done|]. simpl. rewrite map_get_set_eq.
      split; [by eexists | congruence].
    + rewrite lookup_insert_ne by done. intros Hlk'.
      destruct (Hws _ _ Hlk') as (room' & Hroom' & Hin & Hreg).
      destruct (decide (ref = ref')) as [<-|Hne'].
      * rewrite lookup_insert_eq. eexists. split; [done|].
        assert (room' = room) as -> by congruence. simpl.
        rewrite map_get_set_ne by done. done.
      * rewrite lookup_insert_ne by done. eauto.
  - intros ref' room'. destruct (decide (ref = ref')) as [<-|Hne].
    + rewrite lookup_insert_eq. intros [= <-].
      apply (room_ok_addPlayer room). eauto.
    + rewrite lookup_insert_ne by done. apply Hstore.
  - intros t ref' Ht. apply Htimers' in Ht as [Ht Hnot].
    destruct (Htimers _ _ Ht) as (Hlt & room' & Hroom' & Hempty & Hct & Hreg).
    split; [done|]. destruct (decide (ref = ref')) as [<-|Hne].
    + assert (room' = room) as -> by congruence. congruence.
    + rewrite lookup_insert_ne by done. eauto.
Qed.

Lemma server_ok_message (fuel : nat) (rs : WebSocket -> Z) (rng : Rng) (n : nat) (s : Server)
    (sock : WebSocket) (msg : ClientMessage) s' n' out :
  server_ok s ->
  server_message fuel rs rng n s sock msg = Some (s', n', out) ->
  server_ok s'.
Proof.
  intros Hok. unfold server_message.
  destruct msg as [playerName characterIndex | roomId playerName characterIndex
                  | status | seat | ]; cbn [handleMessage].
  - destruct (handleCreateRoom _ _ _ _ _ _ _ _) as [[[m1 n1] out1]|] eqn:Hcreate; [|done].
    simpl. intros [= <- <- <-]. by eapply server_ok_create.
  - pose proof (server_ok_join rs s sock roomId playerName characterIndex Hok) as Hjoin.
    destruct (handleJoinRoom _ _ _ _ _ _) as [m1 out1]. intros [= <- <- <-]. exact Hjoin.
  - unfold handleSetStatus, with_room.
    destruct (wsToRoom (manager s) !! sock) as [ref|]; [|intros [= <- <- <-]; by destruct s].
    destruct (store (manager s) !! ref) as [room|] eqn:Hroom;
      [|intros [= <- <- <-]; by destruct s].
    destruct (getPlayer room sock); intros [= <- <- <-]; [|by destruct s].
    by apply server_ok_set_info.
  - unfold handleReassignSeat, with_room.
    destruct (wsToRoom (manager s) !! sock) as [ref|]; [|intros [= <- <- <-]; by destruct s].
    destruct (store (manager s) !! ref) as [room|] eqn:Hroom;
      [|intros [= <- <- <-]; by destruct s].
    destruct (getPlayer room sock); intros [= <- <- <-]; [|by destruct s].
    by apply server_ok_set_info.
  - intros [= <- <- <-]. by destruct s.
Qed.

Lemma removePlayer_facts (r : Room) (sock : WebSocket) :
  room_id (removePlayer r sock).1 = room_id r
  /\ cleanupTimer (removePlayer r sock).1 = cleanupTimer r
  /\ nextPlayerId (removePlayer r sock).1 = nextPlayerId r
  /\ map_get sock (room_players (removePlayer r sock).1) = None
  /\ (forall k, k <> sock ->
        map_get k (room_players (removePlayer r sock).1) = map_get k (room_players r)).
Proof.
  unfold removePlayer. destruct (map_get sock (room_players r)) eqn:Hget; simpl.
  - repeat split; [apply map_get_delete_eq | intros k Hk; by apply map_get_delete_ne].
  - by repeat split.
Qed.

Lemma server_ok_close (rs : WebSocket -> Z) (s : Server) (sock : WebSocket) :
  server_ok s -> server_ok (handleDisconnect rs s sock).1.
Proof.
  intros Hok. pose proof Hok as [Hrooms Hws Hstore Htimers]. unfold handleDisconnect.
  destruct (wsToRoom (manager s) !! sock) as [ref|] eqn:Hsock; [|done].
  destruct (Hws _ _ Hsock) as (room & Hroom & Hmember & Hreg). rewrite Hroom.
  pose proof (removePlayer_facts room sock) as (Hrid & Hct & _ & Hgone & Hkeep).
  pose proof (room_ok_removePlayer room sock (Hstore _ _ Hroom)) as Hok1.
  destruct (removePlayer room sock) as [room1 player]. simpl in *.
  assert (Hnotimer : forall t, timers s !! t = Some ref -> False).
  { intros t Ht. destruct (Htimers _ _ Ht) as (_ & room' & Hroom' & Hempty & _).
    assert (room' = room) as -> by congruence.
    rewrite Hempty in Hmember. by destruct Hmember. }
  assert (Hfresh : timers s !! next_timer s = None).
  { destruct (timers s !! next_timer s) as [ref'|] eqn:Ht; [|done].
    destruct (Htimers _ _ Ht) as [Hlt _]. lia. }
  destruct (isEmpty room1) eqn:Hempty1; simpl.
  - assert (Hnil : room_players room1 = []).
    { unfold isEmpty in Hempty1. by destruct (room_players room1). }
    split; simpl.
    + intros id ref' Hlk. destruct (Hrooms _ _ Hlk) as (room' & Hroom' & Hrid').
      destruct (decide (ref = ref')) as [<-|Hne].
      * rewrite lookup_insert_eq. eexists. split; [done|]. simpl. congruence.
      * rewrite lookup_insert_ne by done. eauto.
    + intros sock' ref'. destruct (decide (sock = sock')) as [<-|Hne];
        [by rewrite lookup_delete_eq|].
      rewrite lookup_delete_ne by done. intros Hlk.
      destruct (Hws _ _ Hlk) as (room' & Hroom' & Hin & Hreg').
      destruct (decide (ref = ref')) as [<-|Hne'].
      * assert (room' = room) as -> by congruence.
        rewrite <- Hkeep in Hin by done. rewrite Hnil in Hin. by destruct Hin.
      * rewrite lookup_insert_ne by done. eauto.
    + intros ref' room'. destruct (decide (ref = ref')) as [<-|Hne].
      * rewrite lookup_insert_eq. intros [= <-]. by apply (room_ok_timer room1).
      * rewrite lookup_insert_ne by done. apply Hstore.
    + intros t ref'. destruct (decide (next_timer s = t)) as [<-|Hne].
      * rewrite lookup_insert_eq. intros [= <-]. split; [lia|].
        rewrite lookup_insert_eq. eexists. split; [done|]. simpl.
        split; [done|]. split; [done|]. congruence.
      * rewrite lookup_insert_ne by done. intros Ht.
        destruct (Htimers _ _ Ht) as (Hlt & room' & Hroom' & Hempty & Hct' & Hreg').
        split; [lia|]. destruct (decide (ref = ref')) as [<-|Hne'];
          [by destruct (Hnotimer t)|].
        rewrite lookup_insert_ne by done. eauto.
  - split; simpl.
    + intros id ref' Hlk. destruct (Hrooms _ _ Hlk) as (room' & Hroom' & Hrid').
      destruct (decide (ref = ref')) as [<-|Hne].
      * rewrite lookup_insert_eq. eexists. split; [done|]. congruence.
      * rewrite lookup_insert_ne by done. eauto.
    + intros sock' ref'. destruct (decide (sock = sock')) as [<-|Hne];
        [by rewrite lookup_delete_eq|].
      rewrite lookup_delete_ne by done. intros Hlk.
      destruct (Hws _ _ Hlk) as (room' & Hroom' & Hin & Hreg').
      destruct (decide (ref = ref')) as [<-|Hne'].
      * assert (room' = room) as -> by congruence.
        rewrite lookup_insert_eq. eexists. split; [done|].
        rewrite Hkeep by done. split; [done | congruence].
      * rewrite lookup_insert_ne by done. eauto.
    + intros ref' room'. destruct (decide (ref = ref')) as [<-|Hne].
      * rewrite lookup_insert_eq. by intros [= <-].
      * rewrite lookup_insert_ne by done. apply Hstore.
    + intros t ref' Ht.
      destruct (Htimers _ _ Ht) as (Hlt & room' & Hroom' & Hempty & Hct' & Hreg').
      split; [done|]. destruct (decide (ref = ref')) as [<-|Hne'];
        [by destruct (Hnotimer t)|].
      rewrite lookup_insert_ne by done. eauto.
Qed.

Lemma server_ok_timer (t : nat) (s : Server) :
  server_ok s -> server_ok (onCleanupTimer t s).
Proof.
  intros Hok. pose proof Hok as [Hrooms Hws Hstore Htimers]. unfold onCleanupTimer.
  destruct (timers s !! t) as [ref|] eqn:Ht; [|done].
  destruct (Htimers _ _ Ht) as (_ & room & Hroom & Hempty & Hct & Hreg).
  rewrite Hroom. unfold isEmpty. rewrite Hempty.
  assert (Hsame : forall room' ref', store (manager s) !! ref' = Some room' ->
                    rooms (manager s) !! room_id room' = Some ref' ->
                    room_id room' = room_id room -> room' = room).
  { intros room' ref' Hroom' Hreg' Heq. rewrite Heq in Hreg'. congruence. }
  split; simpl.
  - intros id ref' [_ Hlk]%lookup_delete_Some. eauto.
  - intros sock ref' Hlk. destruct (Hws _ _ Hlk) as (room' & Hroom' & Hin & Hreg').
    exists room'. split; [done|]. split; [done|].
    rewrite lookup_delete_ne; [done|]. intros Heq.
    rewrite (Hsame room' ref') in Hin by done. rewrite Hempty in Hin. by destruct Hin.
  - exact Hstore.
  - intros t' ref' [Hne Ht']%lookup_delete_Some.
    destruct (Htimers _ _ Ht') as (Hlt & room' & Hroom' & Hempty' & Hct' & Hreg').
    split; [done|]. exists room'. split; [done|]. split; [done|]. split; [done|].
    rewrite lookup_delete_ne; [done|]. intros Heq.
    rewrite (Hsame room' ref') in Hct' by done. congruence.
Qed.

(** Whatever the connections do, the server stays well kept. *)
Lemma server_reachable_ok (s : Server) : server_reachable s -> server_ok s.
Proof.
  induction 1 as [| s fuel rs rng n sock msg s' n' out _ IH Hstep | s rs sock _ IH | s t _ IH].
  - apply server_ok_init.
  - by eapply server_ok_message.
  - by apply server_ok_close.
  - by apply server_ok_timer.
Qed.

(** *** What the connections can rely on *)

Lemma broadcast_frames (rs : WebSocket -> Z) (r : Room) (msg : ServerMessage)
    (exclude : option WebSocket) :
  (forall e, e ∈ room_players r -> pl_ws e.2 = e.1) ->
  broadcast rs r msg exclude = frames_to_open rs (room_players r) exclude msg.
Proof.
  unfold broadcast, frames_to_open. induction (room_players r) as [|e l IH]; intros Hsock; [done|].
  rewrite filter_cons. cbn [omap list_omap].
  rewrite (Hsock e) by apply list_elem_of_here.
  rewrite IH by (intros e' He'; by apply Hsock, list_elem_of_further).
  destruct (decide (Some e.1 <> exclude /\ rs e.1 = 1)); done.
Qed.

(** X1: in every state the server can reach, a room identifier leads to a
    room of the store that carries that identifier, and the room of a socket
    is a room of the store that is live and has that socket among its
    players; so no handler ever follows a reference that leads nowhere. *)
Theorem server_references_resolve (s : Server) :
  server_reachable s ->
  (forall id ref, rooms (manager s) !! id = Some ref ->
     exists room, store (manager s) !! ref = Some room /\ room_id room = id)
  /\ (forall sock ref, wsToRoom (manager s) !! sock = Some ref ->
        exists room, store (manager s) !! ref = Some room
                     /\ is_Some (getPlayer room sock)
                     /\ room_id room ∈ live_rooms (manager s)
                     /\ rooms (manager s) !! room_id room = Some ref).
Proof.
  intros Hreach. apply server_reachable_ok in Hreach as [Hrooms Hws _ _].
  split; [exact Hrooms|].
  intros sock ref Hlk. destruct (Hws _ _ Hlk) as (room & Hroom & Hin & Hreg).
  exists room. repeat split; try done. unfold live_rooms. by eapply elem_of_dom_2.
Qed.

(** X2: in every state the server can reach, the players of a room are filed
    each under its own socket and no socket twice, and their ids are
    pairwise distinct, at least 1 and below the room's [nextPlayerId]. *)
Theorem server_player_ids_distinct (s : Server) (ref : nat) (room : Room) :
  server_reachable s ->
  store (manager s) !! ref = Some room ->
  room_ok room
  /\ (forall sock1 sock2 p1 p2,
        getPlayer room sock1 = Some p1 -> getPlayer room sock2 = Some p2 ->
        p_id (pl_info p1) = p_id (pl_info p2) -> sock1 = sock2).
Proof.
  intros Hreach Hroom. apply server_reachable_ok in Hreach as [_ _ Hstore _].
  pose proof (Hstore _ _ Hroom) as Hok. split; [done|].
  intros sock1 sock2 p1 p2 H1%map_get_elem_of H2%map_get_elem_of Heq.
  destruct Hok as [_ _ Hids _ _].
  apply list_elem_of_lookup in H1 as [i Hi]. apply list_elem_of_lookup in H2 as [j Hj].
  assert (i = j) as ->.
  { eapply NoDup_lookup; [exact Hids| |].
    - rewrite list_lookup_fmap, Hi. done.
    - rewrite list_lookup_fmap, Hj. simpl. by rewrite Heq. }
  congruence.
Qed.

Lemma after_message_reachable (s : Server) (sock : WebSocket) (msg : ClientMessage) :
  server_reachable s -> server_reachable (after_message s sock msg).
Proof.
  intros Hs. unfold after_message.
  destruct (server_message 1 all_open zeros 0 s sock msg) as [[[s' n'] out]|] eqn:Hstep; [|done].
  by eapply sr_message.
Qed.

Lemma server_two_reachable : server_reachable server_two.
Proof. do 2 apply after_message_reachable. apply sr_init. Qed.

Lemma server_left_reachable : server_reachable server_left.
Proof. do 2 apply sr_close. apply server_two_reachable. Qed.

Lemma server_references_resolve_witness :
  exists room, store (manager server_two) !! 0%nat = Some room
               /\ is_Some (getPlayer room 2%nat)
               /\ room_id room ∈ live_rooms (manager server_two).
Proof.
  destruct (server_references_resolve server_two server_two_reachable) as [_ Hws].
  destruct (Hws 2%nat 0%nat) as (room & Hroom & Hin & Hlive & _); [vm_compute; reflexivity|].
  by exists room.
Defined.

Lemma server_player_ids_distinct_witness :
  exists room, store (manager server_two) !! 0%nat = Some room /\ room_ok room.
Proof.
  eexists. split; [vm_compute; reflexivity|].
  eapply (server_player_ids_distinct server_two 0%nat); [apply server_two_reachable|].
  vm_compute. reflexivity.
Defined.

(** X3: when a timeout expires, a room leaves the live rooms only if that
    timeout was its own pending cleanup and the room is empty; every room
    that has a player stays live, and so does the room of every socket. *)
Theorem cleanup_removes_only_empty_rooms (s : Server) (t : nat) :
  server_reachable s ->
  (forall id ref,
     rooms (manager s) !! id = Some ref ->
     rooms (manager (onCleanupTimer t s)) !! id = None ->
     timers s !! t = Some ref
     /\ exists room, store (manager s) !! ref = Some room /\ room_players room = [])
  /\ (forall id ref, rooms (manager (onCleanupTimer t s)) !! id = Some ref ->
        rooms (manager s) !! id = Some ref)
  /\ store (manager (onCleanupTimer t s)) = store (manager s)
  /\ wsToRoom (manager (onCleanupTimer t s)) = wsToRoom (manager s).
Proof.
  intros Hreach. apply server_reachable_ok in Hreach as [Hrooms Hws Hstore Htimers].
  unfold onCleanupTimer.
  destruct (timers s !! t) as [ref0|] eqn:Ht.
  - destruct (Htimers _ _ Ht) as (_ & room & Hroom & Hempty & Hct & Hreg).
    rewrite Hroom. unfold isEmpty. rewrite Hempty. simpl.
    split; [|split; [|done]].
    + intros id ref Hlk Hgone. apply lookup_delete_None in Hgone as [<-|Hgone]; [|congruence].
      assert (ref = ref0) as -> by congruence. split; [done|]. by exists room.
    + intros id ref [_ Hlk]%lookup_delete_Some. done.
  - split; [intros id ref Hlk Hgone; congruence | done].
Qed.

Lemma cleanup_removes_only_empty_rooms_witness :
  timers server_left !! 0%nat = Some 0%nat
  /\ exists room, store (manager server_left) !! 0%nat = Some room /\ room_players room = [].
Proof.
  destruct (cleanup_removes_only_empty_rooms server_left 0 server_left_reachable) as [Hgone _].
  apply (Hgone "AAAAAA"%string 0%nat); vm_compute; reflexivity.
Defined.

(** X4: a join cancels the pending cleanup of the room: once a socket has
    joined a room that was empty, the expiry of the timeout that was
    scheduled for it changes nothing, and the room is still live. *)
Theorem join_cancels_cleanup (fuel : nat) (rs : WebSocket -> Z) (rng : Rng) (n : nat)
    (s : Server) (t ref : nat) (sock : WebSocket) (room playerName : string)
    (characterIndex : Z) s' n' out :
  server_reachable s ->
  timers s !! t = Some ref ->
  rooms (manager s) !! room = Some ref ->
  server_message fuel rs rng n s sock (C2S_JoinRoom room playerName characterIndex)
  = Some (s', n', out) ->
  timers s' !! t = None
  /\ onCleanupTimer t s' = s'
  /\ room ∈ live_rooms (manager s')
  /\ wsToRoom (manager s') !! sock = Some ref.
Proof.
  intros Hreach Ht Hlk Hstep.
  apply server_reachable_ok in Hreach as [Hrooms Hws Hstore Htimers].
  destruct (Htimers _ _ Ht) as (_ & r & Hroom & Hempty & Hct & Hreg).
  unfold server_message in Hstep. cbn [handleMessage] in Hstep.
  unfold handleJoinRoom, cleared_timer, with_room in Hstep.
  rewrite Hlk in Hstep. simpl in Hstep. rewrite Hroom in Hstep. simpl in Hstep.
  rewrite Hct in Hstep. injection Hstep as <- <- <-.
  assert (Hnone : delete t (timers s) !! t = None) by apply lookup_delete_eq.
  split; [exact Hnone|]. split.
  - unfold onCleanupTimer. simpl. by rewrite Hnone.
  - split; [unfold live_rooms; simpl; by eapply elem_of_dom_2|].
    simpl. by rewrite lookup_insert_eq.
Qed.

Lemma join_cancels_cleanup_witness :
  exists s', server_message 1 all_open zeros 0 server_left 3%nat
               (C2S_JoinRoom "AAAAAA"%string "cid"%string 2) = Some (s', 0%nat, [(3%nat,
                 S2C_RoomJoined "AAAAAA"%string 3 [mkPlayerInfo 3 "cid"%string 2 idle None])])
             /\ onCleanupTimer 0 s' = s'.
Proof.
  eexists. split; [vm_compute; reflexivity|].
  eapply (join_cancels_cleanup 1 all_open zeros 0 server_left 0 0 3%nat "AAAAAA"%string
            "cid"%string 2);
    [apply server_left_reachable | vm_compute; reflexivity | vm_compute; reflexivity
    | vm_compute; reflexivity].
Defined.

(** X5: when the last player of a room disconnects, the room stays live with
    its cleanup pending; if that timeout expires with the room still empty,
    the room is live no more, and a join under its identifier is answered
    as for a room that does not exist. *)
Theorem abandoned_room_is_cleaned_up (rs : WebSocket -> Z) (s : Server) (sock : WebSocket)
    (ref : nat) (room : Room) (p : Player) :
  server_reachable s ->
  wsToRoom (manager s) !! sock = Some ref ->
  store (manager s) !! ref = Some room ->
  room_players room = [(sock, p)] ->
  let s1 := (handleDisconnect rs s sock).1 in
  let s2 := onCleanupTimer (next_timer s) s1 in
  room_id room ∈ live_rooms (manager s1)
  /\ timers s1 !! next_timer s = Some ref
  /\ (room_id room ∉ live_rooms (manager s2))
  /\ (forall sock' name characterIndex,
        handleJoinRoom rs (manager s2) sock' (room_id room) name characterIndex
        = (manager s2,
           sendTo rs sock' (S2C_Error ("Room " +:+ room_id room +:+ " not found")%string))).
Proof.
  intros Hreach Hsock Hroom Hone s1 s2.
  apply server_reachable_ok in Hreach as [Hrooms Hws Hstore Htimers].
  destruct (Hws _ _ Hsock) as (room' & Hroom' & _ & Hreg).
  assert (room' = room) as -> by congruence.
  assert (Hs1 : s1 = {| manager :=
                          {| store := <[ref := mkRoom (room_id room) [] (nextPlayerId room)
                                                 (Some (next_timer s))]> (store (manager s));
                             rooms := rooms (manager s);
                             wsToRoom := delete sock (wsToRoom (manager s)) |};
                        timers := <[next_timer s := ref]> (timers s);
                        next_timer := S (next_timer s) |}).
  { unfold s1, handleDisconnect, removePlayer, map_delete. rewrite Hsock, Hroom, Hone. simpl.
    rewrite decide_True by done. simpl. rewrite filter_cons, decide_False by naive_solver.
    by rewrite filter_nil. }
  assert (Hs2 : rooms (manager s2) = delete (room_id room) (rooms (manager s))).
  { unfold s2, onCleanupTimer. rewrite Hs1. simpl. by rewrite !lookup_insert_eq. }
  split; [rewrite Hs1; unfold live_rooms; simpl; by eapply elem_of_dom_2|].
  split; [rewrite Hs1; simpl; by rewrite lookup_insert_eq|].
  assert (Hgone : rooms (manager s2) !! room_id room = None)
    by (rewrite Hs2; apply lookup_delete_eq).
  split; [unfold live_rooms; by apply not_elem_of_dom|].
  intros sock' name characterIndex. unfold handleJoinRoom. by rewrite Hgone.
Qed.

Lemma abandoned_room_is_cleaned_up_witness :
  "AAAAAA"%string ∉ live_rooms
     (manager (onCleanupTimer 0 (handleDisconnect all_open server_one 1%nat).1)).
Proof.
  pose proof (after_message_reachable server_init 1%nat (C2S_CreateRoom "ann"%string 0) sr_init)
    as Hreach.
  edestruct (abandoned_room_is_cleaned_up all_open server_one 1%nat 0%nat) as (_ & _ & Hgone & _);
    [exact Hreach | vm_compute; reflexivity | vm_compute; reflexivity
    | vm_compute; reflexivity |].
  exact Hgone.
Defined.

Lemma map_set_fresh {V : Type} (k : WebSocket) (v : V) (m : list (WebSocket * V)) :
  map_get k m = None -> map_set k v m = m ++ [(k, v)].
Proof.
  induction m as [|[k' v'] m IH]; [done|]. cbn [map_get map_set].
  destruct (decide (k' = k)); [done|]. intros Hm. by rewrite IH.
Qed.

Lemma filter_ext_in {A : Type} (P Q : A -> Prop) `{!forall x, Decision (P x)}
    `{!forall x, Decision (Q x)} (l : list A) :
  (forall x, x ∈ l -> P x <-> Q x) -> filter P l = filter Q l.
Proof.
  induction l as [|x l IH]; intros HPQ; [done|].
  rewrite !filter_cons, IH by (intros y Hy; by apply HPQ, list_elem_of_further).
  pose proof (HPQ x (list_elem_of_here _ _)).
  destruct (decide (P x)), (decide (Q x)); tauto || done.
Qed.

Lemma frames_to_open_snoc_excluded (rs : WebSocket -> Z) (l : list (WebSocket * Player))
    (sock : WebSocket) (p : Player) (msg : ServerMessage) :
  map_get sock l = None ->
  frames_to_open rs (l ++ [(sock, p)]) (Some sock) msg = frames_to_open rs l None msg.
Proof.
  intros Hfresh. unfold frames_to_open. rewrite filter_app, filter_cons, filter_nil.
  rewrite decide_False by (simpl; intros [? _]; congruence).
  rewrite app_nil_r. f_equal. apply filter_ext_in. intros e He. simpl.
  assert (e.1 <> sock).
  { intros Heq. assert (Hin : is_Some (map_get sock l)).
    { apply map_get_is_Some, list_elem_of_fmap. by exists e. }
    rewrite Hfresh in Hin. by destruct Hin. }
  split; intros [? ?]; (split; [congruence|done]).
Qed.

(** X6: a socket that joins a live room of which it is no player gets the
    next id of the room, and the snapshot it is sent is the room's player
    list after the join: the players there were, in the order they joined,
    and the joiner last; every player there was whose socket is open is told
    of the joiner once, and the joiner is not. *)
Theorem join_snapshot_is_room (rs : WebSocket -> Z) (s : Server) (sock : WebSocket)
    (room_name name : string) (characterIndex : Z) (ref : nat) (room : Room) :
  server_reachable s ->
  rooms (manager s) !! room_name = Some ref ->
  store (manager s) !! ref = Some room ->
  getPlayer room sock = None ->
  let info := mkPlayerInfo (nextPlayerId room) name (Z.rem characterIndex 6) idle None in
  exists room',
    handleJoinRoom rs (manager s) sock room_name name characterIndex
    = ({| store := <[ref := room']> (store (manager s));
          rooms := rooms (manager s);
          wsToRoom := <[sock := ref]> (wsToRoom (manager s)) |},
       sendTo rs sock (S2C_RoomJoined room_name (nextPlayerId room) (getPlayerInfos room'))
       ++ frames_to_open rs (room_players room) None (S2C_PlayerJoined info))
    /\ getPlayerInfos room' = getPlayerInfos room ++ [info]
    /\ (forall p, p ∈ getPlayerInfos room -> p_id p <> nextPlayerId room).
Proof.
  intros Hreach Hlk Hroom Hfresh info.
  apply server_reachable_ok in Hreach as [_ _ Hstore _].
  pose proof (Hstore _ _ Hroom) as [Hkeys Hsock Hids Hrange Hnext].
  set (room1 := mkRoom (room_id room) (map_set sock (mkPlayer sock info) (room_players room))
                  (nextPlayerId room + 1) None).
  assert (Hadd : addPlayer room sock name characterIndex = (room1, info)) by reflexivity.
  assert (Hplayers : room_players room1 = room_players room ++ [(sock, mkPlayer sock info)])
    by (by apply map_set_fresh).
  assert (Hinfos : getPlayerInfos room1 = getPlayerInfos room ++ [info]).
  { unfold getPlayerInfos. rewrite Hplayers. by rewrite map_app. }
  exists room1. split; [|split; [exact Hinfos|]].
  - unfold handleJoinRoom, with_room. rewrite Hlk, Hroom, Hadd, Hinfos. f_equal. f_equal.
    rewrite broadcast_frames.
    + rewrite Hplayers. by apply frames_to_open_snoc_excluded.
    + rewrite Hplayers. intros e [He| ->%list_elem_of_singleton]%elem_of_app; [by apply Hsock|done].
  - intros p Hp. unfold getPlayerInfos in Hp.
    change (p ∈ (fun e : WebSocket * Player => pl_info e.2) <$> room_players room) in Hp.
    apply list_elem_of_fmap in Hp as (e & -> & He). specialize (Hrange e He). lia.
Qed.

Lemma join_snapshot_is_room_witness :
  exists room',
    handleJoinRoom all_open (manager server_one) 2%nat "AAAAAA"%string "bob"%string 7
    = ({| store := <[0%nat := room']> (store (manager server_one));
          rooms := rooms (manager server_one);
          wsToRoom := <[2%nat := 0%nat]> (wsToRoom (manager server_one)) |},
       [(2%nat, S2C_RoomJoined "AAAAAA"%string 2
                  [mkPlayerInfo 1 "ann"%string 0 idle None;
                   mkPlayerInfo 2 "bob"%string 1 idle None]);
        (1%nat, S2C_PlayerJoined (mkPlayerInfo 2 "bob"%string 1 idle None))]).
Proof.
  destruct (join_snapshot_is_room all_open server_one 2%nat "AAAAAA"%string "bob"%string 7 0%nat
              (mkRoom "AAAAAA"%string
                 [(1%nat, mkPlayer 1%nat (mkPlayerInfo 1 "ann"%string 0 idle None))] 2 None))
    as (room' & Hjoin & Hinfos & _);
    [exact (after_message_reachable server_init 1%nat (C2S_CreateRoom "ann"%string 0) sr_init)
    | vm_compute; reflexivity | vm_compute; reflexivity | vm_compute; reflexivity |].
  exists room'. rewrite Hjoin, Hinfos. reflexivity.
Defined.

Lemma delivered_app (c : WebSocket) (o1 o2 : list Frame) :
  delivered c (o1 ++ o2) = delivered c o1 ++ delivered c o2.
Proof. unfold delivered. by rewrite filter_app, fmap_app. Qed.

Lemma delivered_cons (c : WebSocket) (f : Frame) (out : list Frame) :
  delivered c (f :: out)
  = if decide (f.1 = c) then f.2 :: delivered c out else delivered c out.
Proof. unfold delivered. rewrite filter_cons. by destruct (decide (f.1 = c)). Qed.

Lemma delivered_sendTo_ne (rs : WebSocket -> Z) (c d : WebSocket) (msg : ServerMessage) :
  d <> c -> delivered c (sendTo rs d msg) = [].
Proof.
  intros Hne. unfold sendTo. destruct (decide (rs d = 1)); [|done].
  rewrite delivered_cons. simpl. by rewrite decide_False.
Qed.

Lemma delivered_sendTo_eq (rs : WebSocket -> Z) (c : WebSocket) (msg : ServerMessage) :
  rs c = 1 -> delivered c (sendTo rs c msg) = [msg].
Proof.
  intros Hopen. unfold sendTo. rewrite decide_True by done.
  rewrite delivered_cons. simpl. by rewrite decide_True.
Qed.

Lemma delivered_frames_absent (rs : WebSocket -> Z) (l : list (WebSocket * Player))
    (exclude : option WebSocket) (msg : ServerMessage) (c : WebSocket) :
  map_get c l = None \/ exclude = Some c ->
  delivered c (frames_to_open rs l exclude msg) = [].
Proof.
  unfold frames_to_open. induction l as [|[k v] l IH]; intros Hc; [done|].
  rewrite filter_cons. simpl.
  assert (Hrest : map_get c l = None \/ exclude = Some c).
  { destruct Hc as [Hc|Hc]; [|by right]. left. cbn [map_get] in Hc.
    by destruct (decide (k = c)). }
  destruct (decide (Some k <> exclude /\ rs k = 1)) as [[Hk _]|_]; [|by apply IH].
  rewrite fmap_cons, delivered_cons. simpl.
  destruct (decide (k = c)) as [->|_]; [|by apply IH].
  destruct Hc as [Hc|Hc]; [|congruence]. cbn [map_get] in Hc.
  by rewrite decide_True in Hc.
Qed.

Lemma delivered_frames_member (rs : WebSocket -> Z) (l : list (WebSocket * Player))
    (exclude : option WebSocket) (msg : ServerMessage) (c : WebSocket) :
  NoDup (fst <$> l) -> is_Some (map_get c l) -> exclude <> Some c -> rs c = 1 ->
  delivered c (frames_to_open rs l exclude msg) = [msg].
Proof.
  intros Hnd Hin Hex Hopen. induction l as [|[k v] l IH]; [by destruct Hin|].
  rewrite fmap_cons in Hnd. apply NoDup_cons in Hnd as [Hk Hnd].
  unfold frames_to_open. rewrite filter_cons. simpl.
  destruct (decide (k = c)) as [->|Hne].
  - rewrite decide_True by (split; [congruence|done]).
    rewrite fmap_cons, delivered_cons. simpl. rewrite decide_True by done. f_equal.
    apply delivered_frames_absent. left.
    destruct (map_get c l) eqn:Hget; [|done].
    destruct Hk. apply map_get_is_Some. simpl. by rewrite Hget.
  - cbn [map_get] in Hin. rewrite decide_False in Hin by done.
    destruct (decide (Some k <> exclude /\ rs k = 1)) as [_|_].
    + rewrite fmap_cons, delivered_cons. simpl. rewrite decide_False by done. by apply IH.
    + by apply IH.
Qed.

Lemma NoDup_fmap_eq {A B : Type} (f : A -> B) (l : list A) (x y : A) :
  NoDup (f <$> l) -> x ∈ l -> y ∈ l -> f x = f y -> x = y.
Proof.
  induction l as [|a l IH]; [by intros _ ?%elem_of_nil|].
  rewrite fmap_cons. intros [Ha Hnd]%NoDup_cons Hx Hy Hxy.
  apply elem_of_cons in Hx as [->|Hx]; apply elem_of_cons in Hy as [->|Hy]; [done| | |by apply IH].
  - destruct Ha. rewrite Hxy. apply list_elem_of_fmap. by exists y.
  - destruct Ha. rewrite <- Hxy. apply list_elem_of_fmap. by exists x.
Qed.

Lemma room_player_by_id (r : Room) (d : WebSocket) (player : Player) (e : WebSocket * Player) :
  room_ok r -> map_get d (room_players r) = Some player -> e ∈ room_players r ->
  e.1 = d <-> p_id (pl_info e.2) = p_id (pl_info player).
Proof.
  intros [Hkeys _ Hids _ _] Hget He. apply map_get_elem_of in Hget.
  split; intros Heq.
  - assert (e = (d, player)) as -> by (by eapply (NoDup_fmap_eq fst)). done.
  - assert (e = (d, player)) as ->; [|done].
    by eapply (NoDup_fmap_eq (fun e => p_id (pl_info e.2))).
Qed.

Lemma infos_set_info (r : Room) (d : WebSocket) (player : Player)
    (f : PlayerInfo -> PlayerInfo) :
  room_ok r -> map_get d (room_players r) = Some player ->
  getPlayerInfos (set_info r d f)
  = (fun p => if decide (p_id p = p_id (pl_info player)) then f p else p) <$> getPlayerInfos r.
Proof.
  intros Hok Hget. unfold getPlayerInfos, set_info. cbn [room_players].
  rewrite map_map.
  change (map ?g (room_players r)) with (g <$> room_players r) at 2.
  rewrite <- list_fmap_compose.
  change (map ?g (room_players r)) with (g <$> room_players r).
  apply list_fmap_ext. intros i e Hi. apply list_elem_of_lookup_2 in Hi. simpl.
  pose proof (room_player_by_id r d player e Hok Hget Hi) as Hiff.
  destruct (decide (e.1 = d)), (decide (p_id (pl_info e.2) = p_id (pl_info player)));
    simpl; tauto || done.
Qed.

Lemma infos_removePlayer (r : Room) (d : WebSocket) (player : Player) :
  room_ok r -> map_get d (room_players r) = Some player ->
  getPlayerInfos (removePlayer r d).1
  = filter (fun p => p_id p <> p_id (pl_info player)) (getPlayerInfos r).
Proof.
  intros Hok Hget. unfold getPlayerInfos, removePlayer, map_delete. rewrite Hget.
  cbn [fst room_players].
  assert (Hin : forall e, e ∈ room_players r ->
                  e.1 = d <-> p_id (pl_info e.2) = p_id (pl_info player))
    by (intros e; by apply room_player_by_id).
  clear Hok Hget. induction (room_players r) as [|e l IH]; [done|].
  rewrite filter_cons. cbn [map]. rewrite filter_cons.
  pose proof (Hin e (list_elem_of_here _ _)) as He.
  rewrite <- IH by (intros e' He'; by apply Hin, list_elem_of_further).
  destruct (decide (e.1 <> d)), (decide (p_id (pl_info e.2) <> p_id (pl_info player)));
    simpl; tauto || done.
Qed.

Lemma map_get_set_info_ne (r : Room) (d k : WebSocket) (f : PlayerInfo -> PlayerInfo) :
  k <> d -> map_get k (room_players (set_info r d f)) = map_get k (room_players r).
Proof.
  intros Hne. unfold set_info. cbn [room_players].
  induction (room_players r) as [|[k' v'] l IH]; [done|].
  cbn [map map_get fst snd]. rewrite IH.
  destruct (decide (k' = d)) as [->|_]; [|done].
  cbn [map_get]. by rewrite !decide_False by done.
Qed.

Lemma in_step_other_room (m : RoomManager) (c : WebSocket) (ref ref1 : nat) (r1 : Room)
    (rooms1 : gmap string nat) (ws1 : gmap WebSocket nat) (h : Hook) :
  in_step m c ref h -> ref1 <> ref -> getPlayer r1 c = None -> ws1 !! c = Some ref ->
  in_step {| store := <[ref1 := r1]> (store m); rooms := rooms1; wsToRoom := ws1 |} c ref h.
Proof.
  intros (Hws & Hsole & room & player & Hroom & Hp & Hid & Hpl) Hne Hnot Hws1.
  split; [done|]. split.
  - intros ref' room'. simpl. destruct (decide (ref1 = ref')) as [<-|Hne'].
    + rewrite lookup_insert_eq. intros [= <-]. rewrite Hnot. by intros [? ?].
    + rewrite lookup_insert_ne by done. apply Hsole.
  - exists room, player. simpl. by rewrite lookup_insert_ne.
Qed.

Lemma in_step_same_room (m : RoomManager) (c : WebSocket) (ref : nat) (room1 : Room)
    (player1 : Player) (rooms1 : gmap string nat) (ws1 : gmap WebSocket nat) (h h1 : Hook) :
  in_step m c ref h ->
  getPlayer room1 c = Some player1 ->
  myPlayerId h1 = Some (p_id (pl_info player1)) ->
  players h1 = getPlayerInfos room1 ->
  ws1 !! c = Some ref ->
  in_step {| store := <[ref := room1]> (store m); rooms := rooms1; wsToRoom := ws1 |} c ref h1.
Proof.
  intros (Hws & Hsole & _) Hp Hid Hpl Hws1.
  split; [done|]. split.
  - intros ref' room'. simpl. destruct (decide (ref = ref')) as [<-|Hne']; [done|].
    rewrite lookup_insert_ne by done. apply Hsole.
  - exists room1, player1. simpl. by rewrite lookup_insert_eq.
Qed.

Lemma in_step_set_info (rs : WebSocket -> Z) (m : RoomManager) (c d : WebSocket)
    (ref ref1 : nat) (r1 : Room) (player1 : Player) (f : PlayerInfo -> PlayerInfo)
    (msg : ServerMessage) (h : Hook) :
  in_step m c ref h ->
  (forall ref' room', store m !! ref' = Some room' -> room_ok room') ->
  rs c = 1 -> d <> c ->
  store m !! ref1 = Some r1 ->
  getPlayer r1 d = Some player1 ->
  (forall p, p_id (f p) = p_id p) ->
  (forall h', myPlayerId (onMessage msg h') = myPlayerId h'
              /\ players (onMessage msg h')
                 = (fun p => if decide (p_id p = p_id (pl_info player1)) then f p else p)
                     <$> players h') ->
  in_step {| store := <[ref1 := set_info r1 d f]> (store m);
             rooms := rooms m; wsToRoom := wsToRoom m |} c ref
    (receive (delivered c (broadcast rs (set_info r1 d f) msg (Some d))) h).
Proof.
  intros Hstep Hstore Hopen Hne Hr1 Hp1 Hf Hmsg.
  pose proof Hstep as (Hws & Hsole & room & player & Hroom & Hp & Hid & Hpl).
  pose proof (room_ok_set_info r1 d f Hf (Hstore _ _ Hr1)) as Hok1.
  rewrite broadcast_frames by apply Hok1.
  destruct (decide (ref1 = ref)) as [->|Hother].
  - assert (r1 = room) as -> by congruence.
    rewrite delivered_frames_member;
      [|apply Hok1
       |rewrite map_get_set_info_ne by done; unfold getPlayer in Hp; by rewrite Hp
       |congruence|done].
    destruct (Hmsg h) as [Hid' Hpl']. cbn [receive foldl].
    eapply in_step_same_room; [exact Hstep| | | |done].
    + unfold getPlayer. rewrite map_get_set_info_ne by done. exact Hp.
    + by rewrite Hid'.
    + rewrite Hpl', Hpl. symmetry. apply infos_set_info; [by eapply Hstore|exact Hp1].
  - assert (Hnot : getPlayer r1 c = None).
    { destruct (getPlayer r1 c) eqn:Hget; [|done]. destruct Hother.
      apply (Hsole ref1 r1 Hr1). by rewrite Hget. }
    rewrite delivered_frames_absent
      by (left; rewrite map_get_set_info_ne by done; exact Hnot).
    cbn [receive foldl]. apply in_step_other_room; [done|done| |done].
    unfold getPlayer. rewrite map_get_set_info_ne by done. exact Hnot.
Qed.

(** X7: a hook that is in step with the server stays in step when another
    socket's message is handled and the frames sent to the hook's socket are
    run through its message handler: its players are again those of its
    room on the server, in the same order, whatever the message and
    whichever room the other socket is in.  The socket of the hook is open;
    the message is not a second join of the hook's room by one of its
    players. *)
Theorem replica_follows_message (fuel : nat) (rs : WebSocket -> Z) (rng : Rng) (n : nat)
    (s : Server) (c d : WebSocket) (ref : nat) (msg : ClientMessage) (h : Hook) s' n' out :
  server_reachable s ->
  in_step (manager s) c ref h ->
  rs c = 1 -> d <> c ->
  ~ rejoins (manager s) d ref msg ->
  server_message fuel rs rng n s d msg = Some (s', n', out) ->
  in_step (manager s') c ref (receive (delivered c out) h).
Proof.
  intros Hreach Hstep Hopen Hne Hrejoin Hmsg.
  pose proof (server_reachable_ok _ Hreach) as [Hrooms Hws Hstore Htimers].
  pose proof Hstep as (Hc & Hsole & room & player & Hroom & Hp & Hid & Hpl).
  unfold server_message in Hmsg.
  destruct (handleMessage fuel rs rng n (manager s) d msg) as [[[m1 n1] out1]|] eqn:Hhm;
    [|done].
  injection Hmsg as <- <- <-. cbn [manager].
  destruct msg as [name ci|room_name name ci|status|seat|]; cbn [handleMessage] in Hhm.
  - unfold handleCreateRoom in Hhm.
    destruct (fresh_room_id fuel rng n (rooms (manager s))) as [[id n2]|]; [|done].
    cbn in Hhm. injection Hhm as <- <- <-.
    rewrite delivered_sendTo_ne by done. cbn [receive foldl].
    apply in_step_other_room; [done| | |by rewrite lookup_insert_ne].
    + intros Heq. apply (is_fresh (dom (store (manager s)))). rewrite Heq.
      by eapply elem_of_dom_2.
    + unfold getPlayer. cbn. by rewrite decide_False.
  - unfold handleJoinRoom in Hhm.
    destruct (rooms (manager s) !! room_name) as [ref1|] eqn:Hlk.
    + destruct (Hrooms _ _ Hlk) as (r1 & Hr1 & Hrid). unfold with_room in Hhm.
      rewrite Hr1 in Hhm.
      pose proof (room_ok_addPlayer r1 d name ci (Hstore _ _ Hr1)) as Hok1.
      destruct (addPlayer r1 d name ci) as [r1' info] eqn:Hadd.
      injection Hhm as <- <- <-. cbn [fst] in Hok1.
      assert (Hplayers : room_players r1'
                         = map_set d (mkPlayer d info) (room_players r1))
        by (unfold addPlayer in Hadd; by injection Hadd as <- <-).
      rewrite delivered_app, delivered_sendTo_ne by done.
      rewrite broadcast_frames by apply Hok1. cbn [app].
      destruct (decide (ref1 = ref)) as [->|Hother].
      * assert (r1 = room) as -> by congruence.
        assert (Hfresh : map_get d (room_players room) = None).
        { destruct (map_get d (room_players room)) eqn:Hget; [|done].
          destruct Hrejoin. split; [done|]. exists room. split; [done|].
          unfold getPlayer. by rewrite Hget. }
        rewrite map_set_fresh in Hplayers by done.
        rewrite delivered_frames_member;
          [|apply Hok1
           |rewrite Hplayers; apply map_get_is_Some; rewrite fmap_app;
            apply elem_of_app; left; apply map_get_is_Some;
            unfold getPlayer in Hp; by rewrite Hp
           |congruence|done].
        cbn [receive foldl].
        eapply in_step_same_room; [exact Hstep| | | |by rewrite lookup_insert_ne].
        -- unfold getPlayer. rewrite Hplayers, <- (map_set_fresh d (mkPlayer d info)) by done.
           rewrite map_get_set_ne by done. exact Hp.
        -- exact Hid.
        -- cbn. rewrite Hpl. unfold getPlayerInfos. rewrite Hplayers, map_app. done.
      * assert (Hnot : getPlayer r1 c = None).
        { destruct (getPlayer r1 c) eqn:Hget; [|done]. destruct Hother.
          apply (Hsole ref1 r1 Hr1). by rewrite Hget. }
        assert (Hnot' : getPlayer r1' c = None).
        { unfold getPlayer. rewrite Hplayers, map_get_set_ne by done. exact Hnot. }
        rewrite delivered_frames_absent by (by left). cbn [receive foldl].
        apply in_step_other_room; [done|done|done|by rewrite lookup_insert_ne].
    + injection Hhm as <- <- <-. rewrite delivered_sendTo_ne by done.
      cbn [receive foldl]. by destruct (manager s).
  - unfold handleSetStatus in Hhm.
    destruct (wsToRoom (manager s) !! d) as [ref1|] eqn:Hd.
    + destruct (Hws _ _ Hd) as (r1 & Hr1 & [player1 Hp1] & _). unfold with_room in Hhm.
      rewrite Hr1 in Hhm. unfold getPlayer in Hhm. rewrite Hp1 in Hhm.
      injection Hhm as <- <- <-.
      by eapply in_step_set_info.
    + injection Hhm as <- <- <-. cbn [delivered receive foldl]. by destruct (manager s).
  - unfold handleReassignSeat in Hhm.
    destruct (wsToRoom (manager s) !! d) as [ref1|] eqn:Hd.
    + destruct (Hws _ _ Hd) as (r1 & Hr1 & [player1 Hp1] & _). unfold with_room in Hhm.
      rewrite Hr1 in Hhm. unfold getPlayer in Hhm. rewrite Hp1 in Hhm.
      injection Hhm as <- <- <-.
      by eapply in_step_set_info.
    + injection Hhm as <- <- <-. cbn [delivered receive foldl]. by destruct (manager s).
  - injection Hhm as <- <- <-. rewrite delivered_sendTo_ne by done.
    cbn [receive foldl]. by destruct (manager s).
Qed.

Lemma map_get_set_info_eq (r : Room) (d : WebSocket) (player : Player)
    (f : PlayerInfo -> PlayerInfo) :
  map_get d (room_players r) = Some player ->
  map_get d (room_players (set_info r d f))
  = Some (mkPlayer (pl_ws player) (f (pl_info player))).
Proof.
  unfold set_info. cbn [room_players].
  induction (room_players r) as [|[k' v'] l IH]; [done|].
  cbn [map map_get fst snd].
  destruct (decide (k' = d)) as [->|Hne].
  - intros [= ->]. cbn [map_get]. by rewrite decide_True.
  - intros Hget. cbn [map_get]. rewrite decide_False by done. by apply IH.
Qed.

Lemma in_step_enter (fuel : nat) (rs : WebSocket -> Z) (rng : Rng) (n : nat) (s : Server)
    (c : WebSocket) (msg : ClientMessage) (h : Hook) s' n' out :
  server_ok s ->
  rs c = 1 ->
  in_no_room (manager s) c ->
  enters (manager s) msg ->
  server_message fuel rs rng n s c msg = Some (s', n', out) ->
  exists ref, in_step (manager s') c ref (receive (delivered c out) h).
Proof.
  intros [Hrooms Hws Hstore Htimers] Hopen Hnone Henters Hmsg.
  unfold server_message in Hmsg.
  destruct (handleMessage fuel rs rng n (manager s) c msg) as [[[m1 n1] out1]|] eqn:Hhm;
    [|done].
  injection Hmsg as <- <- <-. cbn [manager].
  destruct msg as [name ci|room_name name ci|status|seat|]; cbn [handleMessage] in Hhm;
    try done.
  - unfold handleCreateRoom in Hhm.
    destruct (fresh_room_id fuel rng n (rooms (manager s))) as [[id n2]|]; [|done].
    cbn in Hhm. injection Hhm as <- <- <-.
    exists (fresh (dom (store (manager s)))).
    rewrite delivered_sendTo_eq by done. cbn [receive foldl].
    split; [cbn; by rewrite lookup_insert_eq|]. split.
    + intros ref' room'. cbn [store].
      destruct (decide (fresh (dom (store (manager s))) = ref')) as [<-|Hne]; [done|].
      rewrite lookup_insert_ne by done. intros Hlk [p Hp].
      rewrite (Hnone _ _ Hlk) in Hp. done.
    + eexists _, _. cbn [store]. rewrite lookup_insert_eq. split; [done|].
      unfold getPlayer. cbn. rewrite decide_True by done. done.
  - unfold handleJoinRoom in Hhm.
    unfold enters, live_rooms in Henters.
    apply elem_of_dom in Henters as [ref Hlk]. rewrite Hlk in Hhm.
    destruct (Hrooms _ _ Hlk) as (room & Hroom & Hrid). unfold with_room in Hhm.
    rewrite Hroom in Hhm.
    pose proof (room_ok_addPlayer room c name ci (Hstore _ _ Hroom)) as Hok1.
    destruct (addPlayer room c name ci) as [room1 info] eqn:Hadd.
    injection Hhm as <- <- <-. cbn [fst] in Hok1.
    assert (Hfresh : map_get c (room_players room) = None) by apply (Hnone _ _ Hroom).
    assert (Hplayers : room_players room1 = room_players room ++ [(c, mkPlayer c info)]).
    { rewrite <- map_set_fresh by done. unfold addPlayer in Hadd. by injection Hadd as <- <-. }
    exists ref.
    rewrite delivered_app, delivered_sendTo_eq by done.
    rewrite broadcast_frames by apply Hok1.
    rewrite delivered_frames_absent by (by right). cbn [app receive foldl].
    split; [cbn; by rewrite lookup_insert_eq|]. split.
    + intros ref' room'. cbn [store].
      destruct (decide (ref = ref')) as [<-|Hne]; [done|].
      rewrite lookup_insert_ne by done. intros Hlk' [p Hp].
      rewrite (Hnone _ _ Hlk') in Hp. done.
    + exists room1, (mkPlayer c info). cbn [store]. rewrite lookup_insert_eq.
      split; [done|]. split; [|split; [done|]].
      * unfold getPlayer. rewrite Hplayers, <- (map_set_fresh c (mkPlayer c info)) by done.
        apply map_get_set_eq.
      * cbn. unfold getPlayerInfos. by rewrite Hplayers, map_app.
Qed.

(** X8: a hook that is in step with the server stays in step when another
    socket's connection closes and the frames sent to the hook's socket are
    run through its message handler: a player that left the hook's room is
    gone from the hook's players, a player of another room changes
    nothing. *)
Theorem replica_follows_disconnect (rs : WebSocket -> Z) (s : Server) (c d : WebSocket)
    (ref : nat) (h : Hook) :
  server_reachable s ->
  in_step (manager s) c ref h ->
  rs c = 1 -> d <> c ->
  in_step (manager (handleDisconnect rs s d).1) c ref
    (receive (delivered c (handleDisconnect rs s d).2) h).
Proof.
  intros Hreach Hstep Hopen Hne.
  pose proof (server_reachable_ok _ Hreach) as [Hrooms Hws Hstore Htimers].
  pose proof Hstep as (Hc & Hsole & room & player & Hroom & Hp & Hid & Hpl).
  unfold handleDisconnect.
  destruct (wsToRoom (manager s) !! d) as [ref1|] eqn:Hd; [|done].
  destruct (Hws _ _ Hd) as (r1 & Hr1 & [player1 Hp1] & _). rewrite Hr1.
  pose proof (room_ok_removePlayer r1 d (Hstore _ _ Hr1)) as Hok1.
  pose proof (infos_removePlayer r1 d player1 (Hstore _ _ Hr1) Hp1) as Hinfos.
  pose proof (removePlayer_facts r1 d) as (_ & _ & _ & _ & Hkeep).
  assert (Hrm : removePlayer r1 d
                = ((removePlayer r1 d).1, Some (pl_info player1)))
    by (unfold removePlayer; by rewrite Hp1).
  destruct (removePlayer r1 d) as [room1 left]. injection Hrm as ->. cbn [fst] in *.
  rewrite broadcast_frames by apply Hok1.
  destruct (decide (ref1 = ref)) as [->|Hother].
  - assert (r1 = room) as -> by congruence.
    assert (Hp' : map_get c (room_players room1) = Some player)
      by (rewrite Hkeep by done; exact Hp).
    assert (Hfull : isEmpty room1 = false).
    { unfold isEmpty. destruct (room_players room1); [done|done]. }
    rewrite Hfull. cbn [fst snd manager].
    rewrite delivered_frames_member; [|apply Hok1|by rewrite Hp'|done|done].
    cbn [receive foldl].
    eapply in_step_same_room; [exact Hstep|exact Hp'|exact Hid|
                               |by rewrite lookup_delete_ne].
    cbn. by rewrite Hpl, Hinfos.
  - assert (Hnot : map_get c (room_players room1) = None).
    { rewrite Hkeep by done. destruct (map_get c (room_players r1)) eqn:Hget; [|done].
      destruct Hother. apply (Hsole ref1 r1 Hr1). unfold getPlayer. by rewrite Hget. }
    destruct (isEmpty room1); cbn [fst snd manager];
      rewrite delivered_frames_absent by (by left); cbn [receive foldl];
      (apply in_step_other_room; [done|done|done|by rewrite lookup_delete_ne]).
Qed.

(** X9: a socket that is a player of no room and creates a room, or joins a
    live one, is in step once the reply has been run through its hook's
    message handler, whatever the hook held before: the hook's id is the id
    of its player on the server and its players are the room's. *)
Theorem entering_brings_in_step (fuel : nat) (rs : WebSocket -> Z) (rng : Rng) (n : nat)
    (s : Server) (c : WebSocket) (msg : ClientMessage) (h : Hook) s' n' out :
  server_reachable s ->
  rs c = 1 ->
  in_no_room (manager s) c ->
  enters (manager s) msg ->
  server_message fuel rs rng n s c msg = Some (s', n', out) ->
  exists ref, in_step (manager s') c ref (receive (delivered c out) h).
Proof.
  intros Hreach. apply in_step_enter. by apply server_reachable_ok.
Qed.

(** X10: a hook that is in step stays in step through a status change of its
    own: the server sends its socket nothing, and the hook's own update of
    its players is the one the server makes to the room. *)
Theorem own_status_keeps_in_step (rs : WebSocket -> Z) (s : Server) (c : WebSocket)
    (ref : nat) (status : PlayerStatus) (h : Hook) :
  server_reachable s ->
  in_step (manager s) c ref h ->
  delivered c (handleSetStatus rs (manager s) c status).2 = []
  /\ in_step (handleSetStatus rs (manager s) c status).1 c ref (setStatus_relay status h).1
  /\ (setStatus_relay status h).2 = [C2S_SetStatus status].
Proof.
  intros Hreach Hstep.
  pose proof (server_reachable_ok _ Hreach) as [Hrooms Hws Hstore Htimers].
  pose proof Hstep as (Hc & Hsole & room & player & Hroom & Hp & Hid & Hpl).
  unfold handleSetStatus, with_room. rewrite Hc, Hroom, Hp. cbn [fst snd].
  set (f := fun i => mkPlayerInfo (p_id i) (p_name i) (p_characterIndex i) status (p_seatId i)).
  assert (Hok1 : room_ok (set_info room c f)) by (apply room_ok_set_info; [done|by eapply Hstore]).
  split; [|split; [|done]].
  - rewrite broadcast_frames by apply Hok1. apply delivered_frames_absent. by right.
  - eapply in_step_same_room; [exact Hstep| | | |done].
    + unfold getPlayer. by apply map_get_set_info_eq.
    + unfold setStatus_relay. rewrite Hid. done.
    + unfold setStatus_relay. rewrite Hid. cbn. rewrite Hpl.
      symmetry. apply (infos_set_info room c player f); [by eapply Hstore|exact Hp].
Qed.

Lemma server_one_reachable : server_reachable server_one.
Proof. apply after_message_reachable, sr_init. Qed.

Lemma hook_one_in_step : in_step (manager server_one) 1%nat 0%nat hook_one.
Proof.
  destruct (in_step_enter 1 all_open zeros 0 server_init 1%nat (C2S_CreateRoom "ann"%string 0)
              two_in_corridor server_one 6%nat
              (frames_of server_init 1%nat (C2S_CreateRoom "ann"%string 0)))
    as [ref Hstep];
    [apply server_ok_init | reflexivity | by intros ref room Hlk | exact I
    | vm_compute; reflexivity |].
  assert (ref = 0%nat) as ->; [|exact Hstep].
  destruct Hstep as [Hws _]. vm_compute in Hws. congruence.
Qed.

Lemma server_one_without_two : in_no_room (manager server_one) 2%nat.
Proof.
  intros ref room Hlk.
  assert (Hstore : store (manager server_one)
                   = {[ 0%nat := mkRoom "AAAAAA"%string
                                   [(1%nat, mkPlayer 1%nat
                                              (mkPlayerInfo 1 "ann"%string 0 idle None))]
                                   2 None ]})
    by (vm_compute; reflexivity).
  rewrite Hstore in Hlk. apply lookup_singleton_Some in Hlk as [_ <-]. reflexivity.
Qed.

Lemma hook_two_in_step : in_step (manager server_two) 2%nat 0%nat hook_two.
Proof.
  destruct (in_step_enter 1 all_open zeros 0 server_one 2%nat
              (C2S_JoinRoom "AAAAAA"%string "bob"%string 7)
              two_in_corridor server_two 0%nat
              (frames_of server_one 2%nat (C2S_JoinRoom "AAAAAA"%string "bob"%string 7)))
    as [ref Hstep];
    [apply server_reachable_ok, server_one_reachable | reflexivity
    | apply server_one_without_two
    | unfold enters, live_rooms; apply elem_of_dom; exists 0%nat; vm_compute; reflexivity
    | vm_compute; reflexivity |].
  assert (ref = 0%nat) as ->; [|exact Hstep].
  destruct Hstep as [Hws _]. vm_compute in Hws. congruence.
Qed.

Lemma replica_follows_message_witness :
  in_step (manager server_two) 1%nat 0%nat
    (receive (delivered 1%nat
                (frames_of server_one 2%nat (C2S_JoinRoom "AAAAAA"%string "bob"%string 7)))
       hook_one).
Proof.
  apply (replica_follows_message 1 all_open zeros 0 server_one 1%nat 2%nat 0%nat
           (C2S_JoinRoom "AAAAAA"%string "bob"%string 7) hook_one server_two 0%nat);
    [apply server_one_reachable | apply hook_one_in_step | reflexivity | lia | |
     vm_compute; reflexivity].
  intros (_ & r & Hr & Hin). rewrite (server_one_without_two _ _ Hr) in Hin.
  by destruct Hin.
Defined.

Lemma replica_follows_disconnect_witness :
  in_step (manager (handleDisconnect all_open server_two 1%nat).1) 2%nat 0%nat
    (receive (delivered 2%nat (handleDisconnect all_open server_two 1%nat).2) hook_two).
Proof.
  apply (replica_follows_disconnect all_open server_two 2%nat 1%nat 0%nat hook_two);
    [apply server_two_reachable | apply hook_two_in_step | reflexivity | lia].
Defined.

Lemma entering_brings_in_step_witness :
  exists ref, in_step (manager server_two) 2%nat ref hook_two.
Proof.
  apply (entering_brings_in_step 1 all_open zeros 0 server_one 2%nat
           (C2S_JoinRoom "AAAAAA"%string "bob"%string 7) two_in_corridor server_two 0%nat
           (frames_of server_one 2%nat (C2S_JoinRoom "AAAAAA"%string "bob"%string 7)));
    [apply server_one_reachable | reflexivity | apply server_one_without_two
    | unfold enters, live_rooms; apply elem_of_dom; exists 0%nat; vm_compute; reflexivity
    | vm_compute; reflexivity].
Defined.

Lemma own_status_keeps_in_step_witness :
  in_step (handleSetStatus all_open (manager server_one) 1%nat coding).1 1%nat 0%nat
    (setStatus_relay coding hook_one).1.
Proof.
  apply (own_status_keeps_in_step all_open server_one 1%nat 0%nat coding hook_one);
    [apply server_one_reachable | apply hook_one_in_step].
Defined.

Lemma elem_of_frames_to_open (rs : WebSocket -> Z) (l : list (WebSocket * Player))
    (exclude : option WebSocket) (msg m : ServerMessage) (sock : WebSocket) :
  (sock, m) ∈ frames_to_open rs l exclude msg ->
  m = msg /\ Some sock <> exclude /\ rs sock = 1 /\ is_Some (map_get sock l).
Proof.
  unfold frames_to_open. intros (e & [= -> ->] & He)%list_elem_of_fmap.
  apply list_elem_of_filter in He as [[Hex Hopen] He].
  split; [done|]. split; [done|]. split; [done|].
  apply map_get_is_Some, list_elem_of_fmap. by exists e.
Qed.

Lemma elem_of_sendTo (rs : WebSocket -> Z) (d sock : WebSocket) (msg m : ServerMessage) :
  (sock, m) ∈ sendTo rs d msg -> sock = d /\ m = msg /\ rs d = 1.
Proof.
  unfold sendTo. destruct (decide (rs d = 1)); [|by intros ?%elem_of_nil].
  by intros [= -> ->]%list_elem_of_singleton.
Qed.

Lemma plays_in_insert (st : gmap nat Room) (rooms1 : gmap string nat)
    (ws1 : gmap WebSocket nat) (ref : nat) (room : Room) (sock : WebSocket) :
  is_Some (map_get sock (room_players room)) ->
  plays_in {| store := <[ref := room]> st; rooms := rooms1; wsToRoom := ws1 |} sock ref.
Proof. intros Hmem. exists room. cbn. by rewrite lookup_insert_eq. Qed.

(** X11: the server sends frames to open sockets only.  Handling a message of
    socket [d], a frame to [d] itself is a reply (roomJoined, error, pong)
    and any other frame is a notice to a player of the room [d] is in after
    the message; [d] is never sent a notice of its own change.  When the
    connection of [d] closes, every frame is a playerLeft notice to a player
    that remains in the room [d] was in, and none goes to [d]. *)
Theorem frames_reach_open_room_members (rs : WebSocket -> Z) (s : Server) (d : WebSocket) :
  server_reachable s ->
  (forall fuel rng n msg s' n' out sock m,
     server_message fuel rs rng n s d msg = Some (s', n', out) ->
     (sock, m) ∈ out ->
     rs sock = 1
     /\ ((sock = d /\ is_reply m)
         \/ (sock <> d /\ is_notice m
             /\ exists ref, wsToRoom (manager s') !! d = Some ref
                            /\ plays_in (manager s') sock ref)))
  /\ (forall sock m,
        (sock, m) ∈ (handleDisconnect rs s d).2 ->
        rs sock = 1 /\ sock <> d
        /\ (exists id, m = S2C_PlayerLeft id)
        /\ exists ref, wsToRoom (manager s) !! d = Some ref
                       /\ plays_in (manager (handleDisconnect rs s d).1) sock ref).
Proof.
  intros Hreach.
  pose proof (server_reachable_ok _ Hreach) as [Hrooms Hws Hstore Htimers].
  split.
  - intros fuel rng n msg s' n' out sock m Hmsg Hin.
    unfold server_message in Hmsg.
    destruct (handleMessage fuel rs rng n (manager s) d msg) as [[[m1 n1] out1]|] eqn:Hhm;
      [|done].
    injection Hmsg as <- <- <-. cbn [manager].
    destruct msg as [name ci|room_name name ci|status|seat|]; cbn [handleMessage] in Hhm.
    + unfold handleCreateRoom in Hhm.
      destruct (fresh_room_id fuel rng n (rooms (manager s))) as [[id n2]|]; [|done].
      cbn in Hhm. injection Hhm as <- <- <-.
      apply elem_of_sendTo in Hin as (-> & -> & Hopen). split; [done|]. by left.
    + unfold handleJoinRoom in Hhm.
      destruct (rooms (manager s) !! room_name) as [ref|] eqn:Hlk.
      * destruct (Hrooms _ _ Hlk) as (room & Hroom & Hrid). unfold with_room in Hhm.
        rewrite Hroom in Hhm.
        pose proof (room_ok_addPlayer room d name ci (Hstore _ _ Hroom)) as Hok1.
        destruct (addPlayer room d name ci) as [room1 info] eqn:Hadd.
        injection Hhm as <- <- <-. cbn [fst] in Hok1.
        apply elem_of_app in Hin as [Hin|Hin].
        -- apply elem_of_sendTo in Hin as (-> & -> & Hopen). split; [done|]. by left.
        -- rewrite broadcast_frames in Hin by apply Hok1.
           apply elem_of_frames_to_open in Hin as (-> & Hex & Hopen & Hmem).
           split; [done|]. right. split; [congruence|]. split; [done|].
           exists ref. split; [cbn; by rewrite lookup_insert_eq|by apply plays_in_insert].
      * injection Hhm as <- <- <-.
        apply elem_of_sendTo in Hin as (-> & -> & Hopen). split; [done|]. by left.
    + unfold handleSetStatus in Hhm.
      destruct (wsToRoom (manager s) !! d) as [ref|] eqn:Hd.
      * destruct (Hws _ _ Hd) as (room & Hroom & [player Hp] & _). unfold with_room in Hhm.
        rewrite Hroom in Hhm. unfold getPlayer in Hhm. rewrite Hp in Hhm.
        injection Hhm as <- <- <-.
        rewrite broadcast_frames in Hin
          by (apply room_ok_set_info; [done|by eapply Hstore]).
        apply elem_of_frames_to_open in Hin as (-> & Hex & Hopen & Hmem).
        split; [done|]. right. split; [congruence|]. split; [done|].
        exists ref. split; [done|]. by apply plays_in_insert.
      * injection Hhm as <- <- <-. by apply elem_of_nil in Hin.
    + unfold handleReassignSeat in Hhm.
      destruct (wsToRoom (manager s) !! d) as [ref|] eqn:Hd.
      * destruct (Hws _ _ Hd) as (room & Hroom & [player Hp] & _). unfold with_room in Hhm.
        rewrite Hroom in Hhm. unfold getPlayer in Hhm. rewrite Hp in Hhm.
        injection Hhm as <- <- <-.
        rewrite broadcast_frames in Hin
          by (apply room_ok_set_info; [done|by eapply Hstore]).
        apply elem_of_frames_to_open in Hin as (-> & Hex & Hopen & Hmem).
        split; [done|]. right. split; [congruence|]. split; [done|].
        exists ref. split; [done|]. by apply plays_in_insert.
      * injection Hhm as <- <- <-. by apply elem_of_nil in Hin.
    + injection Hhm as <- <- <-.
      apply elem_of_sendTo in Hin as (-> & -> & Hopen). split; [done|]. by left.
  - intros sock m. unfold handleDisconnect.
    destruct (wsToRoom (manager s) !! d) as [ref|] eqn:Hd; [|by intros ?%elem_of_nil].
    destruct (Hws _ _ Hd) as (room & Hroom & [player Hp] & _). rewrite Hroom.
    pose proof (room_ok_removePlayer room d (Hstore _ _ Hroom)) as Hok1.
    pose proof (removePlayer_facts room d) as (_ & _ & _ & Hgone & _).
    assert (Hrm : removePlayer room d = ((removePlayer room d).1, Some (pl_info player)))
      by (unfold removePlayer; by rewrite Hp).
    destruct (removePlayer room d) as [room1 left]. injection Hrm as ->. cbn [fst] in *.
    rewrite broadcast_frames by apply Hok1.
    assert (Hgoal : (sock, m) ∈ frames_to_open rs (room_players room1) None
                                 (S2C_PlayerLeft (p_id (pl_info player))) ->
                    rs sock = 1 /\ sock <> d /\ (exists id, m = S2C_PlayerLeft id)
                    /\ is_Some (map_get sock (room_players room1))).
    { intros (-> & _ & Hopen & Hmem)%elem_of_frames_to_open.
      split; [done|]. split; [|split; [by eexists|done]].
      intros ->. rewrite Hgone in Hmem. by destruct Hmem. }
    destruct (isEmpty room1); cbn [fst snd manager store]; intros Hin;
      destruct (Hgoal Hin) as (Hopen & Hne & Hleft & Hmem);
      (split; [done|]; split; [done|]; split; [done|]; exists ref; split; [done|];
       by apply plays_in_insert).
Qed.

Lemma frames_reach_open_room_members_witness :
  all_open 1%nat = 1
  /\ exists ref, wsToRoom (manager server_two) !! 2%nat = Some ref
                 /\ plays_in (manager server_two) 1%nat ref.
Proof.
  destruct (frames_reach_open_room_members all_open server_one 2%nat server_one_reachable)
    as [Hmsg _].
  destruct (Hmsg 1%nat zeros 0%nat (C2S_JoinRoom "AAAAAA"%string "bob"%string 7) server_two 0%nat
              (frames_of server_one 2%nat (C2S_JoinRoom "AAAAAA"%string "bob"%string 7))
              1%nat (S2C_PlayerJoined (mkPlayerInfo 2 "bob"%string 1 idle None)))
    as [Hopen [[Heq _]|(_ & _ & Hroom)]];
    [vm_compute; reflexivity
    | vm_compute; repeat constructor
    | lia | by split].
Defined.

(** X12: rooms come into being by a request to create one and go by a
    cleanup, and in no other way.  A request to create a room adds one room
    under a valid identifier that was not live and keeps every live room; no
    other message, and no close of a connection, changes which rooms are
    live; the expiry of a timeout removes at most one room. *)
Theorem roomCount_changes (s : Server) :
  (forall fuel rs rng n d msg s' n' out,
     server_message fuel rs rng n s d msg = Some (s', n', out) ->
     if is_create msg
     then roomCount (manager s') = S (roomCount (manager s))
          /\ exists id, (id ∉ live_rooms (manager s)) /\ valid_room_id id
                        /\ live_rooms (manager s') = {[ id ]} ∪ live_rooms (manager s)
     else rooms (manager s') = rooms (manager s))
  /\ (forall rs d, rooms (manager (handleDisconnect rs s d).1) = rooms (manager s))
  /\ (forall t, (roomCount (manager (onCleanupTimer t s)) <= roomCount (manager s)
                 <= S (roomCount (manager (onCleanupTimer t s))))%nat).
Proof.
  split; [|split].
  - intros fuel rs rng n d msg s' n' out Hmsg. unfold server_message in Hmsg.
    destruct (handleMessage fuel rs rng n (manager s) d msg) as [[[m1 n1] out1]|] eqn:Hhm;
      [|done].
    injection Hmsg as <- <- <-. cbn [manager].
    destruct msg as [name ci|room_name name ci|status|seat|]; cbn [handleMessage is_create] in *.
    + unfold handleCreateRoom in Hhm.
      destruct (fresh_room_id fuel rng n (rooms (manager s))) as [[id n2]|] eqn:Hfresh;
        [|done].
      apply fresh_room_id_sound in Hfresh as [Hnew Hvalid].
      cbn in Hhm. injection Hhm as <- <- <-. unfold roomCount, live_rooms. cbn [rooms].
      split; [by apply map_size_insert_None|].
      exists id. split; [by apply not_elem_of_dom|]. split; [done|]. by rewrite dom_insert_L.
    + unfold handleJoinRoom, with_room in Hhm.
      destruct (rooms (manager s) !! room_name) as [ref|];
        [destruct (store (manager s) !! ref)|]; by injection Hhm as <- <- <-.
    + unfold handleSetStatus, with_room in Hhm.
      destruct (wsToRoom (manager s) !! d) as [ref|];
        [destruct (store (manager s) !! ref) as [room|];
         [destruct (getPlayer room d)|]|]; by injection Hhm as <- <- <-.
    + unfold handleReassignSeat, with_room in Hhm.
      destruct (wsToRoom (manager s) !! d) as [ref|];
        [destruct (store (manager s) !! ref) as [room|];
         [destruct (getPlayer room d)|]|]; by injection Hhm as <- <- <-.
    + by injection Hhm as <- <- <-.
  - intros rs d. unfold handleDisconnect.
    destruct (wsToRoom (manager s) !! d) as [ref|]; [|done].
    destruct (store (manager s) !! ref) as [room|]; [|done].
    destruct (removePlayer room d) as [room1 player]. by destruct (isEmpty room1).
  - intros t. unfold onCleanupTimer, roomCount.
    destruct (timers s !! t) as [ref|]; [|lia]. cbn [manager].
    destruct (store (manager s) !! ref) as [room|]; [|lia].
    destruct (isEmpty room); [|lia]. cbn [rooms].
    destruct (rooms (manager s) !! room_id room) eqn:Hlk.
    + rewrite map_size_delete_Some by eauto.
      assert (size (rooms (manager s)) <> 0%nat); [|lia].
      intros Hzero%map_size_empty_inv. rewrite Hzero in Hlk. by rewrite lookup_empty in Hlk.
    + rewrite delete_id by done. lia.
Qed.

Lemma roomCount_changes_witness :
  roomCount (manager server_one) = 1%nat.
Proof.
  destruct (roomCount_changes server_init) as [Hmsg _].
  destruct (Hmsg 1%nat all_open zeros 0%nat 1%nat (C2S_CreateRoom "ann"%string 0)
              server_one 6%nat
              (frames_of server_init 1%nat (C2S_CreateRoom "ann"%string 0)))
    as [Hcount _]; [vm_compute; reflexivity|].
  exact Hcount.
Defined.

Lemma split_lines_nonempty (text : Text) : split_lines text <> [].
Proof.
  destruct text as [|c rest]; [done|]. cbn [split_lines].
  destruct (decide (c = LF)); [done|]. by destruct (split_lines rest).
Qed.

Lemma split_lines_app (a b : Text) :
  split_lines (a ++ b)
  = List.removelast (split_lines a) ++ split_lines (default [] (last (split_lines a)) ++ b).
Proof.
  induction a as [|c a IH]; [done|].
  change ((c :: a) ++ b) with (c :: (a ++ b)). cbn [split_lines].
  pose proof (split_lines_nonempty a) as Hne.
  destruct (decide (c = LF)) as [->|Hc].
  - rewrite IH. destruct (split_lines a) as [|p ps] eqn:Hsplit; [done|].
    rewrite last_cons_cons. reflexivity.
  - rewrite IH. destruct (split_lines a) as [|p [|q qs]] eqn:Hsplit; [done| |].
    + cbn [List.removelast last default from_option id app].
      change ((c :: p) ++ b) with (c :: (p ++ b)). cbn [split_lines].
      rewrite decide_False by done.
      pose proof (split_lines_nonempty (p ++ b)). by destruct (split_lines (p ++ b)).
    + rewrite !last_cons_cons. reflexivity.
Qed.

Lemma split_lines_no_LF (text piece : Text) :
  piece ∈ split_lines text -> LF ∉ piece.
Proof.
  revert piece. induction text as [|c rest IH]; intros piece.
  - cbn. intros ->%list_elem_of_singleton. apply not_elem_of_nil.
  - cbn [split_lines]. destruct (decide (c = LF)) as [->|Hc].
    + intros [->|Hin]%elem_of_cons; [apply not_elem_of_nil|by apply IH].
    + pose proof (split_lines_nonempty rest).
      destruct (split_lines rest) as [|p ps]; [done|].
      intros [->|Hin]%elem_of_cons.
      * apply not_elem_of_cons. split; [done|]. apply IH, list_elem_of_here.
      * by apply IH, list_elem_of_further.
Qed.

Lemma split_lines_join (text : Text) :
  concat ((fun line => line ++ [LF]) <$> List.removelast (split_lines text))
  ++ default [] (last (split_lines text)) = text.
Proof.
  induction text as [|c rest IH]; [done|]. cbn [split_lines].
  pose proof (split_lines_nonempty rest).
  destruct (decide (c = LF)) as [->|Hc].
  - destruct (split_lines rest) as [|p ps] eqn:Hsplit; [done|].
    rewrite last_cons_cons.
    transitivity (LF :: (concat ((fun line => line ++ [LF]) <$> List.removelast (p :: ps))
                         ++ default [] (last (p :: ps)))); [reflexivity|by rewrite IH].
  - destruct (split_lines rest) as [|p [|q qs]] eqn:Hsplit; [done| |].
    + cbn in *. by rewrite IH.
    + rewrite last_cons_cons.
      transitivity (c :: (concat ((fun line => line ++ [LF]) <$> List.removelast (p :: q :: qs))
                          ++ default [] (last (p :: q :: qs)))); [reflexivity|by rewrite IH].
Qed.

(** X13: splitting the text read into lines loses nothing: the complete
    lines, each followed by a line feed, and then the piece kept in
    [lineBuffer], give the text back; no line and no kept piece holds a
    line feed; and the kept piece is there to be completed: splitting a
    longer text is splitting its first part, then the kept piece with the
    rest appended. *)
Theorem split_lines_lossless (text more : Text) :
  concat ((fun line => line ++ [LF]) <$> List.removelast (split_lines text))
  ++ default [] (last (split_lines text)) = text
  /\ (forall piece, piece ∈ split_lines text -> LF ∉ piece)
  /\ split_lines (text ++ more)
     = List.removelast (split_lines text)
       ++ split_lines (default [] (last (split_lines text)) ++ more).
Proof.
  split; [apply split_lines_join|]. split; [apply split_lines_no_LF|apply split_lines_app].
Qed.

Lemma split_lines_lossless_witness :
  (LF ∉ [97; 98]%N)
  /\ split_lines ([97; 98; 10; 99] ++ [100; 10])%N = [[97; 98]; [99; 100]; []]%N.
Proof.
  destruct (split_lines_lossless [97; 98; 10; 99]%N [100; 10]%N) as (_ & Hno & Happ).
  split; [|rewrite Happ; reflexivity].
  apply Hno. vm_compute. repeat constructor.
Defined.

Lemma reader_of_postMessage (msg : WebviewMessage) (w : Ext) (agentId : Z) :
  reader_of (postMessage msg w) agentId = reader_of w agentId.
Proof. done. Qed.

Lemma reader_of_cancelPermissionTimer (id : Z) (w : Ext) (agentId : Z) :
  reader_of (cancelPermissionTimer id w) agentId = reader_of w agentId.
Proof. unfold cancelPermissionTimer. by destruct (permissionTimers w !! id). Qed.

Lemma reader_of_alter_agent (f : AgentState -> AgentState) (id : Z) (w : Ext) (agentId : Z) :
  (forall a, (jsonlFile (f a), fileOffset (f a), lineBuffer (f a))
             = (jsonlFile a, fileOffset a, lineBuffer a)) ->
  reader_of (alter_agent f id w) agentId = reader_of w agentId.
Proof.
  intros Hf. unfold reader_of, alter_agent. cbn [agents].
  destruct (decide (id = agentId)) as [->|Hne].
  - rewrite lookup_alter_eq. destruct (agents w !! agentId); [|done]. cbn. by rewrite Hf.
  - by rewrite lookup_alter_ne.
Qed.

Lemma reader_of_foldl (process : Z -> Text -> Ext -> Ext) (agentId : Z) (lines : list Text)
    (w : Ext) :
  (forall line w', reader_of (process agentId line w') agentId = reader_of w' agentId) ->
  reader_of (foldl (fun w' line => if trim_truthy line then process agentId line w' else w')
               w lines) agentId
  = reader_of w agentId.
Proof.
  intros Hkeep. revert w. induction lines as [|line lines IH]; intros w; [done|].
  cbn [foldl]. rewrite IH. by destruct (trim_truthy line).
Qed.

(** X14: reading a transcript in pieces hands the parser the same lines as
    reading it at once.  If the reader of an agent has read all of [file]
    and the transcript has grown by [more], then after [readNewLines] it has
    read all of [file ++ more]: its offset is the new size, its buffer the
    unfinished last line of the whole text, and the lines handed to the
    parser are exactly the complete, non-blank lines of the whole text that
    those of [file] did not yet include: a line cut in two by the end of an
    earlier read is handed over once, whole.  The growth starts on a
    character boundary, and the parser leaves the reader's own fields
    alone. *)
Theorem readNewLines_appended (fs : string -> option (list Byte.byte))
    (toString : list Byte.byte -> Text) (processTranscriptLine : Z -> Text -> Ext -> Ext)
    (agentId : Z) (w : Ext) (path : string) (file more : list Byte.byte) :
  reader_at toString w agentId path file ->
  fs path = Some (file ++ more) ->
  toString (file ++ more) = toString file ++ toString more ->
  (forall line w', reader_of (processTranscriptLine agentId line w') agentId
                   = reader_of w' agentId) ->
  reader_at toString (readNewLines fs toString processTranscriptLine agentId w).1
    agentId path (file ++ more)
  /\ complete_lines (toString (file ++ more))
     = complete_lines (toString file)
       ++ (readNewLines fs toString processTranscriptLine agentId w).2.
Proof.
  intros Hat Hfs Hdecode Hkeep. unfold reader_at, reader_of in Hat.
  unfold readNewLines.
  destruct (agents w !! agentId) as [agent|] eqn:Hagent; [|done].
  cbn in Hat. injection Hat as Hpath Hoffset Hbuffer. rewrite Hpath, Hfs.
  rewrite length_app, Hoffset.
  destruct (decide (length file + length more <= length file)%nat) as [Hle|Hgt].
  - assert (more = []) as -> by (apply length_zero_iff_nil; lia).
    rewrite !app_nil_r. cbn [fst snd]. split; [|done].
    unfold reader_at, reader_of. rewrite Hagent. cbn. by rewrite Hpath, Hoffset, Hbuffer.
  - rewrite drop_app_length, Hbuffer. cbn [fst snd].
    pose proof (split_lines_app (toString file) (toString more)) as Hsplit.
    rewrite <- Hdecode in Hsplit.
    set (pieces := split_lines (default [] (last (split_lines (toString file)))
                                ++ toString more)) in *.
    assert (Hpieces : pieces <> []) by apply split_lines_nonempty.
    split.
    + unfold reader_at. rewrite reader_of_foldl by done.
      set (w1 := alter_agent _ agentId w).
      assert (Hw1 : reader_of w1 agentId
                    = Some (path, (length file + length more)%nat, default [] (last pieces))).
      { unfold reader_of, w1, alter_agent. cbn [agents]. rewrite lookup_alter_eq, Hagent.
        cbn. by rewrite Hpath. }
      assert (Hlast : last (split_lines (toString (file ++ more))) = last pieces).
      { rewrite Hsplit, last_app. destruct (last pieces) eqn:Hl; [done|].
        apply last_None in Hl. done. }
      rewrite length_app, Hlast, <- Hw1.
      destruct (existsb trim_truthy (List.removelast pieces)); [|done].
      destruct (permissionSent agent).
      * rewrite reader_of_postMessage, reader_of_alter_agent by done.
        apply reader_of_cancelPermissionTimer.
      * apply reader_of_cancelPermissionTimer.
    + unfold complete_lines. rewrite Hsplit, removelast_app by done.
      by rewrite filter_app.
Qed.

Lemma ext_ok_agents (w : Ext) ags view :
  ext_ok w ->
  ext_ok (mkExt ags (waitingTimers w) (permissionTimers w) (timeouts w) (next_timeout w) view).
Proof. intros [? ? ? ? ?]. by split. Qed.

Lemma ext_ok_cancelWaiting (w : Ext) (agentId : Z) :
  ext_ok w -> ext_ok (cancelWaitingTimer agentId w).
Proof.
  intros Hok. pose proof Hok as [Hw Hp Hpw Hpp Hh]. unfold cancelWaitingTimer.
  destruct (waitingTimers w !! agentId) as [timer|] eqn:Htimer; [|done].
  destruct (Hw _ _ Htimer) as [d0 Hpending].
  split; cbn.
  - intros id t [Hne Hlk]%lookup_delete_Some. destruct (Hw _ _ Hlk) as [d Ht].
    exists d. rewrite lookup_delete_ne; [done|]. intros <-. congruence.
  - intros id t Hlk. destruct (Hp _ _ Hlk) as [ex Ht].
    exists ex. rewrite lookup_delete_ne; [done|]. intros <-. congruence.
  - intros t d id [Hne Hlk]%lookup_delete_Some. specialize (Hpw _ _ _ Hlk).
    rewrite lookup_delete_ne; [done|]. intros <-. congruence.
  - intros t d id ex [Hne Hlk]%lookup_delete_Some. by apply Hpp in Hlk.
  - intros t [x [_ Hlk]%lookup_delete_Some]. apply Hh. by eexists.
Qed.

Lemma ext_ok_cancelPermission (w : Ext) (agentId : Z) :
  ext_ok w -> ext_ok (cancelPermissionTimer agentId w).
Proof.
  intros Hok. pose proof Hok as [Hw Hp Hpw Hpp Hh]. unfold cancelPermissionTimer.
  destruct (permissionTimers w !! agentId) as [timer|] eqn:Htimer; [|done].
  destruct (Hp _ _ Htimer) as [ex0 Hpending].
  split; cbn.
  - intros id t Hlk. destruct (Hw _ _ Hlk) as [d Ht].
    exists d. rewrite lookup_delete_ne; [done|]. intros <-. congruence.
  - intros id t [Hne Hlk]%lookup_delete_Some. destruct (Hp _ _ Hlk) as [ex Ht].
    exists ex. rewrite lookup_delete_ne; [done|]. intros <-. congruence.
  - intros t d id [Hne Hlk]%lookup_delete_Some. by apply Hpw in Hlk.
  - intros t d id ex [Hne Hlk]%lookup_delete_Some. destruct (Hpp _ _ _ _ Hlk) as [Hreg ->].
    split; [|done]. rewrite lookup_delete_ne; [done|]. intros <-. congruence.
  - intros t [x [_ Hlk]%lookup_delete_Some]. apply Hh. by eexists.
Qed.

Lemma ext_ok_fresh (w : Ext) : ext_ok w -> timeouts w !! next_timeout w = None.
Proof.
  intros [_ _ _ _ Hh]. destruct (timeouts w !! next_timeout w) eqn:Hlk; [|done].
  assert (next_timeout w < next_timeout w)%nat; [|lia]. apply Hh. by eexists.
Qed.

Lemma ext_ok_startWaiting (w : Ext) (agentId : Z) (delayMs : Z) :
  ext_ok w -> ext_ok (startWaitingTimer agentId delayMs w).
Proof.
  intros Hok%(ext_ok_cancelWaiting _ agentId). unfold startWaitingTimer.
  assert (Hgone : waitingTimers (cancelWaitingTimer agentId w) !! agentId = None).
  { unfold cancelWaitingTimer. destruct (waitingTimers w !! agentId) eqn:Hlk; [|done].
    cbn. apply lookup_delete_eq. }
  set (w1 := cancelWaitingTimer agentId w) in *.
  pose proof (ext_ok_fresh _ Hok) as Hfresh. destruct Hok as [Hw Hp Hpw Hpp Hh].
  split; cbn.
  - intros id t. destruct (decide (agentId = id)) as [<-|Hne].
    + rewrite lookup_insert_eq. intros [= <-]. rewrite lookup_insert_eq. by eexists.
    + rewrite lookup_insert_ne by done. intros Hlk. destruct (Hw _ _ Hlk) as [d Ht].
      exists d. rewrite lookup_insert_ne; [done|]. intros Heq. congruence.
  - intros id t Hlk. destruct (Hp _ _ Hlk) as [ex Ht].
    exists ex. rewrite lookup_insert_ne; [done|]. intros Heq. congruence.
  - intros t d id. destruct (decide (next_timeout w1 = t)) as [<-|Hne].
    + rewrite lookup_insert_eq. intros [= <- <-]. by rewrite lookup_insert_eq.
    + rewrite lookup_insert_ne by done. intros Hlk. specialize (Hpw _ _ _ Hlk).
      rewrite lookup_insert_ne; [done|]. intros <-. congruence.
  - intros t d id ex. destruct (decide (next_timeout w1 = t)) as [<-|Hne].
    + rewrite lookup_insert_eq. intros [=].
    + rewrite lookup_insert_ne by done. apply Hpp.
  - intros t. destruct (decide (next_timeout w1 = t)) as [<-|Hne]; [lia|].
    rewrite lookup_insert_ne by done. intros Hlk%Hh. lia.
Qed.

Lemma ext_ok_startPermission (w : Ext) (agentId : Z) (exempt : gset string) :
  ext_ok w -> ext_ok (startPermissionTimer agentId exempt w).
Proof.
  intros Hok%(ext_ok_cancelPermission _ agentId). unfold startPermissionTimer.
  assert (Hgone : permissionTimers (cancelPermissionTimer agentId w) !! agentId = None).
  { unfold cancelPermissionTimer. destruct (permissionTimers w !! agentId) eqn:Hlk; [|done].
    cbn. apply lookup_delete_eq. }
  set (w1 := cancelPermissionTimer agentId w) in *.
  pose proof (ext_ok_fresh _ Hok) as Hfresh. destruct Hok as [Hw Hp Hpw Hpp Hh].
  split; cbn.
  - intros id t Hlk. destruct (Hw _ _ Hlk) as [d Ht].
    exists d. rewrite lookup_insert_ne; [done|]. intros Heq. congruence.
  - intros id t. destruct (decide (agentId = id)) as [<-|Hne].
    + rewrite lookup_insert_eq. intros [= <-]. rewrite lookup_insert_eq. by eexists.
    + rewrite lookup_insert_ne by done. intros Hlk. destruct (Hp _ _ Hlk) as [ex Ht].
      exists ex. rewrite lookup_insert_ne; [done|]. intros Heq. congruence.
  - intros t d id. destruct (decide (next_timeout w1 = t)) as [<-|Hne].
    + rewrite lookup_insert_eq. intros [=].
    + rewrite lookup_insert_ne by done. apply Hpw.
  - intros t d id ex. destruct (decide (next_timeout w1 = t)) as [<-|Hne].
    + rewrite lookup_insert_eq. intros [= <- <- <-]. by rewrite lookup_insert_eq.
    + rewrite lookup_insert_ne by done. intros Hlk. destruct (Hpp _ _ _ _ Hlk) as [Hreg ->].
      split; [|done]. rewrite lookup_insert_ne; [done|]. intros <-. congruence.
  - intros t. destruct (decide (next_timeout w1 = t)) as [<-|Hne]; [lia|].
    rewrite lookup_insert_ne by done. intros Hlk%Hh. lia.
Qed.

Lemma ext_ok_postMessage (msg : WebviewMessage) (w : Ext) : ext_ok w -> ext_ok (postMessage msg w).
Proof. intros [? ? ? ? ?]. by split. Qed.

Lemma ext_ok_alter_agent (f : AgentState -> AgentState) (agentId : Z) (w : Ext) :
  ext_ok w -> ext_ok (alter_agent f agentId w).
Proof. intros [? ? ? ? ?]. by split. Qed.

Lemma ext_ok_clear (agent : option Z) (agentId : Z) (w : Ext) :
  ext_ok w -> ext_ok (clearAgentActivity agent agentId w).
Proof.
  intros Hok. unfold clearAgentActivity. destruct agent as [key|]; [|done].
  by apply ext_ok_postMessage, ext_ok_postMessage, ext_ok_cancelPermission, ext_ok_alter_agent.
Qed.

Lemma ext_ok_fire (timer : nat) (w : Ext) : ext_ok w -> ext_ok (fire timer w).
Proof.
  intros Hok. unfold fire.
  destruct (timeouts w !! timer) as [[d [id|id ex]]|] eqn:Hpending; [| |done].
  - apply ext_ok_postMessage, ext_ok_alter_agent.
    pose proof (ok_pending_waiting _ Hok _ _ _ Hpending) as Hreg.
    pose proof (ext_ok_cancelWaiting w id Hok) as Hok1.
    unfold cancelWaitingTimer in Hok1. by rewrite Hreg in Hok1.
  - pose proof (ok_pending_permission _ Hok _ _ _ _ Hpending) as [Hreg _].
    pose proof (ext_ok_cancelPermission w id Hok) as Hok1.
    unfold cancelPermissionTimer in Hok1. rewrite Hreg in Hok1. cbn [agents].
    destruct (agents w !! id) as [agent|]; [|done].
    destruct (hasNonExempt ex agent); [|done].
    by apply ext_ok_postMessage, ext_ok_alter_agent.
Qed.

Lemma ext_reachable_ok (w : Ext) : ext_reachable w -> ext_ok w.
Proof.
  induction 1 as [ags view|w ags view _ IH|w id d _ IH|w id _ IH|w id ex _ IH|w id _ IH
                 |w agent id _ IH|w t _ IH].
  - split; cbn; intros *; by rewrite lookup_empty.
  - by apply ext_ok_agents.
  - by apply ext_ok_startWaiting.
  - by apply ext_ok_cancelWaiting.
  - by apply ext_ok_startPermission.
  - by apply ext_ok_cancelPermission.
  - by apply ext_ok_clear.
  - by apply ext_ok_fire.
Qed.

Lemma new_messages_same (w : Ext) : new_messages w w = [].
Proof. unfold new_messages. destruct (webview w); [|done]. by rewrite drop_all. Qed.

Lemma new_messages_post (msg : WebviewMessage) (w w1 : Ext) :
  webview w1 = webview w ->
  new_messages w (postMessage msg w1) = match webview w with Some _ => [msg] | None => [] end.
Proof.
  intros Hview. unfold new_messages. cbn. rewrite Hview.
  destruct (webview w); [|done]. cbn. by rewrite drop_app_length.
Qed.

Lemma fire_messages (w : Ext) (timer : nat) (msg : WebviewMessage) :
  msg ∈ new_messages w (fire timer w) ->
  (exists delayMs agentId,
      timeouts w !! timer = Some (delayMs, waiting_expired agentId)
      /\ msg = agentStatus agentId "waiting")
  \/ (exists delayMs agentId exempt agent,
        timeouts w !! timer = Some (delayMs, permission_expired agentId exempt)
        /\ agents w !! agentId = Some agent
        /\ hasNonExempt exempt agent = true
        /\ msg = agentToolPermission agentId).
Proof.
  unfold fire.
  destruct (timeouts w !! timer) as [[d [id|id ex]]|] eqn:Hpending.
  - rewrite new_messages_post by done. destruct (webview w); [|by intros ?%elem_of_nil].
    intros ->%list_elem_of_singleton. left. by eexists _, _.
  - cbn [agents]. destruct (agents w !! id) as [agent|] eqn:Hagent.
    + destruct (hasNonExempt ex agent) eqn:Hflag.
      * rewrite new_messages_post by done.
        destruct (webview w); [|by intros ?%elem_of_nil].
        intros ->%list_elem_of_singleton. right. by eexists _, _, _, _.
      * unfold new_messages. cbn. destruct (webview w); [|by intros ?%elem_of_nil].
        rewrite drop_all. by intros ?%elem_of_nil.
    + unfold new_messages. cbn. destruct (webview w); [|by intros ?%elem_of_nil].
      rewrite drop_all. by intros ?%elem_of_nil.
  - rewrite new_messages_same. by intros ?%elem_of_nil.
Qed.

Lemma fire_isWaiting (w : Ext) (timer : nat) (agentId : Z) :
  (forall delayMs, timeouts w !! timer <> Some (delayMs, waiting_expired agentId)) ->
  isWaiting <$> agents (fire timer w) !! agentId = isWaiting <$> agents w !! agentId.
Proof.
  intros Hnot. unfold fire.
  destruct (timeouts w !! timer) as [[d [id|id ex]]|] eqn:Hpending; [| |done].
  - cbn. rewrite lookup_alter_ne; [done|]. intros ->. by destruct (Hnot d).
  - cbn [agents]. destruct (agents w !! id) as [agent|] eqn:Hagent; [|done].
    destruct (hasNonExempt ex agent); [|done]. cbn.
    destruct (decide (id = agentId)) as [->|Hne]; [|by rewrite lookup_alter_ne].
    rewrite lookup_alter_eq, Hagent. done.
Qed.

Lemma fire_permissionSent (w : Ext) (timer : nat) (agentId : Z) :
  (forall delayMs exempt,
      timeouts w !! timer <> Some (delayMs, permission_expired agentId exempt)) ->
  permissionSent <$> agents (fire timer w) !! agentId
  = permissionSent <$> agents w !! agentId.
Proof.
  intros Hnot. unfold fire.
  destruct (timeouts w !! timer) as [[d [id|id ex]]|] eqn:Hpending; [| |done].
  - cbn. destruct (decide (id = agentId)) as [->|Hne]; [|by rewrite lookup_alter_ne].
    rewrite lookup_alter_eq. by destruct (agents w !! agentId).
  - cbn [agents]. destruct (agents w !! id) as [agent|] eqn:Hagent; [|done].
    destruct (hasNonExempt ex agent); [|done]. cbn.
    rewrite lookup_alter_ne; [done|]. intros ->. by destruct (Hnot d ex).
Qed.

Lemma cancelWaitingTimer_none (w : Ext) (agentId : Z) (timer : nat) (delayMs : Z) :
  ext_ok w ->
  timeouts (cancelWaitingTimer agentId w) !! timer <> Some (delayMs, waiting_expired agentId).
Proof.
  intros Hok%(ext_ok_cancelWaiting _ agentId) Hpending.
  apply (ok_pending_waiting _ Hok) in Hpending. revert Hpending.
  unfold cancelWaitingTimer. destruct (waitingTimers w !! agentId) eqn:Hlk; cbn.
  - by rewrite lookup_delete_eq.
  - by rewrite Hlk.
Qed.

Lemma cancelPermissionTimer_none (w : Ext) (agentId : Z) (timer : nat) (delayMs : Z)
    (exempt : gset string) :
  ext_ok w ->
  timeouts (cancelPermissionTimer agentId w) !! timer
  <> Some (delayMs, permission_expired agentId exempt).
Proof.
  intros Hok%(ext_ok_cancelPermission _ agentId) Hpending.
  apply (ok_pending_permission _ Hok) in Hpending as [Hpending _]. revert Hpending.
  unfold cancelPermissionTimer. destruct (permissionTimers w !! agentId) eqn:Hlk; cbn.
  - by rewrite lookup_delete_eq.
  - by rewrite Hlk.
Qed.

(** X15: the timers are accounted for in every state the functions of
    [timerManager] and the expiry of timeouts can reach: the handle a map
    holds for an agent is a pending timeout of that agent, every pending
    timeout is the one its map holds, so none is leaked, and an agent has at
    most one waiting and at most one permission timeout pending. *)
Theorem timers_accounted (w : Ext) :
  ext_reachable w ->
  ext_ok w
  /\ (forall t1 t2 d1 d2 agentId,
        timeouts w !! t1 = Some (d1, waiting_expired agentId) ->
        timeouts w !! t2 = Some (d2, waiting_expired agentId) -> t1 = t2)
  /\ (forall t1 t2 d1 d2 agentId e1 e2,
        timeouts w !! t1 = Some (d1, permission_expired agentId e1) ->
        timeouts w !! t2 = Some (d2, permission_expired agentId e2) -> t1 = t2).
Proof.
  intros Hok%ext_reachable_ok. split; [done|]. split.
  - intros t1 t2 d1 d2 id H1%(ok_pending_waiting _ Hok) H2%(ok_pending_waiting _ Hok).
    congruence.
  - intros t1 t2 d1 d2 id e1 e2 [H1 _]%(ok_pending_permission _ Hok)
      [H2 _]%(ok_pending_permission _ Hok).
    congruence.
Qed.

(** X16: a cancelled timer never fires.  After [cancelWaitingTimer], whichever
    timeout expires next, the agent is not set waiting and no 'waiting'
    status is posted for it; after [cancelPermissionTimer], and after
    [clearAgentActivity], whichever timeout expires next, no permission
    notice is posted for the agent and its [permissionSent] stays as it
    is. *)
Theorem cancelled_timer_never_fires (w : Ext) (agentId : Z) (timer : nat) :
  ext_reachable w ->
  (let w' := cancelWaitingTimer agentId w in
   (agentStatus agentId "waiting" ∉ new_messages w' (fire timer w'))
   /\ isWaiting <$> agents (fire timer w') !! agentId = isWaiting <$> agents w' !! agentId)
  /\ (let w' := cancelPermissionTimer agentId w in
      (agentToolPermission agentId ∉ new_messages w' (fire timer w'))
      /\ permissionSent <$> agents (fire timer w') !! agentId
         = permissionSent <$> agents w' !! agentId)
  /\ (forall key,
        let w' := clearAgentActivity (Some key) agentId w in
        (agentToolPermission agentId ∉ new_messages w' (fire timer w'))
        /\ permissionSent <$> agents (fire timer w') !! agentId
           = permissionSent <$> agents w' !! agentId).
Proof.
  intros Hok%ext_reachable_ok. split; [|split].
  - intros w'. split.
    + intros [(d & id & Hpending & [= <-])|(d & id & ex & a & _ & _ & _ & [=])]%fire_messages.
      by apply cancelWaitingTimer_none in Hpending.
    + apply fire_isWaiting. intros d. by apply cancelWaitingTimer_none.
  - intros w'. split.
    + intros [(d & id & _ & [=])|(d & id & ex & a & Hpending & _ & _ & [= <-])]%fire_messages.
      by apply cancelPermissionTimer_none in Hpending.
    + apply fire_permissionSent. intros d ex. by apply cancelPermissionTimer_none.
  - intros key w'.
    assert (Hnone : forall d ex,
               timeouts w' !! timer <> Some (d, permission_expired agentId ex)).
    { intros d ex. unfold w', clearAgentActivity. cbn [postMessage timeouts].
      apply cancelPermissionTimer_none. by apply ext_ok_alter_agent. }
    split.
    + intros [(d & id & _ & [=])|(d & id & ex & a & Hpending & _ & _ & [= <-])]%fire_messages.
      by apply Hnone in Hpending.
    + by apply fire_permissionSent.
Qed.

Lemma hasNonExempt_true (exempt : gset string) (agent : AgentState) :
  hasNonExempt exempt agent = true
  <-> exists toolId, toolId ∈ activeToolIds agent
                     /\ default ""%string (activeToolNames agent !! toolId) ∉ exempt.
Proof.
  unfold hasNonExempt. rewrite existsb_exists. split.
  - intros (toolId & Hin & Hname). exists toolId. split; [by apply list_elem_of_In|].
    apply negb_true_iff in Hname. by apply bool_decide_eq_false in Hname.
  - intros (toolId & Hin & Hname). exists toolId. split; [by apply list_elem_of_In|].
    apply negb_true_iff. by apply bool_decide_eq_false.
Qed.

(** X17: a permission notice is posted exactly when it is due.  When a
    timeout expires, [agentToolPermission] is posted for an agent only if
    the timeout is a permission timeout of that agent, the agent is still
    known, and one of its active tools has a name (the empty string, for a
    tool without one) outside the exempt set; an expiring permission timeout
    of such an agent sets [permissionSent] and posts the notice, once, if
    there is a webview; one of an agent whose active tools are all exempt
    changes no agent and posts nothing.  Either way the timeout is pending no
    more and the agent's entry in [permissionTimers] is gone. *)
Theorem permission_notice_when_due (w : Ext) (timer : nat) :
  (forall agentId,
     agentToolPermission agentId ∈ new_messages w (fire timer w) ->
     exists delayMs exempt agent toolId,
       timeouts w !! timer = Some (delayMs, permission_expired agentId exempt)
       /\ agents w !! agentId = Some agent
       /\ toolId ∈ activeToolIds agent
       /\ default ""%string (activeToolNames agent !! toolId) ∉ exempt)
  /\ (forall delayMs agentId exempt agent,
        timeouts w !! timer = Some (delayMs, permission_expired agentId exempt) ->
        agents w !! agentId = Some agent ->
        timeouts (fire timer w) !! timer = None
        /\ permissionTimers (fire timer w) !! agentId = None
        /\ if hasNonExempt exempt agent
           then permissionSent <$> agents (fire timer w) !! agentId = Some true
                /\ new_messages w (fire timer w)
                   = match webview w with
                     | Some _ => [agentToolPermission agentId]
                     | None => []
                     end
           else agents (fire timer w) = agents w /\ webview (fire timer w) = webview w).
Proof.
  split.
  - intros id [(d & id' & _ & [=])|(d & id' & ex & a & Hpending & Hagent & Hflag & [= <-])]
             %fire_messages.
    apply hasNonExempt_true in Hflag as (toolId & Hin & Hname).
    by exists d, ex, a, toolId.
  - intros d id ex agent Hpending Hagent. unfold fire. rewrite Hpending. cbn [agents].
    rewrite Hagent. destruct (hasNonExempt ex agent).
    + cbn. rewrite !lookup_delete_eq, lookup_alter_eq, Hagent.
      split; [done|]. split; [done|]. split; [done|].
      unfold new_messages. cbn. destruct (webview w); [|done]. cbn.
      by rewrite drop_app_length.
    + cbn. by rewrite !lookup_delete_eq.
Qed.

Lemma ext_demo_reachable : ext_reachable ext_demo.
Proof. apply er_init. Qed.

Lemma readNewLines_appended_witness :
  (readNewLines (fs_demo (bytes_first ++ bytes_more)) ascii_text note_line 1 ext_read_once).2
  = [[99; 100]%N]
  /\ reader_at ascii_text
       (readNewLines (fs_demo (bytes_first ++ bytes_more)) ascii_text note_line 1
          ext_read_once).1 1 "t.jsonl" (bytes_first ++ bytes_more).
Proof.
  destruct (readNewLines_appended (fs_demo (bytes_first ++ bytes_more)) ascii_text note_line 1
              ext_read_once "t.jsonl" bytes_first bytes_more) as [Hat Hlines];
    [vm_compute; reflexivity | reflexivity | reflexivity | reflexivity |].
  split; [|exact Hat].
  change (complete_lines (ascii_text (bytes_first ++ bytes_more)))
    with ([[97; 98]%N] ++ [[99; 100]%N]) in Hlines.
  change (complete_lines (ascii_text bytes_first)) with [[97; 98]%N] in Hlines.
  by apply app_inv_head in Hlines.
Defined.

Lemma timers_accounted_witness :
  exists delayMs,
    timeouts (startWaitingTimer 1 1000 (startWaitingTimer 1 500 ext_demo)) !! 1%nat
    = Some (delayMs, waiting_expired 1).
Proof.
  destruct (timers_accounted (startWaitingTimer 1 1000 (startWaitingTimer 1 500 ext_demo)))
    as [Hok _]; [apply er_startWaiting, er_startWaiting, ext_demo_reachable|].
  apply (ok_waiting _ Hok 1 1%nat). vm_compute. reflexivity.
Defined.

Lemma cancelled_timer_never_fires_witness :
  agentToolPermission 1
  ∉ new_messages (cancelPermissionTimer 1 (startPermissionTimer 1 ∅ ext_demo))
      (fire 0 (cancelPermissionTimer 1 (startPermissionTimer 1 ∅ ext_demo))).
Proof.
  destruct (cancelled_timer_never_fires (startPermissionTimer 1 ∅ ext_demo) 1 0%nat)
    as (_ & [Hnot _] & _); [apply er_startPermission, ext_demo_reachable|].
  exact Hnot.
Defined.

Lemma permission_notice_when_due_witness :
  new_messages (startPermissionTimer 1 ∅ ext_demo) (fire 0 (startPermissionTimer 1 ∅ ext_demo))
  = [agentToolPermission 1].
Proof.
  destruct (permission_notice_when_due (startPermissionTimer 1 ∅ ext_demo) 0%nat) as [_ Hdue].
  destruct (Hdue 5000 1 ∅ agent_demo) as (_ & _ & Hflag);
    [vm_compute; reflexivity | vm_compute; reflexivity |].
  change (hasNonExempt ∅ agent_demo) with true in Hflag. destruct Hflag as [_ Hposted].
  exact Hposted.
Defined.

Lemma mapM_Some_fmap {A B : Type} (f : A -> option B) (g : A -> B) (l : list A) :
  (forall a, a ∈ l -> f a = Some (g a)) -> mapM f l = Some (g <$> l).
Proof.
  intros Hfg. apply mapM_Some. apply Forall2_fmap_r, Forall_Forall2_diag, Forall_forall.
  exact Hfg.
Qed.

Lemma rectangle_lookup (img : Image) (x y : Z) (width height row col : nat) :
  (row < height)%nat -> (col < width)%nat ->
  mjoin (rectangle img x y width height) !! (row * width + col)%nat
  = Some (img (x + Z.of_nat col) (y + Z.of_nat row)).
Proof.
  intros Hrow Hcol. apply (join_lookup_Some_same_length' width); [|done|].
  - apply Forall_forall. intros l (r & -> & _)%list_elem_of_fmap.
    by rewrite length_fmap, length_seq.
  - eexists. unfold rectangle. rewrite list_lookup_fmap, lookup_seq_lt by done. cbn.
    split; [done|]. by rewrite list_lookup_fmap, lookup_seq_lt.
Qed.

Lemma getImageData_lookup (img : Image) (x y : Z) (width height row col k : nat) :
  (row < height)%nat -> (col < width)%nat -> (k < 4)%nat ->
  getImageData img x y width height !! ((row * width + col) * 4 + k)%nat
  = (let '(r, g, b, a) := img (x + Z.of_nat col) (y + Z.of_nat row) in [r; g; b; a]) !! k.
Proof.
  intros Hrow Hcol Hk. unfold getImageData.
  destruct (img (x + Z.of_nat col) (y + Z.of_nat row)) as [[[r g] b] a] eqn:Hpixel.
  assert (Hk' : is_Some ([r; g; b; a] !! k)) by (apply lookup_lt_is_Some; cbn; lia).
  destruct Hk' as [v Hv]. rewrite Hv.
  apply (join_lookup_Some_same_length' 4); [|done|].
  - apply Forall_forall. by intros l ([[[r' g'] b'] a'] & -> & _)%list_elem_of_fmap.
  - exists [r; g; b; a]. split; [|done].
    by rewrite list_lookup_fmap, rectangle_lookup, Hpixel.
Qed.

Lemma spritePixel_cell (img : Image) (x y : Z) (width height row col : nat) :
  (row < height)%nat -> (col < width)%nat ->
  spritePixel (getImageData img x y width height) ((row * width + col) * 4)
  = Some (spriteCell (img (x + Z.of_nat col) (y + Z.of_nat row))).
Proof.
  intros Hrow Hcol. unfold spritePixel, spriteCell.
  rewrite !getImageData_lookup by (done || lia).
  pose proof (getImageData_lookup img x y width height row col 0 Hrow Hcol) as Hred.
  rewrite Nat.add_0_r in Hred. rewrite Hred by lia.
  destruct (img (x + Z.of_nat col) (y + Z.of_nat row)) as [[[r g] b] a]. cbn.
  by destruct (bool_decide (a < PNG_ALPHA_THRESHOLD)).
Qed.

Lemma imageToSpriteData_cells (img : Image) (x y : Z) (width height : nat) :
  imageToSpriteData img x y width height
  = Some (fmap (M:=list) (fmap (M:=list) spriteCell) (rectangle img x y width height)).
Proof.
  unfold imageToSpriteData, rectangle. rewrite <- list_fmap_compose.
  apply mapM_Some_fmap. intros row [_ Hrow]%elem_of_seq. cbn.
  rewrite <- list_fmap_compose.
  apply mapM_Some_fmap. intros col [_ Hcol]%elem_of_seq. cbn.
  apply spritePixel_cell; lia.
Qed.



Lemma colour_of_byte (n : Z) :
  0 <= n < 256 ->
  toUpperCase (padStart 2 "0" (toString16 n))
  = string_of_list_ascii [upper_hex (n / 16); upper_hex (n mod 16)].
Proof.
  intros Hn.
  assert (Hall : Forall (fun n => toUpperCase (padStart 2 "0" (toString16 n))
                                  = string_of_list_ascii [upper_hex (n / 16); upper_hex (n mod 16)])
                        (seqZ 0 256)).
  { refine (bool_decide_unpack _ _). vm_compute. exact I. }
  rewrite Forall_forall in Hall. apply Hall, elem_of_seqZ. lia.
Qed.

Lemma list_ascii_of_string_append (s t : string) :
  list_ascii_of_string (s +:+ t) = list_ascii_of_string s ++ list_ascii_of_string t.
Proof.
  induction s as [|c s IH]; [done|].
  rewrite append_cons. cbn [list_ascii_of_string]. by rewrite IH.
Qed.

Lemma string_of_list_ascii_app (l k : list ascii) :
  string_of_list_ascii (l ++ k) = string_of_list_ascii l +:+ string_of_list_ascii k.
Proof.
  induction l as [|c l IH]; [done|].
  cbn [app string_of_list_ascii]. by rewrite append_cons, IH.
Qed.

Lemma toUpperCase_append (s t : string) :
  toUpperCase (s +:+ t) = toUpperCase s +:+ toUpperCase t.
Proof.
  unfold toUpperCase.
  by rewrite list_ascii_of_string_append, fmap_app, string_of_list_ascii_app.
Qed.

Lemma colour_bytes (r g b : Z) :
  0 <= r < 256 -> 0 <= g < 256 -> 0 <= b < 256 -> colour r g b = hash_rrggbb r g b.
Proof.
  intros Hr Hg Hb. unfold colour, hash_rrggbb.
  rewrite !toUpperCase_append, !colour_of_byte by done. reflexivity.
Qed.

Lemma upper_hex_inj (d e : Z) :
  0 <= d < 16 -> 0 <= e < 16 -> upper_hex d = upper_hex e -> d = e.
Proof.
  intros Hd He.
  assert (Hall : Forall (fun d => Forall (fun e => upper_hex d = upper_hex e -> d = e)
                                    (seqZ 0 16)) (seqZ 0 16)).
  { refine (bool_decide_unpack _ _). vm_compute. exact I. }
  rewrite Forall_forall in Hall. specialize (Hall d). rewrite Forall_forall in Hall.
  apply Hall; apply elem_of_seqZ; lia.
Qed.

Lemma upper_hex_digit (d : Z) :
  0 <= d < 16 -> upper_hex d ∈ list_ascii_of_string "0123456789ABCDEF".
Proof.
  intros Hd.
  assert (Hall : Forall (fun d => upper_hex d ∈ list_ascii_of_string "0123456789ABCDEF")
                        (seqZ 0 16)).
  { refine (bool_decide_unpack _ _). vm_compute. exact I. }
  rewrite Forall_forall in Hall. apply Hall, elem_of_seqZ. lia.
Qed.

(** X19: the colour of an opaque pixel is written as a hash sign and six
    upper-case hexadecimal digits, two each for red, green and blue, most
    significant first; so it is seven characters long, never the empty
    string that stands for a transparent pixel, and two pixels get the same
    string only if they have the same red, green and blue. *)
Theorem colour_is_hash_rrggbb (r g b r' g' b' : Z) :
  0 <= r < 256 -> 0 <= g < 256 -> 0 <= b < 256 ->
  0 <= r' < 256 -> 0 <= g' < 256 -> 0 <= b' < 256 ->
  colour r g b = hash_rrggbb r g b
  /\ String.length (colour r g b) = 7%nat
  /\ (forall c, c ∈ list_ascii_of_string (colour r g b) ->
        c ∈ list_ascii_of_string "#0123456789ABCDEF")
  /\ (colour r g b = colour r' g' b' -> r = r' /\ g = g' /\ b = b').
Proof.
  intros Hr Hg Hb Hr' Hg' Hb'. rewrite !colour_bytes by done.
  split; [done|]. split; [done|]. split.
  - intros c Hc. cbn in Hc.
    assert (Hdigit : forall d, 0 <= d < 16 ->
                       upper_hex d ∈ list_ascii_of_string "#0123456789ABCDEF")
      by (intros d Hd; apply list_elem_of_further, (upper_hex_digit d Hd)).
    repeat (apply elem_of_cons in Hc as [->|Hc];
            [first [apply list_elem_of_here
                   |apply Hdigit; first [apply Z.mod_pos_bound; lia
                                        |split; [apply Z.div_pos; lia
                                                |apply Z.div_lt_upper_bound; lia]]]|]).
    by apply elem_of_nil in Hc.
  - unfold hash_rrggbb. cbn. intros [= H1 H2 H3 H4 H5 H6].
    apply upper_hex_inj in H1, H2, H3, H4, H5, H6;
      try first [apply Z.mod_pos_bound; lia
                |split; [apply Z.div_pos; lia|apply Z.div_lt_upper_bound; lia]].
    rewrite (Z.div_mod r 16), (Z.div_mod g 16), (Z.div_mod b 16) by lia.
    rewrite (Z.div_mod r' 16), (Z.div_mod g' 16), (Z.div_mod b' 16) by lia.
    rewrite H1, H2, H3, H4, H5, H6. done.
Qed.

Lemma colour_is_hash_rrggbb_witness :
  colour 255 171 0 = "#FFAB00"%string.
Proof.
  destruct (colour_is_hash_rrggbb 255 171 0 0 0 0) as [-> _]; (lia || reflexivity).
Defined.

Lemma rectangle_cell (img : Image) (x y : Z) (width height row col : nat) :
  (row < height)%nat -> (col < width)%nat ->
  fmap (M:=list) (fmap (M:=list) spriteCell) (rectangle img x y width height) !! row
    ≫= (.!! col)
  = Some (spriteCell (img (x + Z.of_nat col) (y + Z.of_nat row))).
Proof.
  intros Hrow Hcol. unfold rectangle.
  rewrite !list_lookup_fmap, lookup_seq_lt by done. cbn.
  by rewrite !list_lookup_fmap, lookup_seq_lt.
Qed.

Lemma loadWallTiles_pieces (img : Image) :
  loadWallTiles img
  = Some ((fun mask =>
             fmap (M:=list) (fmap (M:=list) spriteCell)
               (rectangle img (Z.rem (Z.of_nat mask) 4 * 16) (Z.of_nat mask / 4 * 32) 16 32))
          <$> seq 0 16).
Proof.
  unfold loadWallTiles. apply mapM_Some_fmap. intros mask _.
  unfold wallPieceOrigin. apply imageToSpriteData_cells.
Qed.

(** X20: the sixteen wall pieces tile the 64 x 128 sheet.  [loadWallTiles]
    never throws and sets sixteen sprites; the cell at (row, col) of the
    piece for [mask] is made from the sheet's pixel at
    ((mask mod 4) * 16 + col, (mask div 4) * 32 + row), which lies on the
    sheet; and every pixel (x, y) of the sheet is in exactly that way the
    cell (y mod 32, x mod 16) of the piece for mask (y div 32) * 4 + x div 16,
    so no pixel of the sheet is left out and none is used twice. *)
Theorem wall_pieces_tile_sheet (img : Image) :
  exists sprites,
    loadWallTiles img = Some sprites
    /\ length sprites = 16%nat
    /\ (forall mask row col, (mask < 16)%nat -> (row < 32)%nat -> (col < 16)%nat ->
          let px := Z.of_nat (mask mod 4) * 16 + Z.of_nat col in
          let py := Z.of_nat (mask / 4) * 32 + Z.of_nat row in
          0 <= px < 64 /\ 0 <= py < 128
          /\ (sprites !! mask ≫= (.!! row)) ≫= (.!! col) = Some (spriteCell (img px py))
          /\ mask = Z.to_nat (py / 32 * 4 + px / 16)
          /\ row = Z.to_nat (py mod 32) /\ col = Z.to_nat (px mod 16))
    /\ (forall x y, 0 <= x < 64 -> 0 <= y < 128 ->
          (sprites !! Z.to_nat (y / 32 * 4 + x / 16)
             ≫= (.!! Z.to_nat (y mod 32))) ≫= (.!! Z.to_nat (x mod 16))
          = Some (spriteCell (img x y))).
Proof.
  eexists. split; [apply loadWallTiles_pieces|]. split; [by rewrite length_fmap, length_seq|].
  assert (Hcell : forall mask row col, (mask < 16)%nat -> (row < 32)%nat -> (col < 16)%nat ->
            (((fun mask =>
                fmap (M:=list) (fmap (M:=list) spriteCell)
                  (rectangle img (Z.rem (Z.of_nat mask) 4 * 16) (Z.of_nat mask / 4 * 32) 16 32))
             <$> seq 0 16) !! mask ≫= (.!! row)) ≫= (.!! col)
            = Some (spriteCell (img (Z.rem (Z.of_nat mask) 4 * 16 + Z.of_nat col)
                                    (Z.of_nat mask / 4 * 32 + Z.of_nat row)))).
  { intros mask row col Hmask Hrow Hcol.
    rewrite list_lookup_fmap, lookup_seq_lt by done.
    cbn [fmap option_fmap option_map mbind option_bind Nat.add].
    apply rectangle_cell; lia. }
  split.
  - intros mask row col Hmask Hrow Hcol px py.
    assert (Hx : Z.of_nat (mask mod 4) = Z.rem (Z.of_nat mask) 4)
      by (rewrite Z.rem_mod_nonneg by lia; apply Nat2Z.inj_mod).
    assert (Hy : Z.of_nat (mask / 4) = Z.of_nat mask / 4) by apply Nat2Z.inj_div.
    pose proof (Nat.mod_upper_bound mask 4 ltac:(lia)) as Hm.
    pose proof (Nat.Div0.div_lt_upper_bound mask 4 4 ltac:(lia)) as Hd.
    pose proof (Nat.div_mod_eq mask 4) as Hdm.
    assert (Hpy : py / 32 = Z.of_nat (mask / 4) /\ py mod 32 = Z.of_nat row).
    { unfold py. rewrite Z.add_comm, Z.div_add, Z.mod_add, Z.div_small, Z.mod_small by lia.
      lia. }
    assert (Hpx : px / 16 = Z.of_nat (mask mod 4) /\ px mod 16 = Z.of_nat col).
    { unfold px. rewrite Z.add_comm, Z.div_add, Z.mod_add, Z.div_small, Z.mod_small by lia.
      lia. }
    destruct Hpy as [-> ->], Hpx as [-> ->].
    split; [unfold px; lia|]. split; [unfold py; lia|]. split.
    + unfold px, py. rewrite Hx, Hy. by apply Hcell.
    + lia.
  - intros x y Hx Hy.
    pose proof (Z.div_mod x 16 ltac:(lia)) as Hxd. pose proof (Z.mod_pos_bound x 16 ltac:(lia)).
    pose proof (Z.div_mod y 32 ltac:(lia)) as Hyd. pose proof (Z.mod_pos_bound y 32 ltac:(lia)).
    assert (0 <= x / 16 < 4) by (split; [apply Z.div_pos|apply Z.div_lt_upper_bound]; lia).
    assert (0 <= y / 32 < 4) by (split; [apply Z.div_pos|apply Z.div_lt_upper_bound]; lia).
    assert (Hrem : Z.rem (y / 32 * 4 + x / 16) 4 = x / 16).
    { rewrite Z.rem_mod_nonneg by lia. symmetry. apply (Z.mod_unique _ 4 (y / 32)); lia. }
    assert (Hdiv : (y / 32 * 4 + x / 16) / 4 = y / 32).
    { symmetry. apply (Z.div_unique _ 4 (y / 32) (x / 16)); lia. }
    rewrite Hcell by lia. rewrite !Z2Nat.id, Hrem, Hdiv by lia.
    f_equal. f_equal. f_equal; lia.
Qed.

Lemma wall_pieces_tile_sheet_witness :
  exists sprites,
    loadWallTiles stripes = Some sprites
    /\ (sprites !! 5%nat ≫= (.!! 0%nat)) ≫= (.!! 2%nat) = Some "#12AB20"%string.
Proof.
  destruct (wall_pieces_tile_sheet stripes) as (sprites & Heq & _ & Hcell & _).
  exists sprites. split; [exact Heq|].
  destruct (Hcell 5%nat 0%nat 2%nat) as (_ & _ & -> & _); [lia | lia | lia |].
  vm_compute. reflexivity.
Defined.

(** X21: the status button cycles through the four statuses in the order
    coding, reading, idle, afk and back to coding: a click never keeps the
    status and never fails, four clicks come back to the status they
    started from, and fewer do not. *)
Theorem status_button_cycles (s : PlayerStatus) :
  exists s1 s2 s3,
    handleStatusClick s = Some s1 /\ handleStatusClick s1 = Some s2
    /\ handleStatusClick s2 = Some s3 /\ handleStatusClick s3 = Some s
    /\ NoDup [s; s1; s2; s3]
    /\ (s = afk -> s1 = coding) /\ (s = coding -> s1 = reading)
    /\ (s = reading -> s1 = idle) /\ (s = idle -> s1 = afk).
Proof.
  destruct s.
  - exists reading, idle, afk. repeat split; try done.
    refine (bool_decide_unpack _ _). vm_compute. exact I.
  - exists idle, afk, coding. repeat split; try done.
    refine (bool_decide_unpack _ _). vm_compute. exact I.
  - exists afk, coding, reading. repeat split; try done.
    refine (bool_decide_unpack _ _). vm_compute. exact I.
  - exists coding, reading, idle. repeat split; try done.
    refine (bool_decide_unpack _ _). vm_compute. exact I.
Qed.

(** X22: the name tags, the status button and the hook agree about the
    statuses.  For any text in the status field a tag has a dot exactly when
    it shows an activity, and that is exactly for 'coding', 'reading' and
    'afk'; for a status of the protocol the activity on the tag is the label
    on the button, except that an idle player's tag shows none; and the dot
    pulses exactly when the hook animates the character as active. *)
Theorem status_display_agrees (text : string) (s : PlayerStatus) :
  (tag_has_dot text = true <-> statusLabel text <> ""%string)
  /\ (statusLabel text <> ""%string
      <-> text = "coding"%string \/ text = "reading"%string \/ text = "afk"%string)
  /\ (forall name, statusLabel text = ""%string -> tag_text name text = name)
  /\ statusLabel (status_name s) = (if decide (s = idle) then ""%string else buttonLabel s)
  /\ tag_dot_pulses (status_name s) = statusToActive s.
Proof.
  split; [|split; [|split; [|split]]].
  - unfold tag_has_dot, statusDotColor, statusLabel.
    repeat (destruct (decide _); [done|]). done.
  - unfold statusLabel.
    destruct (decide (text = "coding"%string)); [by split; [left|]|].
    destruct (decide (text = "reading"%string)); [by split; [right; left|]|].
    destruct (decide (text = "afk"%string)); [by split; [right; right|]|].
    split; [done|]. intros [?|[?|?]]; done.
  - intros name Hnone. unfold tag_text. rewrite Hnone. cbn. apply append_empty_r.
  - by destruct s.
  - by destruct s.
Qed.

Lemma alphabet_char (c : ascii) :
  in_alphabet c -> is_space c = false /\ upper_char c = c /\ c <> "#"%char.
Proof.
  intros Hin%list_elem_of_In.
  assert (Hall : Forall (fun c => is_space c = false /\ upper_char c = c /\ c <> "#"%char)
                        (list_ascii_of_string chars)).
  { refine (bool_decide_unpack _ _). vm_compute. exact I. }
  rewrite Forall_forall in Hall. by apply Hall.
Qed.

Lemma trim_start_blank (l k : list ascii) :
  Forall (fun c => is_space c = true) l -> trim_start (l ++ k) = trim_start k.
Proof. induction 1 as [|c l Hc _ IH]; [done|]. cbn. by rewrite Hc. Qed.

Lemma trim_padded (l body r : list ascii) (first last_char : ascii) (middle : list ascii) :
  Forall (fun c => is_space c = true) l ->
  Forall (fun c => is_space c = true) r ->
  body = first :: middle -> is_space first = false ->
  rev body = last_char :: rev (removelast body) -> is_space last_char = false ->
  rev (trim_start (rev (trim_start (l ++ body ++ r)))) = body.
Proof.
  intros Hl Hr Hbody Hfirst Hrev Hlast.
  rewrite trim_start_blank by done.
  assert (Hstart : trim_start (body ++ r) = body ++ r)
    by (rewrite Hbody; cbn; by rewrite Hfirst).
  rewrite Hstart, rev_app_distr.
  rewrite trim_start_blank by (by apply Forall_rev).
  rewrite Hrev. cbn. rewrite Hlast. rewrite <- Hrev. apply rev_involutive.
Qed.

Lemma valid_room_id_trim (id l r : string) :
  valid_room_id id -> blank l -> blank r -> trim (l +:+ id +:+ r) = id.
Proof.
  intros [Hlen Hchars] Hl Hr. unfold trim.
  rewrite !list_ascii_of_string_append.
  rewrite string_length_list_ascii in Hlen.
  destruct (list_ascii_of_string id) as [|first middle] eqn:Hid; [done|].
  assert (Hne : first :: middle <> []) by done.
  pose proof (app_removelast_last first Hne) as Hsplit.
  assert (Hlast_in : In (List.last (first :: middle) first) (first :: middle)).
  { rewrite Hsplit at 2. apply in_or_app. right. by left. }
  rewrite Forall_forall in Hchars.
  assert (Hfirst : is_space first = false).
  { apply alphabet_char, Hchars. by left. }
  assert (Hlast : is_space (List.last (first :: middle) first) = false).
  { apply alphabet_char, Hchars, list_elem_of_In, Hlast_in. }
  erewrite (trim_padded _ (first :: middle) _ first (List.last (first :: middle) first) middle);
    [by rewrite <- Hid, string_of_list_ascii_of_string|done|done|done|done| |done].
  rewrite Hsplit at 1. by rewrite rev_app_distr.
Qed.

Lemma valid_room_id_upper (id : string) : valid_room_id id -> toUpperCase id = id.
Proof.
  intros [_ Hchars]. unfold toUpperCase.
  rewrite <- (string_of_list_ascii_of_string id) at 2. f_equal.
  induction Hchars as [|c l Hc _ IH]; [done|].
  cbn. rewrite IH. f_equal. by apply alphabet_char.
Qed.

Lemma replace_first_location_hash (id : string) :
  replace_first "#" (location_hash id) = id.
Proof. reflexivity. Qed.

Lemma valid_room_id_nonempty (id : string) : valid_room_id id -> id <> ""%string.
Proof. intros [Hlen _] ->. done. Qed.

Lemma room_code_survives_lobby_core (id l r playerName : string) (characterIndex : Z) :
  valid_room_id id -> blank l -> blank r -> canSubmit playerName = true ->
  handleJoin (l +:+ id +:+ r) playerName characterIndex
  = Some (mkSubmit (trim playerName) characterIndex (Some id) (trim playerName)
            characterIndex)
  /\ request_of (mkSubmit (trim playerName) characterIndex (Some id) (trim playerName)
                   characterIndex)
     = C2S_JoinRoom id (trim playerName) characterIndex.
Proof.
  intros Hvalid Hl Hr Hname. split; [|done].
  unfold handleJoin. rewrite Hname, valid_room_id_trim by done.
  rewrite bool_decide_eq_false_2 by (by apply valid_room_id_nonempty). cbn.
  by rewrite valid_room_id_upper.
Qed.

(** X23: a room code survives the lobby.  For every identifier of six
    characters of the room alphabet: the link made for the room leads back to
    it ([hashRoomId] of the link's hash is the identifier); and the join form,
    given the identifier with any white space around it and a name that is
    not blank, asks to join exactly that identifier, with the name trimmed:
    trimming and upper-casing leave the identifier as it is. *)
Theorem room_code_survives_lobby (id l r playerName : string) (characterIndex : Z) :
  valid_room_id id -> blank l -> blank r -> canSubmit playerName = true ->
  hashRoomId (location_hash id) = Some id
  /\ handleJoin (l +:+ id +:+ r) playerName characterIndex
     = Some (mkSubmit (trim playerName) characterIndex (Some id) (trim playerName)
               characterIndex)
  /\ request_of (mkSubmit (trim playerName) characterIndex (Some id) (trim playerName)
                   characterIndex)
     = C2S_JoinRoom id (trim playerName) characterIndex.
Proof.
  intros Hvalid Hl Hr Hname.
  pose proof (valid_room_id_nonempty id Hvalid) as Hne.
  assert (Htrim : trim id = id).
  { rewrite <- (valid_room_id_trim id "" "") at 2 by (done || apply Forall_nil_2).
    by rewrite append_empty_r. }
  split; [|by apply room_code_survives_lobby_core].
  unfold hashRoomId. rewrite replace_first_location_hash, Htrim.
  by rewrite decide_False.
Qed.

Lemma room_code_survives_lobby_witness :
  handleJoin "  ABCD23 " " ann" 3
  = Some (mkSubmit "ann" 3 (Some "ABCD23"%string) "ann" 3).
Proof.
  destruct (room_code_survives_lobby "ABCD23" "  " " " " ann" 3) as (_ & Hjoin & _);
    [ | | | reflexivity | exact Hjoin].
  - split; [reflexivity|]. repeat constructor; unfold in_alphabet; cbn; tauto.
  - repeat constructor.
  - repeat constructor.
Defined.

(** X24: a room that was created can be joined through the lobby with the
    code the creator was sent.  When the server handles a request to create
    a room, the reply names an identifier that is live afterwards; given
    that identifier, with any white space around it, and a name that is not
    blank, the join form makes a request that the server, handling it next
    for an open socket, answers with roomJoined for that identifier, the
    creator being among the players listed. *)
Theorem created_room_joinable (fuel : nat) (rs : WebSocket -> Z) (rng : Rng) (n : nat)
    (s : Server) (c d : WebSocket) (name : string) (characterIndex : Z) s' n' out
    (l r name2 : string) (characterIndex2 : Z) :
  server_message fuel rs rng n s c (C2S_CreateRoom name characterIndex) = Some (s', n', out) ->
  blank l -> blank r -> canSubmit name2 = true -> rs d = 1 ->
  let creator := mkPlayerInfo 1 name (Z.rem characterIndex 6) idle None in
  exists id sub s2 out2 players,
    out = sendTo rs c (S2C_RoomJoined id 1 [creator])
    /\ id ∈ live_rooms (manager s')
    /\ handleJoin (l +:+ id +:+ r) name2 characterIndex2 = Some sub
    /\ server_message fuel rs rng n' s' d (request_of sub) = Some (s2, n', out2)
    /\ (d, S2C_RoomJoined id 2 players) ∈ out2
    /\ creator ∈ players.
Proof.
  intros Hmsg Hl Hr Hname Hopen creator. unfold server_message in Hmsg.
  cbn [handleMessage] in Hmsg. unfold handleCreateRoom in Hmsg.
  destruct (fresh_room_id fuel rng n (rooms (manager s))) as [[id n2]|] eqn:Hfresh; [|done].
  apply fresh_room_id_sound in Hfresh as [Hnew Hvalid].
  cbn in Hmsg. injection Hmsg as <- <- <-.
  destruct (room_code_survives_lobby_core id l r name2 characterIndex2 Hvalid Hl Hr Hname)
    as [Hjoin Hreq].
  eexists id, _, _, _, _. split; [done|]. split.
  { unfold live_rooms. cbn. rewrite dom_insert_L. set_solver. }
  split; [exact Hjoin|]. rewrite Hreq.
  unfold server_message. cbn [handleMessage manager]. unfold handleJoinRoom, with_room.
  cbn [rooms store]. rewrite !lookup_insert_eq. cbn.
  split; [reflexivity|]. split.
  - unfold sendTo. rewrite decide_True by done. apply list_elem_of_here.
  - apply list_elem_of_here.
Qed.

Lemma created_room_joinable_witness :
  exists id sub s2 out2 players,
    handleJoin ("" +:+ id +:+ "") "bob" 7 = Some sub
    /\ server_message 1 all_open zeros 6 server_one 2%nat (request_of sub) = Some (s2, 6%nat, out2)
    /\ (2%nat, S2C_RoomJoined id 2 players) ∈ out2
    /\ mkPlayerInfo 1 "ann" 0 idle None ∈ players.
Proof.
  destruct (created_room_joinable 1 all_open zeros 0 server_init 1%nat 2%nat "ann" 0
              server_one 6%nat (frames_of server_init 1%nat (C2S_CreateRoom "ann" 0))
              "" "" "bob" 7)
    as (id & sub & s2 & out2 & players & _ & _ & Hjoin & Hmsg & Hin & Hcreator);
    [vm_compute; reflexivity | constructor | constructor | reflexivity | reflexivity |].
  by exists id, sub, s2, out2, players.
Defined.

Lemma map_set_present {V : Type} (k : WebSocket) (v : V) (m : list (WebSocket * V)) :
  is_Some (map_get k m) -> length (map_set k v m) = length m.
Proof.
  induction m as [|[k' v'] m IH]; [by intros [? ?]|]. cbn [map_get map_set].
  destruct (decide (k' = k)); [done|]. intros Hin. cbn. by rewrite IH.
Qed.

(** X25: a socket that joins the room it is in already is given a new id in
    place of the old one, and is not announced as having left.  The room
    keeps as many players as before, the socket's player now under the
    room's next id, every other player as it was; the old id is no longer in
    the room; yet the snapshot sent to the socket still lists the old
    player, before the new one, the other players are told of the new player
    only, and no playerLeft is sent for the old id. *)
Theorem rejoin_replaces_player (rs : WebSocket -> Z) (s : Server) (sock : WebSocket)
    (room_name name : string) (characterIndex : Z) (ref : nat) (room : Room) (old : Player) :
  server_reachable s ->
  rooms (manager s) !! room_name = Some ref ->
  store (manager s) !! ref = Some room ->
  getPlayer room sock = Some old ->
  let info := mkPlayerInfo (nextPlayerId room) name (Z.rem characterIndex 6) idle None in
  exists room',
    handleJoinRoom rs (manager s) sock room_name name characterIndex
    = ({| store := <[ref := room']> (store (manager s));
          rooms := rooms (manager s);
          wsToRoom := <[sock := ref]> (wsToRoom (manager s)) |},
       sendTo rs sock
         (S2C_RoomJoined room_name (nextPlayerId room) (getPlayerInfos room ++ [info]))
       ++ frames_to_open rs (room_players room') (Some sock) (S2C_PlayerJoined info))
    /\ getPlayer room' sock = Some (mkPlayer sock info)
    /\ length (room_players room') = length (room_players room)
    /\ (forall k, k <> sock -> getPlayer room' k = getPlayer room k)
    /\ pl_info old ∈ getPlayerInfos room
    /\ (forall p, p ∈ getPlayerInfos room' -> p_id p <> p_id (pl_info old)).
Proof.
  intros Hreach Hlk Hroom Hold info.
  apply server_reachable_ok in Hreach as [_ _ Hstore _].
  pose proof (Hstore _ _ Hroom) as Hok.
  pose proof Hok as [Hkeys Hsock Hids Hrange Hnext].
  set (room1 := mkRoom (room_id room) (map_set sock (mkPlayer sock info) (room_players room))
                  (nextPlayerId room + 1) None).
  assert (Hadd : addPlayer room sock name characterIndex = (room1, info)) by reflexivity.
  pose proof (room_ok_addPlayer room sock name characterIndex Hok) as Hok1.
  rewrite Hadd in Hok1. cbn [fst] in Hok1.
  exists room1. split; [|split; [|split; [|split; [|split]]]].
  - unfold handleJoinRoom, with_room. rewrite Hlk, Hroom, Hadd. f_equal. f_equal.
    apply broadcast_frames, Hok1.
  - apply map_get_set_eq.
  - apply map_set_present. unfold getPlayer in Hold. by rewrite Hold.
  - intros k Hk. by apply map_get_set_ne.
  - unfold getPlayerInfos. apply list_elem_of_In, in_map_iff. exists (sock, old).
    split; [done|]. by apply list_elem_of_In, map_get_elem_of.
  - intros p Hp. unfold getPlayerInfos in Hp.
    apply list_elem_of_In, in_map_iff in Hp as (e & <- & He%list_elem_of_In).
    cbn [room1 room_players] in He.
    apply map_set_elem_of in He as [->|[He Hne]]; [| |exact Hkeys].
    + cbn. apply map_get_elem_of in Hold. specialize (Hrange _ Hold). cbn in Hrange. lia.
    + intros Heq. apply Hne.
      by apply (room_player_by_id room sock old e Hok Hold He).
Qed.

Lemma rejoin_replaces_player_witness :
  exists room',
    (handleJoinRoom all_open (manager server_two) 2%nat "AAAAAA" "bea" 0).1
    = {| store := <[0%nat := room']> (store (manager server_two));
         rooms := rooms (manager server_two);
         wsToRoom := <[2%nat := 0%nat]> (wsToRoom (manager server_two)) |}
    /\ getPlayer room' 2%nat = Some (mkPlayer 2%nat (mkPlayerInfo 3 "bea" 0 idle None))
    /\ length (room_players room') = 2%nat.
Proof.
  destruct (rejoin_replaces_player all_open server_two 2%nat "AAAAAA" "bea" 0 0%nat
              (mkRoom "AAAAAA"
                 [(1%nat, mkPlayer 1%nat (mkPlayerInfo 1 "ann" 0 idle None));
                  (2%nat, mkPlayer 2%nat (mkPlayerInfo 2 "bob" 1 idle None))] 3 None)
              (mkPlayer 2%nat (mkPlayerInfo 2 "bob" 1 idle None)))
    as (room' & Hjoin & Hnew & Hlen & _);
    [apply server_two_reachable | vm_compute; reflexivity | vm_compute; reflexivity
    | vm_compute; reflexivity |].
  exists room'. rewrite Hjoin. by split.
Defined.

(** X26: a socket whose connection has closed is ignored: on the state after
    [handleDisconnect], a second close of the same socket, a status request
    and a seat request of it change nothing and send nothing, and its ping is
    answered, if at all, with a pong to itself. *)
Theorem departed_socket_is_ignored (rs rs' : WebSocket -> Z) (s : Server) (d : WebSocket)
    (status : PlayerStatus) (seat : string) :
  server_reachable s ->
  let s1 := (handleDisconnect rs s d).1 in
  wsToRoom (manager s1) !! d = None
  /\ handleDisconnect rs' s1 d = (s1, [])
  /\ handleSetStatus rs' (manager s1) d status = (manager s1, [])
  /\ handleReassignSeat rs' (manager s1) d seat = (manager s1, [])
  /\ (forall fuel rng n, handleMessage fuel rs' rng n (manager s1) d C2S_Ping
                         = Some (manager s1, n, sendTo rs' d S2C_Pong)).
Proof.
  intros Hreach s1.
  apply server_reachable_ok in Hreach as [_ Hws _ _].
  assert (Hgone : wsToRoom (manager s1) !! d = None).
  { unfold s1, handleDisconnect.
    destruct (wsToRoom (manager s) !! d) as [ref|] eqn:Hd; [|done].
    destruct (Hws _ _ Hd) as (room & Hroom & _). rewrite Hroom.
    destruct (removePlayer room d) as [room1 player].
    destruct (isEmpty room1); cbn; apply lookup_delete_eq. }
  split; [done|]. unfold handleDisconnect, handleSetStatus, handleReassignSeat.
  by rewrite Hgone.
Qed.

Lemma departed_socket_is_ignored_witness :
  handleDisconnect all_open (handleDisconnect all_open server_two 1%nat).1 1%nat
  = ((handleDisconnect all_open server_two 1%nat).1, []).
Proof.
  destruct (departed_socket_is_ignored all_open all_open server_two 1%nat coding "desk-1"
              server_two_reachable) as (_ & Hagain & _).
  exact Hagain.
Defined.

Lemma room_extends_refl (r : Room) : room_extends r r.
Proof. split; [done|]. split; [lia|]. intros e He _. by exists e. Qed.

Lemma room_extends_trans (r1 r2 r3 : Room) :
  room_extends r1 r2 -> room_extends r2 r3 -> room_extends r1 r3.
Proof.
  intros (Hid1 & Hn1 & H1) (Hid2 & Hn2 & H2). split; [congruence|]. split; [lia|].
  intros e3 He3 Hlt. destruct (H2 e3 He3 ltac:(lia)) as (e2 & He2 & Hs & Hi & Hname & Hc).
  destruct (H1 e2 He2 ltac:(lia)) as (e1 & He1 & Hs' & Hi' & Hname' & Hc').
  exists e1. repeat split; congruence.
Qed.

Lemma room_extends_addPlayer (r : Room) (sock : WebSocket) (name : string) (ci : Z) :
  room_ok r -> room_extends r (addPlayer r sock name ci).1.
Proof.
  intros [Hkeys Hsock Hids Hrange Hnext]. split; [done|]. split; [cbn; lia|].
  intros e' He' Hlt. cbn in He'.
  apply map_set_ids in He' as [->|He']; [cbn in Hlt; lia|by exists e'|done|].
  intros e He. cbn. specialize (Hrange e He). lia.
Qed.

Lemma room_extends_set_info (r : Room) (sock : WebSocket) (f : PlayerInfo -> PlayerInfo) :
  (forall i, p_id (f i) = p_id i /\ p_name (f i) = p_name i
             /\ p_characterIndex (f i) = p_characterIndex i) ->
  room_extends r (set_info r sock f).
Proof.
  intros Hf. split; [done|]. split; [cbn; lia|].
  intros e' He' _. cbn in He'.
  apply list_elem_of_In, in_map_iff in He' as (e & <- & He%list_elem_of_In).
  exists e. split; [done|]. destruct (decide (e.1 = sock)); [|done]. cbn.
  destruct (Hf (pl_info e.2)) as (-> & -> & ->). done.
Qed.

Lemma room_extends_removePlayer (r : Room) (sock : WebSocket) :
  room_extends r (removePlayer r sock).1.
Proof.
  unfold removePlayer. destruct (map_get sock (room_players r)); [|apply room_extends_refl].
  split; [done|]. split; [cbn; lia|].
  intros e' He' _. cbn in He'. unfold map_delete in He'.
  apply list_elem_of_filter in He' as [_ He']. by exists e'.
Qed.

Lemma room_extends_timer (r r' : Room) (t : option nat) :
  room_extends r r' ->
  room_extends r (mkRoom (room_id r') (room_players r') (nextPlayerId r') t).
Proof. intros (? & ? & ?). by split. Qed.

Lemma server_next_extends (s s' : Server) (ref : nat) (room : Room) :
  server_ok s -> server_next s s' ->
  store (manager s) !! ref = Some room ->
  exists room', store (manager s') !! ref = Some room' /\ room_extends room room'.
Proof.
  intros [Hrooms Hws Hstore Htimers] Hnext Hroom.
  assert (Hsame : forall st : gmap nat Room, forall ref1 r1 r1',
             store (manager s) !! ref1 = Some r1 -> room_extends r1 r1' ->
             exists room', <[ref1 := r1']> (store (manager s)) !! ref = Some room'
                           /\ room_extends room room').
  { intros _ ref1 r1 r1' Hr1 Hext. destruct (decide (ref1 = ref)) as [->|Hne].
    - rewrite lookup_insert_eq. eexists. split; [done|]. congruence.
    - rewrite lookup_insert_ne by done. exists room. split; [done|apply room_extends_refl]. }
  destruct Hnext as [(fuel & rs & rng & n & d & msg & n' & out & Hmsg)
                    |[(rs & d & ->)|(t & ->)]].
  - unfold server_message in Hmsg.
    destruct (handleMessage fuel rs rng n (manager s) d msg) as [[[m1 n1] out1]|] eqn:Hhm;
      [|done].
    injection Hmsg as <- <- <-. cbn [manager].
    destruct msg as [name ci|room_name name ci|status|seat|]; cbn [handleMessage] in Hhm.
    + unfold handleCreateRoom in Hhm.
      destruct (fresh_room_id fuel rng n (rooms (manager s))) as [[id n2]|]; [|done].
      cbn in Hhm. injection Hhm as <- <- <-. cbn [store].
      rewrite lookup_insert_ne.
      * exists room. split; [done|apply room_extends_refl].
      * intros Heq. apply (is_fresh (dom (store (manager s)))). rewrite Heq.
        by eapply elem_of_dom_2.
    + unfold handleJoinRoom in Hhm.
      destruct (rooms (manager s) !! room_name) as [ref1|] eqn:Hlk.
      * destruct (Hrooms _ _ Hlk) as (r1 & Hr1 & _). unfold with_room in Hhm.
        rewrite Hr1 in Hhm.
        pose proof (room_extends_addPlayer r1 d name ci (Hstore _ _ Hr1)) as Hext.
        destruct (addPlayer r1 d name ci) as [r1' info].
        injection Hhm as <- <- <-. cbn [store]. by eapply (Hsame ∅).
      * injection Hhm as <- <- <-. exists room. split; [done|apply room_extends_refl].
    + unfold handleSetStatus, with_room in Hhm.
      destruct (wsToRoom (manager s) !! d) as [ref1|];
        [destruct (store (manager s) !! ref1) as [r1|] eqn:Hr1;
         [destruct (getPlayer r1 d)|]|]; injection Hhm as <- <- <-;
        try (exists room; split; [done|apply room_extends_refl]).
      cbn [store]. eapply (Hsame ∅); [done|]. by apply room_extends_set_info.
    + unfold handleReassignSeat, with_room in Hhm.
      destruct (wsToRoom (manager s) !! d) as [ref1|];
        [destruct (store (manager s) !! ref1) as [r1|] eqn:Hr1;
         [destruct (getPlayer r1 d)|]|]; injection Hhm as <- <- <-;
        try (exists room; split; [done|apply room_extends_refl]).
      cbn [store]. eapply (Hsame ∅); [done|]. by apply room_extends_set_info.
    + injection Hhm as <- <- <-. exists room. split; [done|apply room_extends_refl].
  - unfold handleDisconnect.
    destruct (wsToRoom (manager s) !! d) as [ref1|];
      [|exists room; split; [done|apply room_extends_refl]].
    destruct (store (manager s) !! ref1) as [r1|] eqn:Hr1;
      [|exists room; split; [done|apply room_extends_refl]].
    pose proof (room_extends_removePlayer r1 d) as Hext.
    destruct (removePlayer r1 d) as [room1 player]. cbn [fst] in Hext.
    destruct (isEmpty room1); cbn [fst manager store].
    + eapply (Hsame ∅); [done|]. by apply room_extends_timer.
    + by eapply (Hsame ∅).
  - exists room. split; [|apply room_extends_refl].
    unfold onCleanupTimer. destruct (timers s !! t) as [ref1|]; [|done]. cbn [manager].
    destruct (store (manager s) !! ref1) as [r1|]; [|done]. by destruct (isEmpty r1).
Qed.

Lemma server_next_reachable (s s' : Server) :
  server_reachable s -> server_next s s' -> server_reachable s'.
Proof.
  intros Hreach [(fuel & rs & rng & n & d & msg & n' & out & Hmsg)|[(rs & d & ->)|(t & ->)]].
  - by eapply sr_message.
  - by apply sr_close.
  - by apply sr_timer.
Qed.

Lemma server_run_extends (s s' : Server) (ref : nat) (room : Room) :
  server_reachable s -> rtc server_next s s' ->
  store (manager s) !! ref = Some room ->
  exists room', store (manager s') !! ref = Some room' /\ room_extends room room'.
Proof.
  intros Hreach Hrun. revert room Hreach.
  induction Hrun as [s|s s1 s' Hstep _ IH]; intros room Hreach Hroom.
  - exists room. split; [done|apply room_extends_refl].
  - destruct (server_next_extends s s1 ref room (server_reachable_ok _ Hreach) Hstep Hroom)
      as (room1 & Hroom1 & Hext1).
    destruct (IH room1 (server_next_reachable _ _ Hreach Hstep) Hroom1)
      as (room' & Hroom' & Hext').
    exists room'. split; [done|]. by eapply room_extends_trans.
Qed.

(** X27: a player id is never given out twice in a room.  Over any run of the
    server (messages, closes and timeouts, in any number), a room of the
    store stays in the store with its identifier, its next id never
    decreases, and a player found later in the room under an id that a
    player had before is that same player: same socket, name and character.
    So an id that has left a room never comes back for someone else. *)
Theorem player_ids_never_reused (s s' : Server) (ref : nat) (room : Room)
    (e : WebSocket * Player) :
  server_reachable s -> rtc server_next s s' ->
  store (manager s) !! ref = Some room ->
  e ∈ room_players room ->
  exists room',
    store (manager s') !! ref = Some room'
    /\ room_id room' = room_id room
    /\ nextPlayerId room <= nextPlayerId room'
    /\ forall e', e' ∈ room_players room' ->
         p_id (pl_info e'.2) = p_id (pl_info e.2) ->
         e'.1 = e.1 /\ p_name (pl_info e'.2) = p_name (pl_info e.2)
         /\ p_characterIndex (pl_info e'.2) = p_characterIndex (pl_info e.2).
Proof.
  intros Hreach Hrun Hroom He.
  destruct (server_run_extends s s' ref room Hreach Hrun Hroom)
    as (room' & Hroom' & Hid & Hnext & Hold).
  exists room'. split; [done|]. split; [done|]. split; [done|].
  intros e' He' Hsame.
  pose proof (ok_store _ (server_reachable_ok _ Hreach) _ _ Hroom) as Hok.
  pose proof (ok_range _ Hok e He) as Hrange.
  destruct (Hold e' He' ltac:(lia)) as (e0 & He0 & Hs & Hi & Hname & Hc).
  assert (e0 = e) as ->.
  { apply (NoDup_fmap_eq (fun e => p_id (pl_info e.2)) (room_players room));
      [apply Hok|done|done|congruence]. }
  by rewrite <- Hs, <- Hname, <- Hc.
Qed.

Lemma player_ids_never_reused_witness :
  exists room',
    store (manager (handleDisconnect all_open server_two 1%nat).1) !! 0%nat = Some room'
    /\ 3 <= nextPlayerId room'.
Proof.
  destruct (player_ids_never_reused server_two (handleDisconnect all_open server_two 1%nat).1
              0%nat
              (mkRoom "AAAAAA"
                 [(1%nat, mkPlayer 1%nat (mkPlayerInfo 1 "ann" 0 idle None));
                  (2%nat, mkPlayer 2%nat (mkPlayerInfo 2 "bob" 1 idle None))] 3 None)
              (2%nat, mkPlayer 2%nat (mkPlayerInfo 2 "bob" 1 idle None)))
    as (room' & Hroom' & _ & Hnext & _);
    [apply server_two_reachable
    | apply rtc_once; right; left; by exists all_open, 1%nat
    | vm_compute; reflexivity
    | apply list_elem_of_further, list_elem_of_here |].
  by exists room'.
Defined.
